(** * mcp-fabric: route compiler, gateway dispatch, admission and task controller

    A shallow embedding of the parts of the operator and of the gateway that
    the specification's testable properties talk about:

    - [Circuit]   gateway/internal/circuit  (Breaker.Acquire, Breaker.Release)
    - [Agent]     operator/internal/controllers/agent_controller.go
    - [Task]      operator/internal/controllers/task_controller.go
    - [GoSort]    Go's sort.Slice, as called by the route compiler
    - [Compiler]  operator/internal/controllers/route_controller.go
    - [Routes]    gateway/internal/routes/table.go and the no-match path of
                  gateway/internal/api/handlers.go
    - [Forward]   the two forwardToAgent functions of the gateway
    - [Manager]   gateway/internal/circuit (BreakerManager) and
                  Handler.UpdateDefaults
    - [Selector]  gateway/internal/routes/selector.go and the selection step
                  of Handler.handleInvoke
    - [RouteWatch] the Agent watch of the route controller
    - [ToolController] the Tool reconciler of agent_controller.go
    - [Render]    operator/internal/render/deployment.go (label values)
    - [Mcp]       helpers of gateway/internal/mcp/handler.go

    Go strings are byte strings and are modelled by [string]; int32 and int64
    fields are modelled by [Z] with the wrap-around of the arithmetic the code
    performs written out; calls into the orchestrator API are modelled by the
    outcome they return, collected in an environment record. *)

From Stdlib Require Import ZArith String Ascii List Bool Lia Permutation Sorted DecimalString.
From stdpp Require Import base option list gmap strings.
Import ListNotations.

Local Open Scope string_scope.
Local Open Scope list_scope.
Local Open Scope Z_scope.

(** ** Fixed-width integers *)

Module GoInt.

Definition wrap (bits : Z) (z : Z) : Z :=
  (z + 2 ^ (bits - 1)) mod 2 ^ bits - 2 ^ (bits - 1).

Definition wrap32 : Z -> Z := wrap 32.

Definition int32 (z : Z) : Prop := - 2 ^ 31 <= z < 2 ^ 31.

End GoInt.

(** ** Admission controller: gateway/internal/circuit *)

Module Circuit.
Import GoInt.

Inductive ctx_error := Canceled | DeadlineExceeded.

Inductive error :=
| ErrCircuitOpen
| ErrQueueFull
| ErrQueueTimeout
| ErrContext (e : ctx_error).

Definition error_message (e : error) : string :=
  match e with
  | ErrCircuitOpen => "circuit breaker open: too many concurrent requests"
  | ErrQueueFull => "queue full: cannot accept more requests"
  | ErrQueueTimeout => "queue timeout: waited too long for capacity"
  | ErrContext Canceled => "context canceled"
  | ErrContext DeadlineExceeded => "context deadline exceeded"
  end.

Record Config := {
  MaxConcurrent : Z;
  MaxQueueSize : Z;
  QueueTimeout : Z   (* time.Duration, nanoseconds *)
}.

(** [waitChan] is a buffered channel of empty structs: only the number of
    buffered tokens and the capacity matter. *)
Record Breaker := {
  route : string;
  maxConcurrent : Z;
  maxQueue : Z;
  queueTimeout : Z;
  active : Z;
  waiting : Z;
  waitChan : nat;
  waitCap : Z
}.

Definition second : Z := 1000000000.

Definition DefaultConfig : Config :=
  {| MaxConcurrent := 100; MaxQueueSize := 50; QueueTimeout := 30 * second |}.

(** New.  The capacity of the wake channel is the int32 sum of the two
    limits; make(chan struct{}, n) panics when n is negative, which is
    [None] here. *)
Definition New (r : string) (cfg : Config) : option Breaker :=
  let mc := if MaxConcurrent cfg <=? 0 then 100 else MaxConcurrent cfg in
  let mq := if MaxQueueSize cfg <? 0 then 0 else MaxQueueSize cfg in
  let qt := if QueueTimeout cfg <=? 0 then 30 * second else QueueTimeout cfg in
  let size := wrap32 (mc + mq) in
  if size <? 0 then None
  else
    Some {| route := r; maxConcurrent := mc; maxQueue := mq; queueTimeout := qt;
            active := 0; waiting := 0; waitChan := 0; waitCap := size |}.

Definition set_counters (b : Breaker) (a w : Z) : Breaker :=
  {| route := route b; maxConcurrent := maxConcurrent b; maxQueue := maxQueue b;
     queueTimeout := queueTimeout b; active := a; waiting := w;
     waitChan := waitChan b; waitCap := waitCap b |}.

Definition set_chan (b : Breaker) (n : nat) : Breaker :=
  {| route := route b; maxConcurrent := maxConcurrent b; maxQueue := maxQueue b;
     queueTimeout := queueTimeout b; active := active b; waiting := waiting b;
     waitChan := n; waitCap := waitCap b |}.

(** The part of Acquire that runs under the first lock. *)
Inductive entry := Granted | Rejected (e : error) | Queued.

Definition Acquire_lock (b : Breaker) : Breaker * entry :=
  if active b <? maxConcurrent b then
    (set_counters b (wrap32 (active b + 1)) (waiting b), Granted)
  else if waiting b >=? maxQueue b then
    (b, Rejected ErrQueueFull)
  else
    (set_counters b (active b) (wrap32 (waiting b + 1)), Queued).

(** The select statement of a queued waiter.  Its three cases are listed in
    source order; what the waiter sees when it reaches the select is
    whether the context is done, whether the queue timer has fired and
    whether the wake channel holds a token. *)
Inductive select_case := CaseCtxDone | CaseTimer | CaseWake.

Record wait_env := {
  ctx_done : option ctx_error;
  timer_fired : bool
}.

Definition ready_cases (env : wait_env) (b : Breaker) : list select_case :=
  (if ctx_done env is Some _ then [CaseCtxDone] else [])
  ++ (if timer_fired env then [CaseTimer] else [])
  ++ (if (0 <? waitChan b)%nat then [CaseWake] else []).

(** Go's select: when several communications can proceed one of them is
    chosen by a uniform pseudo-random draw, here the number [rnd]; when
    none can proceed the statement blocks ([None]). *)
Definition select (ready : list select_case) (rnd : nat) : option select_case :=
  match ready with
  | [] => None
  | _ => nth_error ready (rnd mod length ready)%nat
  end.

Definition Acquire_wait (b : Breaker) (env : wait_env) (rnd : nat)
  : option (Breaker * option error) :=
  match select (ready_cases env b) rnd with
  | None => None
  | Some CaseCtxDone =>
      match ctx_done env with
      | Some e => Some (set_counters b (active b) (wrap32 (waiting b - 1)),
                        Some (ErrContext e))
      | None => None
      end
  | Some CaseTimer =>
      Some (set_counters b (active b) (wrap32 (waiting b - 1)), Some ErrQueueTimeout)
  | Some CaseWake =>
      let b1 := set_chan b (pred (waitChan b)) in
      Some (set_counters b1 (wrap32 (active b + 1)) (wrap32 (waiting b - 1)), None)
  end.

(** Acquire for a caller that is not interleaved with other callers between
    its two critical sections. [None]: still blocked in the select. *)
Definition Acquire (b : Breaker) (env : wait_env) (rnd : nat)
  : option (Breaker * option error) :=
  match Acquire_lock b with
  | (b', Granted) => Some (b', None)
  | (b', Rejected e) => Some (b', Some e)
  | (b', Queued) => Acquire_wait b' env rnd
  end.

Definition Release (b : Breaker) : Breaker :=
  let b1 := set_counters b (wrap32 (active b - 1)) (waiting b) in
  if 0 <? waiting b1 then
    if (Z.of_nat (waitChan b1) <? waitCap b1) then set_chan b1 (S (waitChan b1))
    else b1
  else b1.

Definition well_formed (b : Breaker) : Prop :=
  int32 (maxConcurrent b) /\ int32 (maxQueue b) /\
  int32 (active b) /\ int32 (waiting b).

End Circuit.

(** ** Status conditions (k8s.io/apimachinery/pkg/api/meta) *)

Module Meta.

Inductive ConditionStatus := ConditionTrue | ConditionFalse | ConditionUnknown.

Record Condition := {
  Type_ : string;
  Status : ConditionStatus;
  ObservedGeneration : Z;
  Reason : string;
  Message : string
}.

(** SetStatusCondition keeps one entry per condition type: an existing
    entry of the same type is overwritten in place, otherwise the condition
    is appended.  Transition times are not modelled. *)
Fixpoint SetStatusCondition (conds : list Condition) (c : Condition) : list Condition :=
  match conds with
  | [] => [c]
  | d :: rest =>
      if String.eqb (Type_ d) (Type_ c) then c :: rest
      else d :: SetStatusCondition rest c
  end.

Fixpoint FindStatusCondition (conds : list Condition) (ty : string) : option Condition :=
  match conds with
  | [] => None
  | d :: rest => if String.eqb (Type_ d) ty then Some d else FindStatusCondition rest ty
  end.

End Meta.

(** ** Agent reconciler: operator/internal/controllers/agent_controller.go *)

Module Agent.
Import Meta.

(** The Agent and Tool types are declared in operator/api/v1alpha1
    (task_types.go, tool_types.go); the records keep the fields the
    reconciler reads and writes. *)
Record AgentTool := {
  ToolName : string;
  ToolDescription : string
}.

Record ToolPackageRef := {
  RefName : string;
  RefNamespace : string;
  EnabledTools : list string;
  DisabledTools : list string
}.

Record AgentSpec := {
  Replicas : option Z;
  Tools : list AgentTool;
  ToolPackages : list ToolPackageRef
}.

Record AgentStatus := {
  Ready : bool;
  Endpoint : string;
  AvailableReplicas : Z;
  ConfigHash : string;
  AvailableTools : list AgentTool;
  StatusObservedGeneration : Z;
  Conditions : list Condition
}.

Record Agent := {
  Name : string;
  Namespace : string;
  Generation : Z;
  Spec : AgentSpec;
  AgentStatus_ : AgentStatus
}.

Record Tool := {
  ToolObjName : string;
  ToolObjNamespace : string;
  ToolImage : string;
  ToolEntryModule : string;
  ToolReady : bool
}.

Record ToolPackageInfo := {
  InfoName : string;
  InfoNamespace : string;
  InfoImage : string;
  InfoEntryModule : string;
  InfoEnabledTools : list string;
  InfoDisabledTools : list string
}.

Record Deployment := { ReadyReplicas : Z }.

(** What the orchestrator API answers during one reconciliation. *)
Record Env := {
  get_tool : string -> string -> string + Tool;   (* namespace, name *)
  service_account_err : option string;
  config_map : string + string;                   (* error or config hash *)
  deployment_err : option string;
  service_err : option string;
  get_deployment : option Deployment;
  status_update_err : option string
}.

(** render.AgentEndpoint *)
Definition AgentEndpoint (a : Agent) : string :=
  Name a +:+ "." +:+ Namespace a +:+ ".svc.cluster.local:" +:+ "8080".

Fixpoint resolveToolPackages_loop (env : Env) (agentNs : string)
    (refs : list ToolPackageRef) (acc : list ToolPackageInfo)
  : string + list ToolPackageInfo :=
  match refs with
  | [] => inr acc
  | ref :: rest =>
      let ns := if String.eqb (RefNamespace ref) "" then agentNs else RefNamespace ref in
      match get_tool env ns (RefName ref) with
      | inl e =>
          inl ("failed to get Tool " +:+ ns +:+ "/" +:+ RefName ref +:+ ": " +:+ e)
      | inr tool =>
          if negb (ToolReady tool) then
            inl ("tool " +:+ ns +:+ "/" +:+ RefName ref +:+ " is not ready")
          else
            resolveToolPackages_loop env agentNs rest
              (acc ++ [{| InfoName := ToolObjName tool;
                          InfoNamespace := ToolObjNamespace tool;
                          InfoImage := ToolImage tool;
                          InfoEntryModule := ToolEntryModule tool;
                          InfoEnabledTools := EnabledTools ref;
                          InfoDisabledTools := DisabledTools ref |}])
      end
  end.

Definition resolveToolPackages (env : Env) (a : Agent) : string + list ToolPackageInfo :=
  resolveToolPackages_loop env (Namespace a) (ToolPackages (Spec a)) [].

Definition checkDeploymentReady (env : Env) (a : Agent) : bool * Z :=
  match get_deployment env with
  | None => (false, 0)
  | Some d =>
      let replicas := match Replicas (Spec a) with Some r => r | None => 1 end in
      ((ReadyReplicas d >=? replicas) && (ReadyReplicas d >? 0), ReadyReplicas d)
  end.

Definition with_status (a : Agent) (s : AgentStatus) : Agent :=
  {| Name := Name a; Namespace := Namespace a; Generation := Generation a;
     Spec := Spec a; AgentStatus_ := s |}.

Definition ready_condition (a : Agent) (st : ConditionStatus) (reason msg : string) : Condition :=
  {| Type_ := "Ready"; Status := st; ObservedGeneration := Generation a;
     Reason := reason; Message := msg |}.

(** Outcome of one reconciliation: the Agent as the store holds it when
    Reconcile returns, and the error Reconcile returns. *)
Record Outcome := { stored : Agent; err : option string }.

Definition Reconcile (env : Env) (agent : Agent) : Outcome :=
  let st := AgentStatus_ agent in
  match resolveToolPackages env agent with
  | inl e =>
      let st1 := {| Ready := false; Endpoint := Endpoint st;
                    AvailableReplicas := AvailableReplicas st;
                    ConfigHash := ConfigHash st;
                    AvailableTools := AvailableTools st;
                    StatusObservedGeneration := StatusObservedGeneration st;
                    Conditions :=
                      SetStatusCondition (Conditions st)
                        (ready_condition agent ConditionFalse "ToolResolutionFailed" e) |} in
      match status_update_err env with
      | Some se => {| stored := agent; err := Some se |}
      | None => {| stored := with_status agent st1; err := Some e |}
      end
  | inr _ =>
      match service_account_err env with
      | Some e => {| stored := agent; err := Some e |}
      | None =>
      match config_map env with
      | inl e => {| stored := agent; err := Some e |}
      | inr configHash =>
      match deployment_err env with
      | Some e => {| stored := agent; err := Some e |}
      | None =>
      match service_err env with
      | Some e => {| stored := agent; err := Some e |}
      | None =>
          let '(ready, replicas) := checkDeploymentReady env agent in
          let tools :=
            if ready && (0 <? Z.of_nat (length (Tools (Spec agent)))) then Tools (Spec agent)
            else if negb ready then []
            else AvailableTools st in
          let cond :=
            if ready then
              ready_condition agent ConditionTrue "DeploymentReady" "Agent deployment is ready"
            else
              ready_condition agent ConditionFalse "DeploymentNotReady"
                "Agent deployment is not yet ready" in
          let st1 := {| Ready := ready;
                        Endpoint := AgentEndpoint agent;
                        AvailableReplicas := replicas;
                        ConfigHash := configHash;
                        AvailableTools := tools;
                        StatusObservedGeneration := Generation agent;
                        Conditions := SetStatusCondition (Conditions st) cond |} in
          match status_update_err env with
          | Some e => {| stored := agent; err := Some e |}
          | None => {| stored := with_status agent st1; err := None |}
          end
      end end end end
  end.

(** A concrete Agent whose deployment has no ready replica yet. *)
Definition sample_agent : Agent :=
  {| Name := "alpha"; Namespace := "ns"; Generation := 1;
     Spec := {| Replicas := None; Tools := []; ToolPackages := [] |};
     AgentStatus_ := {| Ready := false; Endpoint := ""; AvailableReplicas := 0;
                        ConfigHash := ""; AvailableTools := [];
                        StatusObservedGeneration := 0; Conditions := [] |} |}.

Definition sample_env (readyReplicas : Z) : Env :=
  {| get_tool := fun _ _ => inl "not found";
     service_account_err := None;
     config_map := inr "0123456789abcdef";
     deployment_err := None;
     service_err := None;
     get_deployment := Some {| ReadyReplicas := readyReplicas |};
     status_update_err := None |}.

End Agent.

(** ** Byte-string functions of Go's strings and bufio packages *)

Module GoStrings.
Local Open Scope nat_scope.

Fixpoint drop_bytes (n : nat) (s : string) : string :=
  match n, s with
  | O, _ => s
  | S n', String _ s' => drop_bytes n' s'
  | S _, EmptyString => EmptyString
  end.

(** strings.Index: byte offset of the first occurrence, [None] for -1. *)
Fixpoint Index (s sub : string) : option nat :=
  if String.prefix sub s then Some 0
  else match s with
       | EmptyString => None
       | String _ s' => option_map S (Index s' sub)
       end.

Definition Contains (s sub : string) : bool :=
  match Index s sub with Some _ => true | None => false end.

(** unicode.IsSpace, on the UTF-8 encodings of the white-space runes:
    the six ASCII ones, U+0085, U+00A0, U+1680, U+2000..U+200A, U+2028,
    U+2029, U+202F, U+205F and U+3000. *)
Definition bytes (l : list nat) : string :=
  string_of_list_ascii (map ascii_of_nat l).

Definition space_runes : list string :=
  map bytes
    ([[9]; [10]; [11]; [12]; [13]; [32]; [194; 133]; [194; 160]; [225; 154; 128]]
     ++ map (fun k => [226; 128; k]) (seq 128 11)
     ++ [[226; 128; 168]; [226; 128; 169]; [226; 128; 175]; [226; 129; 159];
         [227; 128; 128]]).

Definition strip_space_prefix (s : string) : option string :=
  match List.filter (fun r => String.prefix r s) space_runes with
  | r :: _ => Some (drop_bytes (String.length r) s)
  | [] => None
  end.

Fixpoint trim_left (fuel : nat) (s : string) : string :=
  match fuel with
  | O => s
  | S fuel' =>
      match strip_space_prefix s with
      | Some s' => trim_left fuel' s'
      | None => s
      end
  end.

Definition rev_string (s : string) : string :=
  string_of_list_ascii (rev (list_ascii_of_string s)).

Definition strip_space_suffix (s : string) : option string :=
  let r_s := rev_string s in
  match List.filter (fun r => String.prefix (rev_string r) r_s) space_runes with
  | r :: _ => Some (rev_string (drop_bytes (String.length r) r_s))
  | [] => None
  end.

Fixpoint trim_right (fuel : nat) (s : string) : string :=
  match fuel with
  | O => s
  | S fuel' =>
      match strip_space_suffix s with
      | Some s' => trim_right fuel' s'
      | None => s
      end
  end.

(** strings.TrimSpace *)
Definition TrimSpace (s : string) : string :=
  trim_right (String.length s) (trim_left (String.length s) s).

(** bufio.Scanner with the default split function ScanLines and the default
    buffer: a line ends at a newline, one trailing carriage return is
    dropped, a non-empty unterminated last line is a line; a line of more
    than [maxLine] bytes makes the scanner stop with ErrTooLong. *)
Definition newline : ascii := ascii_of_nat 10.
Definition carriage_return : ascii := ascii_of_nat 13.

Definition dropCR (rev_line : list ascii) : string :=
  match rev_line with
  | c :: rest =>
      if Ascii.eqb c carriage_return then string_of_list_ascii (rev rest)
      else string_of_list_ascii (rev rev_line)
  | [] => EmptyString
  end.

Definition maxLine : nat := 2 ^ 16 - 1.

Fixpoint scan (s : string) (rev_line : list ascii) (acc : list string)
  : option (list string) :=
  match s with
  | EmptyString =>
      match rev_line with
      | [] => Some acc
      | _ => if maxLine <? length rev_line then None else Some (acc ++ [dropCR rev_line])
      end
  | String c s' =>
      if Ascii.eqb c newline then
        if maxLine <? length rev_line then None
        else scan s' [] (acc ++ [dropCR rev_line])
      else scan s' (c :: rev_line) acc
  end.

Definition ScanLines (s : string) : option (list string) := scan s [] [].

End GoStrings.

(** ** Task controller: operator/internal/controllers/task_controller.go *)

Module Task.
Import Meta GoInt GoStrings.

Inductive TaskPhase :=
| PhaseUnset        (* the empty string of a Task never reconciled *)
| TaskPhasePending
| TaskPhaseRunning
| TaskPhaseCompleted
| TaskPhaseFailed
| TaskPhasePaused.

Definition phase_eqb (p q : TaskPhase) : bool :=
  match p, q with
  | PhaseUnset, PhaseUnset | TaskPhasePending, TaskPhasePending
  | TaskPhaseRunning, TaskPhaseRunning | TaskPhaseCompleted, TaskPhaseCompleted
  | TaskPhaseFailed, TaskPhaseFailed | TaskPhasePaused, TaskPhasePaused => true
  | _, _ => false
  end.

Inductive TaskSourceType := TaskSourceTypeInline | TaskSourceTypeConfigMap | TaskSourceTypeSecret.

Record TaskLimits := {
  MaxIterations : option Z;
  IterationTimeout : option Z;
  TotalTimeout : option Z;
  MaxConsecutiveFailures : option Z;
  MaxJobRecreations : option Z
}.

Record TaskSpec := {
  SourceType : TaskSourceType;
  Limits : option TaskLimits;
  GitURL : option string;
  Paused : bool
}.

Record IterationResult := {
  Iteration : Z;
  IterPassed : bool;
  IterStartedAt : Z;
  IterCompletedAt : option Z;
  IterLearnings : string
}.

Record TaskStatus := {
  Phase : TaskPhase;
  CurrentIteration : Z;
  CompletedTasks : Z;
  TotalTasks : Z;
  ConsecutiveFailures : Z;
  StartedAt : option Z;
  CompletedAt : option Z;
  RecentIterations : list IterationResult;
  RepositoryURL : string;
  LastCommitSHA : string;
  PullRequestURL : string;
  StatusMessage : string;
  StatusObservedGeneration : Z;
  Conditions : list Condition
}.

Record Task := {
  Name : string;
  Namespace : string;
  Generation : Z;
  DeletionTimestamp : option Z;
  Finalizers : list string;
  Annotations : gmap string string;
  Spec : TaskSpec;
  Status_ : TaskStatus
}.

Record OrchestratorResult := {
  Passed : bool;
  ResCompletedTasks : Z;
  ResTotalTasks : Z;
  Iterations : Z;
  Learnings : string;
  CommitSHA : string;
  ResPullRequestURL : string;
  PRD : string;
  Error : string;
  NoChanges : bool;
  Pushed : bool;
  GitError : string
}.

Record JobCondition := { CondType : string; CondReason : string }.

Record Job := {
  JobName : string;
  JobNamespace : string;
  Succeeded : Z;
  Failed : Z;
  JobConditions : list JobCondition
}.

Record Pod := { PodName : string; PodNamespace : string }.

Inductive get_job_result :=
| JobNotFound
| JobGetError (e : string)
| JobFound (j : Job).

(** Library functions the controller calls and that are taken as given:
    json.Unmarshal into an OrchestratorResult and into a PRDDocument (the
    lengths of its tasks and stories arrays), fmt.Sscanf with the verb %d
    and time.Duration's String method. *)
Record Lib := {
  unmarshal_result : string -> string + OrchestratorResult;
  unmarshal_prd : string -> option (nat * nat);
  sscanf_d : string -> option Z;
  duration_string : Z -> string
}.

(** What the orchestrator API answers during one reconciliation. *)
Record Env := {
  now : Z;
  update_err : option string;
  status_update_err : option string;
  orchestrator_agent_err : option string;
  worker_agent_err : option string;
  workspace_pvc_err : option string;
  task_source : string + string;           (* error or PRD content *)
  render_job_err : option string;
  controller_ref_err : option string;
  create_job_err : option string;          (* errors other than AlreadyExists *)
  get_job : string -> get_job_result;
  clientset : bool;
  list_pods : string + list Pod;
  stream_logs : Pod -> Z -> string + string (* pod, TailLines: error or log bytes *)
}.

Record Result := { Requeue : bool; RequeueAfter : Z }.

Definition no_requeue : Result := {| Requeue := false; RequeueAfter := 0 |}.
Definition requeue_now : Result := {| Requeue := true; RequeueAfter := 0 |}.
Definition requeue_after (d : Z) : Result := {| Requeue := false; RequeueAfter := d |}.

(** Outcome of one reconciliation: the Task as the store holds it when
    Reconcile returns, the requeue request and the returned error. *)
Record Outcome := { stored : Task; result : Result; err : option string }.

Definition second : Z := 1000000000.
Definition minute : Z := 60 * second.
Definition hour : Z := 60 * minute.

Definition defaultMaxIterations : Z := 100.
Definition defaultIterationTimeout : Z := 30 * minute.
Definition defaultTotalTimeout : Z := 24 * hour.
Definition defaultMaxConsecutiveFailures : Z := 3.
Definition jobPollInterval : Z := 10 * second.
Definition failureRequeueDelay : Z := 30 * second.
Definition orchestratorResultMarker : string := "ORCHESTRATOR_RESULT:".
Definition taskFinalizer : string := "fabric.jarsater.ai/task-cleanup".
Definition maxJobRecreations : Z := 3.
Definition jobRecreationAnnotation : string := "fabric.jarsater.ai/job-recreations".

Definition with_status (t : Task) (s : TaskStatus) : Task :=
  {| Name := Name t; Namespace := Namespace t; Generation := Generation t;
     DeletionTimestamp := DeletionTimestamp t; Finalizers := Finalizers t;
     Annotations := Annotations t; Spec := Spec t; Status_ := s |}.

Definition with_finalizers (t : Task) (f : list string) : Task :=
  {| Name := Name t; Namespace := Namespace t; Generation := Generation t;
     DeletionTimestamp := DeletionTimestamp t; Finalizers := f;
     Annotations := Annotations t; Spec := Spec t; Status_ := Status_ t |}.

Definition with_annotations (t : Task) (a : gmap string string) : Task :=
  {| Name := Name t; Namespace := Namespace t; Generation := Generation t;
     DeletionTimestamp := DeletionTimestamp t; Finalizers := Finalizers t;
     Annotations := a; Spec := Spec t; Status_ := Status_ t |}.

Definition set_phase (s : TaskStatus) (p : TaskPhase) : TaskStatus :=
  {| Phase := p; CurrentIteration := CurrentIteration s;
     CompletedTasks := CompletedTasks s; TotalTasks := TotalTasks s;
     ConsecutiveFailures := ConsecutiveFailures s; StartedAt := StartedAt s;
     CompletedAt := CompletedAt s; RecentIterations := RecentIterations s;
     RepositoryURL := RepositoryURL s; LastCommitSHA := LastCommitSHA s;
     PullRequestURL := PullRequestURL s; StatusMessage := StatusMessage s;
     StatusObservedGeneration := StatusObservedGeneration s;
     Conditions := Conditions s |}.

Definition set_message (s : TaskStatus) (m : string) : TaskStatus :=
  {| Phase := Phase s; CurrentIteration := CurrentIteration s;
     CompletedTasks := CompletedTasks s; TotalTasks := TotalTasks s;
     ConsecutiveFailures := ConsecutiveFailures s; StartedAt := StartedAt s;
     CompletedAt := CompletedAt s; RecentIterations := RecentIterations s;
     RepositoryURL := RepositoryURL s; LastCommitSHA := LastCommitSHA s;
     PullRequestURL := PullRequestURL s; StatusMessage := m;
     StatusObservedGeneration := StatusObservedGeneration s;
     Conditions := Conditions s |}.

Definition set_completed_at (s : TaskStatus) (t : Z) : TaskStatus :=
  {| Phase := Phase s; CurrentIteration := CurrentIteration s;
     CompletedTasks := CompletedTasks s; TotalTasks := TotalTasks s;
     ConsecutiveFailures := ConsecutiveFailures s; StartedAt := StartedAt s;
     CompletedAt := Some t; RecentIterations := RecentIterations s;
     RepositoryURL := RepositoryURL s; LastCommitSHA := LastCommitSHA s;
     PullRequestURL := PullRequestURL s; StatusMessage := StatusMessage s;
     StatusObservedGeneration := StatusObservedGeneration s;
     Conditions := Conditions s |}.

(** TaskReconciler.setCondition, for the Ready condition *)
Definition setCondition (gen : Z) (s : TaskStatus) (st : ConditionStatus)
    (reason msg : string) : TaskStatus :=
  {| Phase := Phase s; CurrentIteration := CurrentIteration s;
     CompletedTasks := CompletedTasks s; TotalTasks := TotalTasks s;
     ConsecutiveFailures := ConsecutiveFailures s; StartedAt := StartedAt s;
     CompletedAt := CompletedAt s; RecentIterations := RecentIterations s;
     RepositoryURL := RepositoryURL s; LastCommitSHA := LastCommitSHA s;
     PullRequestURL := PullRequestURL s; StatusMessage := StatusMessage s;
     StatusObservedGeneration := StatusObservedGeneration s;
     Conditions :=
       SetStatusCondition (Conditions s)
         {| Type_ := "Ready"; Status := st; ObservedGeneration := gen;
            Reason := reason; Message := msg |} |}.

(** r.Status().Update(ctx, task) followed by the return of [res]: on
    failure nothing is stored and the error is returned. *)
Definition update_status (env : Env) (old : Task) (s : TaskStatus) (res : Result) : Outcome :=
  match status_update_err env with
  | Some e => {| stored := old; result := no_requeue; err := Some e |}
  | None => {| stored := with_status old s; result := res; err := None |}
  end.

(** fmt.Sprintf("%d", z) *)
Definition sprintf_d (z : Z) : string := NilZero.string_of_int (Z.to_int z).

Definition ContainsFinalizer (t : Task) (f : string) : bool :=
  existsb (String.eqb f) (Finalizers t).

Definition AddFinalizer (t : Task) (f : string) : Task :=
  if ContainsFinalizer t f then t else with_finalizers t (Finalizers t ++ [f]).

Definition RemoveFinalizer (t : Task) (f : string) : Task :=
  with_finalizers t (List.filter (fun g => negb (String.eqb g f)) (Finalizers t)).

Definition getEffectiveLimits (t : Task) : TaskLimits :=
  let l := match Limits (Spec t) with
           | Some l => l
           | None => {| MaxIterations := None; IterationTimeout := None;
                        TotalTimeout := None; MaxConsecutiveFailures := None;
                        MaxJobRecreations := None |}
           end in
  {| MaxIterations := Some (default defaultMaxIterations (MaxIterations l));
     IterationTimeout := Some (default defaultIterationTimeout (IterationTimeout l));
     TotalTimeout := Some (default defaultTotalTimeout (TotalTimeout l));
     MaxConsecutiveFailures :=
       Some (default defaultMaxConsecutiveFailures (MaxConsecutiveFailures l));
     MaxJobRecreations := MaxJobRecreations l |}.

Definition countTasksInPRD (lib : Lib) (prd : string) : Z :=
  match unmarshal_prd lib prd with
  | None => 0
  | Some (tasks, stories) =>
      if (tasks =? 0)%nat then Z.of_nat stories else Z.of_nat tasks
  end.

(** The scanning loop of getOrchestratorResult: every line that contains
    the marker overwrites [resultLine] with what follows the marker. *)
Definition scan_step (resultLine line : string) : string :=
  match Index line orchestratorResultMarker with
  | Some idx => drop_bytes (idx + String.length orchestratorResultMarker) line
  | None => resultLine
  end.

Definition scan_result_line (lines : list string) : string :=
  fold_left scan_step lines "".

Definition tailLines : Z := 1000.

Definition getOrchestratorResult (lib : Lib) (env : Env) (job : Job)
  : string + OrchestratorResult :=
  if negb (clientset env) then inl "kubernetes clientset not available"
  else
    match list_pods env with
    | inl e => inl ("failed to list Job pods: " +:+ e)
    | inr [] => inl ("no pods found for Job " +:+ JobName job)
    | inr (pod :: _) =>
        match stream_logs env pod tailLines with
        | inl e => inl ("failed to get pod logs: " +:+ e)
        | inr logs =>
            match ScanLines logs with
            | None => inl "failed to read pod logs: bufio.Scanner: token too long"
            | Some lines =>
                let resultLine := scan_result_line lines in
                if String.eqb resultLine "" then
                  inl "orchestrator result marker not found in logs"
                else
                  match unmarshal_result lib (TrimSpace resultLine) with
                  | inl e => inl ("failed to parse orchestrator result: " +:+ e)
                  | inr r => inr r
                  end
            end
        end
    end.

Definition extraction_failed_result : OrchestratorResult :=
  {| Passed := true; ResCompletedTasks := 0; ResTotalTasks := 0; Iterations := 0;
     Learnings := "Job completed but result extraction failed"; CommitSHA := "";
     ResPullRequestURL := ""; PRD := ""; Error := ""; NoChanges := false;
     Pushed := false; GitError := "" |}.

Definition last_n {A} (n : nat) (l : list A) : list A :=
  skipn (length l - n) l.

Definition handleJobSuccess (lib : Lib) (env : Env) (task : Task) (job : Job) : Outcome :=
  let r := match getOrchestratorResult lib env job with
           | inl _ => extraction_failed_result
           | inr r => r
           end in
  let s := Status_ task in
  let msg :=
    if Passed r then "All tasks completed successfully"
    else if negb (String.eqb (Error r) "") then Error r
    else "Orchestrator completed but not all tasks passed" in
  let iterResult :=
    {| Iteration := wrap32 (Iterations r); IterPassed := Passed r;
       IterStartedAt := default (now env) (StartedAt s);
       IterCompletedAt := Some (now env); IterLearnings := Learnings r |} in
  let recent := RecentIterations s ++ [iterResult] in
  let s1 :=
    {| Phase := if Passed r then TaskPhaseCompleted else TaskPhaseFailed;
       CurrentIteration := wrap32 (Iterations r);
       CompletedTasks := wrap32 (ResCompletedTasks r);
       TotalTasks := if ResTotalTasks r >? 0 then wrap32 (ResTotalTasks r) else TotalTasks s;
       ConsecutiveFailures := ConsecutiveFailures s;
       StartedAt := StartedAt s;
       CompletedAt := Some (now env);
       RecentIterations := if (10 <? length recent)%nat then last_n 10 recent else recent;
       RepositoryURL := RepositoryURL s;
       LastCommitSHA := if String.eqb (CommitSHA r) "" then LastCommitSHA s else CommitSHA r;
       PullRequestURL :=
         if String.eqb (ResPullRequestURL r) "" then PullRequestURL s else ResPullRequestURL r;
       StatusMessage := msg;
       StatusObservedGeneration := Generation task;
       Conditions :=
         SetStatusCondition (Conditions s)
           {| Type_ := "Ready";
              Status := if Passed r then ConditionTrue else ConditionFalse;
              ObservedGeneration := Generation task;
              Reason := if Passed r then "Completed" else "PartialCompletion";
              Message := msg |} |} in
  update_status env task s1 no_requeue.

Definition handleJobFailure (lib : Lib) (env : Env) (task : Task) (job : Job) : Outcome :=
  let s := Status_ task in
  let res := getOrchestratorResult lib env job in
  let msg := match res with
             | inr r => if String.eqb (Error r) "" then "Orchestrator Job failed" else Error r
             | inl _ => "Orchestrator Job failed"
             end in
  let s1 :=
    {| Phase := TaskPhaseFailed;
       CurrentIteration :=
         match res with inr r => wrap32 (Iterations r) | inl _ => CurrentIteration s end;
       CompletedTasks :=
         match res with inr r => wrap32 (ResCompletedTasks r) | inl _ => CompletedTasks s end;
       TotalTasks := TotalTasks s;
       ConsecutiveFailures := ConsecutiveFailures s;
       StartedAt := StartedAt s;
       CompletedAt := Some (now env);
       RecentIterations := RecentIterations s;
       RepositoryURL := RepositoryURL s;
       LastCommitSHA :=
         match res with
         | inr r => if String.eqb (CommitSHA r) "" then LastCommitSHA s else CommitSHA r
         | inl _ => LastCommitSHA s
         end;
       PullRequestURL := PullRequestURL s;
       StatusMessage := msg;
       StatusObservedGeneration := Generation task;
       Conditions :=
         SetStatusCondition (Conditions s)
           {| Type_ := "Ready"; Status := ConditionFalse;
              ObservedGeneration := Generation task;
              Reason := "JobFailed"; Message := msg |} |} in
  update_status env task s1 no_requeue.

Definition deadline_exceeded (c : JobCondition) : bool :=
  String.eqb (CondType c) "Failed" && String.eqb (CondReason c) "DeadlineExceeded".

Definition handleRunningPhase (lib : Lib) (env : Env) (task : Task) : Outcome :=
  let s := Status_ task in
  let limits := getEffectiveLimits task in
  let totalTimeout := default 0 (TotalTimeout limits) in
  let timed_out :=
    match StartedAt s with
    | Some t0 => now env - t0 >? totalTimeout
    | None => false
    end in
  if timed_out then
    let msg := "Total timeout exceeded: " +:+ duration_string lib totalTimeout in
    let s1 := set_completed_at (set_message (set_phase s TaskPhaseFailed) msg) (now env) in
    let s2 := setCondition (Generation task) s1 ConditionFalse "TotalTimeoutExceeded" msg in
    update_status env task s2 no_requeue
  else
    match get_job env (Name task +:+ "-orchestrator") with
    | JobNotFound =>
        let scanned :=
          match Annotations task !! jobRecreationAnnotation with
          | Some v => default 0 (sscanf_d lib v)
          | None => 0
          end in
        (* recreations is an int, 64 bits wide on the operator's platforms *)
        let recreations := wrap 64 (scanned + 1) in
        let maxRecreations :=
          match Limits (Spec task) with
          | Some l => default maxJobRecreations (MaxJobRecreations l)
          | None => maxJobRecreations
          end in
        if wrap32 recreations >? maxRecreations then
          let msg := "Orchestrator Job lost " +:+ sprintf_d (wrap 64 (recreations - 1))
                     +:+ " times, giving up" in
          let s1 := set_completed_at (set_message (set_phase s TaskPhaseFailed) msg) (now env) in
          update_status env task s1 no_requeue
        else
          match update_err env with
          | Some e => {| stored := task; result := no_requeue; err := Some e |}
          | None =>
              let task1 :=
                with_annotations task
                  (<[jobRecreationAnnotation := sprintf_d recreations]> (Annotations task)) in
              update_status env task1 (set_phase (Status_ task1) TaskPhasePending)
                (requeue_after failureRequeueDelay)
          end
    | JobGetError e => {| stored := task; result := no_requeue; err := Some e |}
    | JobFound job =>
        if Succeeded job >? 0 then handleJobSuccess lib env task job
        else if Failed job >? 0 then handleJobFailure lib env task job
        else if existsb deadline_exceeded (JobConditions job) then
          let msg := "Orchestrator Job deadline exceeded" in
          let s1 := set_completed_at (set_message (set_phase s TaskPhaseFailed) msg) (now env) in
          let s2 := setCondition (Generation task) s1 ConditionFalse "JobDeadlineExceeded" msg in
          update_status env task s2 no_requeue
        else
          {| stored := task; result := requeue_after jobPollInterval; err := None |}
    end.

(** A failed precondition of the pending phase: the Ready condition gets
    the reason, the status is stored and the Task is requeued after the
    failure delay. *)
Definition pending_blocked (env : Env) (task : Task) (reason msg : string) : Outcome :=
  update_status env task
    (setCondition (Generation task) (Status_ task) ConditionFalse reason msg)
    (requeue_after failureRequeueDelay).

Definition handlePendingPhase (lib : Lib) (env : Env) (task : Task) : Outcome :=
  match orchestrator_agent_err env with
  | Some e => pending_blocked env task "OrchestratorNotFound" e
  | None =>
  match worker_agent_err env with
  | Some e => pending_blocked env task "WorkerNotFound" e
  | None =>
  match workspace_pvc_err env with
  | Some e => {| stored := task; result := requeue_after failureRequeueDelay; err := Some e |}
  | None =>
  match task_source env with
  | inl e => pending_blocked env task "TaskSourceError" e
  | inr prdContent =>
  let totalTasks := countTasksInPRD lib prdContent in
  match render_job_err env with
  | Some e => pending_blocked env task "JobRenderError" e
  | None =>
  match controller_ref_err env with
  | Some e => {| stored := task; result := no_requeue; err := Some e |}
  | None =>
  match create_job_err env with
  | Some e => {| stored := task; result := requeue_after failureRequeueDelay; err := Some e |}
  | None =>
      let s := Status_ task in
      let s1 :=
        {| Phase := TaskPhaseRunning;
           CurrentIteration := CurrentIteration s;
           CompletedTasks := CompletedTasks s;
           TotalTasks := wrap32 totalTasks;
           ConsecutiveFailures := ConsecutiveFailures s;
           StartedAt := Some (now env);
           CompletedAt := CompletedAt s;
           RecentIterations := RecentIterations s;
           RepositoryURL := default (RepositoryURL s) (GitURL (Spec task));
           LastCommitSHA := LastCommitSHA s;
           PullRequestURL := PullRequestURL s;
           StatusMessage := StatusMessage s;
           StatusObservedGeneration := StatusObservedGeneration s;
           Conditions := Conditions s |} in
      update_status env task
        (setCondition (Generation task) s1 ConditionFalse "Running" "Orchestrator Job started")
        (requeue_after jobPollInterval)
  end end end end end end end.

Definition handleDeletion (env : Env) (task : Task) : Outcome :=
  if negb (ContainsFinalizer task taskFinalizer) then
    {| stored := task; result := no_requeue; err := None |}
  else
    match update_err env with
    | Some e => {| stored := task; result := no_requeue; err := Some e |}
    | None => {| stored := RemoveFinalizer task taskFinalizer; result := no_requeue; err := None |}
    end.

(** TaskReconciler.Reconcile, from the point where the Task has been
    fetched (a Task that is not found makes Reconcile return at once). *)
Definition Reconcile (lib : Lib) (env : Env) (task : Task) : Outcome :=
  let s := Status_ task in
  if DeletionTimestamp task is Some _ then handleDeletion env task
  else if negb (ContainsFinalizer task taskFinalizer) then
    match update_err env with
    | Some e => {| stored := task; result := no_requeue; err := Some e |}
    | None => {| stored := AddFinalizer task taskFinalizer; result := requeue_now; err := None |}
    end
  else if phase_eqb (Phase s) PhaseUnset then
    let s1 :=
      {| Phase := TaskPhasePending; CurrentIteration := 0; CompletedTasks := 0;
         TotalTasks := TotalTasks s; ConsecutiveFailures := 0;
         StartedAt := StartedAt s; CompletedAt := CompletedAt s;
         RecentIterations := RecentIterations s; RepositoryURL := RepositoryURL s;
         LastCommitSHA := LastCommitSHA s; PullRequestURL := PullRequestURL s;
         StatusMessage := StatusMessage s;
         StatusObservedGeneration := StatusObservedGeneration s;
         Conditions := Conditions s |} in
    update_status env task s1 requeue_now
  else if Paused (Spec task) then
    if negb (phase_eqb (Phase s) TaskPhasePaused) then
      update_status env task
        (setCondition (Generation task) (set_phase s TaskPhasePaused)
           ConditionFalse "Paused" "Task is paused")
        no_requeue
    else {| stored := task; result := no_requeue; err := None |}
  else if phase_eqb (Phase s) TaskPhaseCompleted || phase_eqb (Phase s) TaskPhaseFailed then
    {| stored := task; result := no_requeue; err := None |}
  else
    match Phase s with
    | TaskPhasePending => handlePendingPhase lib env task
    | TaskPhaseRunning => handleRunningPhase lib env task
    | _ =>
        if phase_eqb (Phase s) TaskPhasePaused && negb (Paused (Spec task)) then
          let s1 :=
            {| Phase := TaskPhaseRunning; CurrentIteration := CurrentIteration s;
               CompletedTasks := CompletedTasks s; TotalTasks := TotalTasks s;
               ConsecutiveFailures := 0;
               StartedAt := StartedAt s; CompletedAt := CompletedAt s;
               RecentIterations := RecentIterations s; RepositoryURL := RepositoryURL s;
               LastCommitSHA := LastCommitSHA s; PullRequestURL := PullRequestURL s;
               StatusMessage := StatusMessage s;
               StatusObservedGeneration := StatusObservedGeneration s;
               Conditions := Conditions s |} in
          update_status env task
            (setCondition (Generation task) s1 ConditionFalse "Resumed"
               "Task resumed from paused state")
            requeue_now
        else {| stored := task; result := no_requeue; err := None |}
    end.

(** Sequences of reconciliations: each one starts from what the previous
    one left in the store; the user may edit the spec in between. *)
Definition with_paused (t : Task) (p : bool) : Task :=
  {| Name := Name t; Namespace := Namespace t; Generation := Generation t;
     DeletionTimestamp := DeletionTimestamp t; Finalizers := Finalizers t;
     Annotations := Annotations t;
     Spec := {| SourceType := SourceType (Spec t); Limits := Limits (Spec t);
                GitURL := GitURL (Spec t); Paused := p |};
     Status_ := Status_ t |}.



End Task.

(** ** sort.Slice (Go 1.19 and later: pattern-defeating quicksort)

    The route compiler sorts the compiled rules with sort.Slice.  Its
    algorithm, pdqsort_func of the sort package, works on the slice through
    the two operations Less(i, j) and Swap(i, j); the slice is a list here
    and the loops are written with fuel or over index ranges. *)

Module GoSort.
Local Open Scope nat_scope.

Section Sort.
Context {A : Type} (less : A -> A -> bool).

Definition Less (l : list A) (i j : nat) : bool :=
  match l !! i, l !! j with
  | Some x, Some y => less x y
  | _, _ => false
  end.

Definition Swap (l : list A) (i j : nat) : list A :=
  match l !! i, l !! j with
  | Some x, Some y => <[i := y]> (<[j := x]> l)
  | _, _ => l
  end.

(** for j := i; j > a && Less(j, j-1); j-- { Swap(j, j-1) } *)
Fixpoint insert_down (a j : nat) (l : list A) : list A :=
  match j with
  | O => l
  | S j' => if (a <? j) && Less l j j' then insert_down a j' (Swap l j j') else l
  end.

Definition insertionSort_func (l : list A) (a b : nat) : list A :=
  fold_left (fun l i => insert_down a i l) (seq (a + 1) (b - (a + 1))) l.

Fixpoint siftDown_loop (fuel : nat) (l : list A) (root hi first : nat) : list A :=
  match fuel with
  | O => l
  | S fuel' =>
      let child := 2 * root + 1 in
      if hi <=? child then l
      else
        let child :=
          if (child + 1 <? hi) && Less l (first + child) (first + child + 1)
          then child + 1 else child in
        if negb (Less l (first + root) (first + child)) then l
        else siftDown_loop fuel' (Swap l (first + root) (first + child)) child hi first
  end.

Definition siftDown_func (l : list A) (lo hi first : nat) : list A :=
  siftDown_loop hi l lo hi first.

Definition heapSort_func (l : list A) (a b : nat) : list A :=
  let first := a in
  let lo := 0 in
  let hi := b - a in
  let l1 := fold_left (fun l i => siftDown_func l i hi first)
              (rev (seq 0 ((hi - 1) / 2 + 1))) l in
  fold_left (fun l i => siftDown_func (Swap l first (first + i)) lo i first)
    (rev (seq 0 hi)) l1.

(** for i <= j && Less(i, a) { i++ } *)
Fixpoint scan_up (fuel : nat) (l : list A) (a i j : nat) : nat :=
  match fuel with
  | O => i
  | S fuel' => if (i <=? j) && Less l i a then scan_up fuel' l a (i + 1) j else i
  end.

(** for i <= j && !Less(j, a) { j-- } *)
Fixpoint scan_down (fuel : nat) (l : list A) (a i j : nat) : nat :=
  match fuel with
  | O => j
  | S fuel' => if (i <=? j) && negb (Less l j a) then scan_down fuel' l a i (j - 1) else j
  end.

Fixpoint partition_loop (fuel : nat) (l : list A) (a i j : nat) : list A * nat :=
  match fuel with
  | O => (l, j)
  | S fuel' =>
      let i := scan_up (S j - i) l a i j in
      let j := scan_down (S j - i) l a i j in
      if j <? i then (l, j)
      else partition_loop fuel' (Swap l i j) a (i + 1) (j - 1)
  end.

Definition partition_func (l : list A) (a b pivot : nat) : list A * nat * bool :=
  let l := Swap l a pivot in
  let i := a + 1 in
  let j := b - 1 in
  let i := scan_up (S j - i) l a i j in
  let j := scan_down (S j - i) l a i j in
  if j <? i then (Swap l j a, j, true)
  else
    let '(l, j) := partition_loop (b - a) (Swap l i j) a (i + 1) (j - 1) in
    (Swap l j a, j, false).

(** for i <= j && !Less(a, i) { i++ } *)
Fixpoint scan_up_eq (fuel : nat) (l : list A) (a i j : nat) : nat :=
  match fuel with
  | O => i
  | S fuel' => if (i <=? j) && negb (Less l a i) then scan_up_eq fuel' l a (i + 1) j else i
  end.

(** for i <= j && Less(a, j) { j-- } *)
Fixpoint scan_down_eq (fuel : nat) (l : list A) (a i j : nat) : nat :=
  match fuel with
  | O => j
  | S fuel' => if (i <=? j) && Less l a j then scan_down_eq fuel' l a i (j - 1) else j
  end.

Fixpoint partitionEqual_loop (fuel : nat) (l : list A) (a i j : nat) : list A * nat :=
  match fuel with
  | O => (l, i)
  | S fuel' =>
      let i := scan_up_eq (S j - i) l a i j in
      let j := scan_down_eq (S j - i) l a i j in
      if j <? i then (l, i)
      else partitionEqual_loop fuel' (Swap l i j) a (i + 1) (j - 1)
  end.

Definition partitionEqual_func (l : list A) (a b pivot : nat) : list A * nat :=
  partitionEqual_loop (S (b - a)) (Swap l a pivot) a (a + 1) (b - 1).

(** The two shifting loops of partialInsertionSort_func. *)
Fixpoint shift_left (j : nat) (l : list A) : list A :=
  match j with
  | O => l
  | S j' => if negb (Less l j j') then l else shift_left j' (Swap l j j')
  end.

Fixpoint shift_right (fuel : nat) (l : list A) (j b : nat) : list A :=
  match fuel with
  | O => l
  | S fuel' =>
      if j <? b then
        if negb (Less l j (j - 1)) then l
        else shift_right fuel' (Swap l j (j - 1)) (j + 1) b
      else l
  end.

(** for i < b && !Less(i, i-1) { i++ } *)
Fixpoint scan_sorted (fuel : nat) (l : list A) (i b : nat) : nat :=
  match fuel with
  | O => i
  | S fuel' => if (i <? b) && negb (Less l i (i - 1)) then scan_sorted fuel' l (i + 1) b else i
  end.

Definition maxSteps : nat := 5.
Definition shortestShifting : nat := 50.

Fixpoint partialInsertionSort_loop (steps : nat) (l : list A) (a b i : nat)
  : list A * bool :=
  match steps with
  | O => (l, false)
  | S steps' =>
      let i := scan_sorted (b - i) l i b in
      if i =? b then (l, true)
      else if b - a <? shortestShifting then (l, false)
      else
        let l := Swap l i (i - 1) in
        let l := if 2 <=? i - a then shift_left (i - 1) l else l in
        let l := if 2 <=? b - i then shift_right (b - i) l (i + 1) b else l in
        partialInsertionSort_loop steps' l a b i
  end.

Definition partialInsertionSort_func (l : list A) (a b : nat) : list A * bool :=
  partialInsertionSort_loop maxSteps l a b (a + 1).

(** xorshift of the sort package, on uint64 *)
Definition uint64 (z : Z) : Z := (z mod 2 ^ 64)%Z.

Definition xorshift_Next (r : Z) : Z :=
  let r := Z.lxor r (uint64 (Z.shiftl r 13)) in
  let r := Z.lxor r (Z.shiftr r 7) in
  let r := Z.lxor r (uint64 (Z.shiftl r 17)) in
  r.

(** bits.Len *)
Definition bits_Len (n : nat) : nat :=
  match n with
  | O => 0
  | _ => S (Nat.log2 n)
  end.

Definition nextPowerOfTwo (length : nat) : Z := Z.shiftl 1 (Z.of_nat (bits_Len length)).

Fixpoint breakPatterns_loop (n : nat) (l : list A) (a length idx i : nat) (random : Z)
  : list A :=
  match n with
  | O => l
  | S n' =>
      let random := xorshift_Next random in
      let other := Z.to_nat (Z.land random (nextPowerOfTwo length - 1)) in
      let other := if length <=? other then other - length else other in
      breakPatterns_loop n' (Swap l (idx - 1 + i) (a + other)) a length idx (i + 1) random
  end.

Definition breakPatterns_func (l : list A) (a b : nat) : list A :=
  let length := b - a in
  if 8 <=? length then
    breakPatterns_loop 3 l a length (a + (length / 4) * 2 - 1) 0 (Z.of_nat length)
  else l.

Inductive sortedHint := unknownHint | increasingHint | decreasingHint.

Definition order2_func (l : list A) (a b swaps : nat) : nat * nat * nat :=
  if Less l b a then (b, a, S swaps) else (a, b, swaps).

Definition median_func (l : list A) (a b c swaps : nat) : nat * nat :=
  let '(a, b, swaps) := order2_func l a b swaps in
  let '(b, c, swaps) := order2_func l b c swaps in
  let '(a, b, swaps) := order2_func l a b swaps in
  (b, swaps).

Definition medianAdjacent_func (l : list A) (a swaps : nat) : nat * nat :=
  median_func l (a - 1) a (a + 1) swaps.

Definition shortestNinther : nat := 50.
Definition maxSwaps : nat := 4 * 3.

Definition choosePivot_func (l : list A) (a b : nat) : nat * sortedHint :=
  let len := b - a in
  let i := a + len / 4 * 1 in
  let j := a + len / 4 * 2 in
  let k := a + len / 4 * 3 in
  let '(j, swaps) :=
    if 8 <=? len then
      let '(i, j, k, swaps) :=
        if shortestNinther <=? len then
          let '(i, swaps) := medianAdjacent_func l i 0 in
          let '(j, swaps) := medianAdjacent_func l j swaps in
          let '(k, swaps) := medianAdjacent_func l k swaps in
          (i, j, k, swaps)
        else (i, j, k, 0) in
      median_func l i j k swaps
    else (j, 0) in
  if swaps =? 0 then (j, increasingHint)
  else if swaps =? maxSwaps then (j, decreasingHint)
  else (j, unknownHint).

Fixpoint reverseRange_loop (fuel : nat) (l : list A) (i j : nat) : list A :=
  match fuel with
  | O => l
  | S fuel' => if i <? j then reverseRange_loop fuel' (Swap l i j) (i + 1) (j - 1) else l
  end.

Definition reverseRange_func (l : list A) (a b : nat) : list A :=
  reverseRange_loop (b - a) l a (b - 1).

Definition maxInsertion : nat := 12.

Definition is_increasing (h : sortedHint) : bool :=
  match h with increasingHint => true | _ => false end.

Definition is_decreasing (h : sortedHint) : bool :=
  match h with decreasingHint => true | _ => false end.

(** The loop of pdqsort_func; calling the function enters the loop with
    both flags set.  Every turn of the loop and every recursive call
    works on a strictly shorter range, which the fuel counts. *)
Fixpoint pdqsort_loop (fuel : nat) (l : list A) (a b limit : nat)
    (wasBalanced wasPartitioned : bool) : list A :=
  match fuel with
  | O => l
  | S fuel' =>
      let length := b - a in
      if length <=? maxInsertion then insertionSort_func l a b
      else if limit =? 0 then heapSort_func l a b
      else
        let l := if wasBalanced then l else breakPatterns_func l a b in
        let limit := if wasBalanced then limit else limit - 1 in
        let '(pivot, hint) := choosePivot_func l a b in
        let '(l, pivot, hint) :=
          if is_decreasing hint
          then (reverseRange_func l a b, (b - 1) - (pivot - a), increasingHint)
          else (l, pivot, hint) in
        let '(l, done) :=
          if wasBalanced && wasPartitioned && is_increasing hint
          then partialInsertionSort_func l a b
          else (l, false) in
        if done then l
        else if (0 <? a) && negb (Less l (a - 1) pivot) then
          let '(l, mid) := partitionEqual_func l a b pivot in
          pdqsort_loop fuel' l mid b limit wasBalanced wasPartitioned
        else
          let '(l, mid, alreadyPartitioned) := partition_func l a b pivot in
          let leftLen := mid - a in
          let rightLen := b - mid in
          let balanceThreshold := length / 8 in
          if leftLen <? rightLen then
            let l := pdqsort_loop fuel' l a mid limit true true in
            pdqsort_loop fuel' l (mid + 1) b limit
              (balanceThreshold <=? leftLen) alreadyPartitioned
          else
            let l := pdqsort_loop fuel' l (mid + 1) b limit true true in
            pdqsort_loop fuel' l a mid limit
              (balanceThreshold <=? rightLen) alreadyPartitioned
  end.

Definition pdqsort_func (l : list A) (a b limit : nat) : list A :=
  pdqsort_loop (S (b - a)) l a b limit true true.

(** sort.Slice(x, less) *)
Definition Slice (l : list A) : list A :=
  pdqsort_func l 0 (length l) (bits_Len (length l)).

(** *** Insertion into a sorted prefix, as a function on lists

    [insert_rev x r] is what the inner loop of insertionSort_func does to
    the prefix left of [x], read from right to left: [x] moves past every
    element it is less than and stops at the first it is not less than. *)
Fixpoint insert_rev (x : A) (r : list A) : list A :=
  match r with
  | [] => [x]
  | y :: r' => if less x y then y :: insert_rev x r' else x :: r
  end.

Definition insert_sorted (prefix : list A) (x : A) : list A :=
  rev (insert_rev x (rev prefix)).

Definition isort (l : list A) : list A := fold_left insert_sorted l [].

End Sort.
End GoSort.

(** ** What sort.Slice establishes on a range of the slice

    The slice's elements are compared through an integer key, larger keys
    first, as the route compiler compares priorities.  The predicates speak
    of the index range [a, b) the sort functions are called on. *)

Module SortSpec.
Local Open Scope nat_scope.

Section Keys.
Context {A : Type} (key : A -> Z) (d : A).

Definition less : A -> A -> bool := fun x y => (key x >? key y)%Z.

Definition K (l : list A) (i : nat) : Z := key (nth i l d).

Definition sorted_on (l : list A) (a b : nat) : Prop :=
  forall i j, a <= i -> i < j -> j < b -> (K l j <= K l i)%Z.

Definition bounded_by_left (l : list A) (a b : nat) : Prop :=
  a = 0 \/ forall k, a <= k -> k < b -> (K l k <= K l (a - 1))%Z.

Definition within (a b : nat) (l l' : list A) : Prop :=
  length l' = length l
  /\ (forall k, k < a \/ b <= k -> nth k l' d = nth k l d)
  /\ (forall P : A -> Prop,
        (forall k, a <= k -> k < b -> P (nth k l d)) ->
        forall k, a <= k -> k < b -> P (nth k l' d)).

(** Node [p] of the heap stored from index [first] is in order with its
    children below [hi]: the heap keeps its smallest key at the root. *)
Definition heap_ok (l : list A) (first hi p : nat) : Prop :=
  forall c, c < hi -> c = 2 * p + 1 \/ c = 2 * p + 2 ->
            (K l (first + p) <= K l (first + c))%Z.

End Keys.
End SortSpec.

(** ** The compiled route table (render.RouteConfig, routes.RouteConfig)

    The operator's render package and the gateway's routes package declare
    the same JSON shape; one set of records serves both. *)

Module Compiled.

Record CompiledRouteMatch := {
  Agent : string;
  IntentRegex : string;
  TenantID : string;
  Headers : gmap string string
}.

Record CompiledRouteBackend := {
  AgentName : string;
  Namespace : string;
  Endpoint : string;
  Weight : Z;
  Ready : bool
}.

Record CompiledRouteRule := {
  Name : string;
  Priority : Z;
  Match : CompiledRouteMatch;
  Backends : list CompiledRouteBackend
}.

Record RouteDefaultConfig := {
  Backend : option CompiledRouteBackend;
  MaxConcurrent : Z;
  MaxQueueSize : Z;
  QueueTimeoutMs : Z;
  RequestTimeoutMs : Z;
  RejectUnmatched : bool
}.

Record RouteConfig := {
  Rules : list CompiledRouteRule;
  Defaults : option RouteDefaultConfig
}.

End Compiled.

(** ** Route compiler: operator/internal/controllers/route_controller.go *)

Module Compiler.
Import Meta.

(** The Route type is declared in operator/api/v1alpha1 (task_types.go);
    the records keep the fields the reconciler reads and writes, with
    pointers as options. *)
Record AgentRef := { RefName : string; RefNamespace : string }.

Record RouteBackend := { BackendAgentRef : AgentRef; Weight : option Z }.

Record RouteMatch := {
  Agent : string;
  IntentRegex : string;
  TenantID : string;
  Headers : gmap string string
}.

Record RouteRule := {
  Name : string;
  Priority : option Z;
  Match : RouteMatch;
  Backends : list RouteBackend
}.

Record CircuitBreakerConfig := {
  MaxConcurrent : option Z;
  MaxQueueSize : option Z;
  QueueTimeout : option Z;      (* metav1.Duration, nanoseconds *)
  RequestTimeout : option Z
}.

Record RouteDefaults := {
  Backend : option RouteBackend;
  CircuitBreaker : option CircuitBreakerConfig;
  RejectUnmatched : option bool
}.

Record RouteSpec := { Rules : list RouteRule; Defaults : option RouteDefaults }.

Record BackendStatus := {
  StatusAgentRef : AgentRef;
  BackendReady : bool;
  BackendEndpoint : string
}.

Record RouteStatus := {
  Ready : bool;
  ActiveRules : Z;
  StatusBackends : list BackendStatus;
  CompiledConfigMap : string;
  StatusObservedGeneration : Z;
  Conditions : list Condition
}.

Record Route := {
  RouteName : string;
  RouteNamespace : string;
  Generation : Z;
  Spec : RouteSpec;
  Status_ : RouteStatus
}.

(** What the reconciler reads from an Agent. *)
Record AgentView := { AgentReady : bool; AgentEndpoint : string }.

Inductive update_result := UpdateOk | UpdateConflict (e : string) | UpdateError (e : string).

Record Env := {
  get_agent : string -> string -> option AgentView;  (* namespace, name; None: Get fails *)
  routes_config_map_err : option string;
  status_update : update_result
}.

Definition backend_key (ns name : string) : string := ns +:+ "/" +:+ name.

Definition resolve_one (env : Env) (routeNs : string) (ref : AgentRef)
  : BackendStatus * bool :=
  let ns := if String.eqb (RefNamespace ref) "" then routeNs else RefNamespace ref in
  let r := {| RefName := RefName ref; RefNamespace := ns |} in
  match get_agent env ns (RefName ref) with
  | None => ({| StatusAgentRef := r; BackendReady := false; BackendEndpoint := "" |}, false)
  | Some a =>
      ({| StatusAgentRef := r; BackendReady := AgentReady a;
          BackendEndpoint := AgentEndpoint a |}, AgentReady a)
  end.

(** The state of the two nested loops of resolveBackends. *)
Record resolve_state := {
  backends : list BackendStatus;
  allReady : bool;
  seen : gset string
}.

Definition resolve_ref (env : Env) (routeNs : string) (st : resolve_state) (ref : AgentRef)
  : resolve_state :=
  let key := backend_key (RefNamespace ref) (RefName ref) in
  if bool_decide (key ∈ seen st) then st
  else
    let '(status, ok) := resolve_one env routeNs ref in
    {| backends := backends st ++ [status];
       allReady := allReady st && ok;
       seen := {[ key ]} ∪ seen st |}.

Definition resolveBackends (env : Env) (route : Route) : list BackendStatus * bool :=
  let st0 := {| backends := []; allReady := true; seen := ∅ |} in
  let st1 :=
    fold_left
      (fun st rule =>
         fold_left (fun st b => resolve_ref env (RouteNamespace route) st (BackendAgentRef b))
           (Backends rule) st)
      (Rules (Spec route)) st0 in
  let st2 :=
    match Defaults (Spec route) with
    | Some d =>
        match Backend d with
        | Some b => resolve_ref env (RouteNamespace route) st1 (BackendAgentRef b)
        | None => st1
        end
    | None => st1
    end in
  (backends st2, allReady st2).

Definition backendMap_of (backends : list BackendStatus) : gmap string BackendStatus :=
  fold_left
    (fun m b =>
       <[backend_key (RefNamespace (StatusAgentRef b)) (RefName (StatusAgentRef b)) := b]> m)
    backends ∅.

Definition zero_status : BackendStatus :=
  {| StatusAgentRef := {| RefName := ""; RefNamespace := "" |};
     BackendReady := false; BackendEndpoint := "" |}.

Definition compile_backend (routeNs : string) (backendMap : gmap string BackendStatus)
    (backend : RouteBackend) : Compiled.CompiledRouteBackend :=
  let ref := BackendAgentRef backend in
  let ns := if String.eqb (RefNamespace ref) "" then routeNs else RefNamespace ref in
  let status := default zero_status (backendMap !! backend_key ns (RefName ref)) in
  {| Compiled.AgentName := RefName ref;
     Compiled.Namespace := ns;
     Compiled.Endpoint := BackendEndpoint status;
     Compiled.Weight := default 100 (Weight backend);
     Compiled.Ready := BackendReady status |}.

(** The body of the loop over route.Spec.Rules. *)
Definition compile_rule (routeNs : string) (backendMap : gmap string BackendStatus)
    (rule : RouteRule) : Compiled.CompiledRouteRule :=
  {| Compiled.Name := Name rule;
     Compiled.Priority := default 0 (Priority rule);
     Compiled.Match :=
       {| Compiled.Agent := Agent (Match rule);
          Compiled.IntentRegex := IntentRegex (Match rule);
          Compiled.TenantID := TenantID (Match rule);
          Compiled.Headers := Headers (Match rule) |};
     Compiled.Backends := map (compile_backend routeNs backendMap) (Backends rule) |}.

(** The comparison handed to sort.Slice. *)
Definition by_priority (x y : Compiled.CompiledRouteRule) : bool :=
  Compiled.Priority x >? Compiled.Priority y.

Definition milliseconds (d : Z) : Z := Z.quot d 1000000.

Definition compile_defaults (routeNs : string) (backendMap : gmap string BackendStatus)
    (d : RouteDefaults) : Compiled.RouteDefaultConfig :=
  let cb := CircuitBreaker d in
  {| Compiled.Backend := option_map (compile_backend routeNs backendMap) (Backend d);
     Compiled.MaxConcurrent := default 100 (cb ≫= MaxConcurrent);
     Compiled.MaxQueueSize := default 50 (cb ≫= MaxQueueSize);
     Compiled.QueueTimeoutMs := default 30000 (milliseconds <$> (cb ≫= QueueTimeout));
     Compiled.RequestTimeoutMs := default 300000 (milliseconds <$> (cb ≫= RequestTimeout));
     Compiled.RejectUnmatched := default false (RejectUnmatched d) |}.

Definition compileRouteConfig (route : Route) (backends : list BackendStatus)
  : Compiled.RouteConfig :=
  let backendMap := backendMap_of backends in
  let rules := map (compile_rule (RouteNamespace route) backendMap) (Rules (Spec route)) in
  {| Compiled.Rules := GoSort.Slice by_priority rules;
     Compiled.Defaults :=
       option_map (compile_defaults (RouteNamespace route) backendMap)
         (Defaults (Spec route)) |}.

Record Outcome := {
  stored : Route;
  requeue : bool;
  err : option string;
  published : option Compiled.RouteConfig
}.

Definition with_status (r : Route) (s : RouteStatus) : Route :=
  {| RouteName := RouteName r; RouteNamespace := RouteNamespace r;
     Generation := Generation r; Spec := Spec r; Status_ := s |}.

Definition ready_condition (r : Route) (st : ConditionStatus) (reason msg : string) : Condition :=
  {| Type_ := "Ready"; Status := st; ObservedGeneration := Generation r;
     Reason := reason; Message := msg |}.

(** RouteReconciler.Reconcile, from the point where the Route has been
    fetched. *)
Definition Reconcile (env : Env) (route : Route) : Outcome :=
  let s := Status_ route in
  let '(backends, allReady) := resolveBackends env route in
  let routeConfig := compileRouteConfig route backends in
  match routes_config_map_err env with
  | Some e =>
      let s1 :=
        {| Ready := false; ActiveRules := ActiveRules s; StatusBackends := backends;
           CompiledConfigMap := CompiledConfigMap s;
           StatusObservedGeneration := StatusObservedGeneration s;
           Conditions :=
             SetStatusCondition (Conditions s)
               (ready_condition route ConditionFalse "ConfigMapUpdateFailed" e) |} in
      match status_update env with
      | UpdateOk =>
          {| stored := with_status route s1; requeue := false; err := Some e;
             published := None |}
      | UpdateConflict _ =>
          {| stored := route; requeue := true; err := None; published := None |}
      | UpdateError se =>
          {| stored := route; requeue := false; err := Some se; published := None |}
      end
  | None =>
      let cond :=
        if allReady then
          ready_condition route ConditionTrue "AllBackendsReady" "All backend agents are ready"
        else
          ready_condition route ConditionFalse "BackendsNotReady"
            "Some backend agents are not ready" in
      let s1 :=
        {| Ready := allReady;
           ActiveRules := GoInt.wrap32 (Z.of_nat (length (Rules (Spec route))));
           StatusBackends := backends;
           CompiledConfigMap := "mcp-fabric-gateway-routes";
           StatusObservedGeneration := Generation route;
           Conditions := SetStatusCondition (Conditions s) cond |} in
      match status_update env with
      | UpdateOk =>
          {| stored := with_status route s1; requeue := false; err := None;
             published := Some routeConfig |}
      | UpdateConflict _ =>
          {| stored := route; requeue := true; err := None;
             published := Some routeConfig |}
      | UpdateError se =>
          {| stored := route; requeue := false; err := Some se;
             published := Some routeConfig |}
      end
  end.

End Compiler.

(** ** Gateway route table: gateway/internal/routes/table.go *)

Module Routes.
Import Compiled.

(** Library functions taken as given: json.Unmarshal into a RouteConfig,
    regexp.Compile (the error, if the pattern does not compile) and
    Regexp.MatchString of the compiled pattern. *)
Record Lib := {
  json_Unmarshal : string -> string + RouteConfig;
  regexp_Compile_err : string -> option string;
  regexp_MatchString : string -> string -> bool
}.

(** [intentRegex] holds the pattern whose compiled form the rule carries,
    [None] for the nil pointer. *)
Record compiledRule := {
  rule : CompiledRouteRule;
  intentRegex : option string
}.

Record Table := {
  config : option RouteConfig;
  compiled : list compiledRule
}.

Definition NewTable : Table := {| config := None; compiled := [] |}.

Fixpoint compile_rules (lib : Lib) (rules : list CompiledRouteRule)
    (acc : list compiledRule) : string + list compiledRule :=
  match rules with
  | [] => inr acc
  | r :: rest =>
      if negb (String.eqb (IntentRegex (Match r)) "") then
        match regexp_Compile_err lib (IntentRegex (Match r)) with
        | Some e => inl e
        | None =>
            compile_rules lib rest
              (acc ++ [{| rule := r; intentRegex := Some (IntentRegex (Match r)) |}])
        end
      else compile_rules lib rest (acc ++ [{| rule := r; intentRegex := None |}])
  end.

(** Table.LoadFromJSON: the table after the call and the returned error. *)
Definition LoadFromJSON (lib : Lib) (t : Table) (data : string) : Table * option string :=
  match json_Unmarshal lib data with
  | inl e => (t, Some e)
  | inr cfg =>
      match compile_rules lib (Rules cfg) [] with
      | inl e => (t, Some e)
      | inr compiled => ({| config := Some cfg; compiled := compiled |}, None)
      end
  end.

Record MatchRequest := {
  ReqAgent : string;
  ReqIntent : string;
  ReqTenantID : string;
  ReqHeaders : gmap string string
}.

Record MatchResult := {
  RuleName : string;
  ResultBackends : list CompiledRouteBackend
}.

Definition filterReadyBackends (backends : list CompiledRouteBackend)
  : list CompiledRouteBackend :=
  List.filter (fun b => Ready b) backends.

(** A missing key of a Go map reads as the empty string. *)
Definition header (h : gmap string string) (k : string) : string := default "" (h !! k).

Definition ruleMatches (lib : Lib) (cr : compiledRule) (req : MatchRequest) : bool :=
  let m := Match (rule cr) in
  if negb (String.eqb (Agent m) "") && negb (String.eqb (Agent m) (ReqAgent req)) then false
  else if match intentRegex cr with
          | Some re => negb (regexp_MatchString lib re (ReqIntent req))
          | None => false
          end then false
  else if negb (String.eqb (TenantID m) "") && negb (String.eqb (TenantID m) (ReqTenantID req))
  then false
  else forallb (fun kv => String.eqb (header (ReqHeaders req) (fst kv)) (snd kv))
         (map_to_list (Headers m)).

(** The first loop of Match: rules whose match.agent is the requested one. *)
Fixpoint match_agent_loop (rules : list compiledRule) (req : MatchRequest)
  : option MatchResult :=
  match rules with
  | [] => None
  | cr :: rest =>
      if String.eqb (Agent (Match (rule cr))) (ReqAgent req) then
        match filterReadyBackends (Backends (rule cr)) with
        | [] => match_agent_loop rest req
        | ready => Some {| RuleName := Name (rule cr); ResultBackends := ready |}
        end
      else match_agent_loop rest req
  end.

(** The second loop of Match: rules in stored order. *)
Fixpoint match_rules_loop (lib : Lib) (rules : list compiledRule) (req : MatchRequest)
  : option MatchResult :=
  match rules with
  | [] => None
  | cr :: rest =>
      if ruleMatches lib cr req then
        match filterReadyBackends (Backends (rule cr)) with
        | [] => match_rules_loop lib rest req
        | ready => Some {| RuleName := Name (rule cr); ResultBackends := ready |}
        end
      else match_rules_loop lib rest req
  end.

Definition match_default (cfg : RouteConfig) : option MatchResult :=
  match Defaults cfg with
  | Some d =>
      match Backend d with
      | Some b =>
          if Ready b then Some {| RuleName := "_default"; ResultBackends := [b] |}
          else None
      | None => None
      end
  | None => None
  end.

(** Table.Match *)
Definition Match_ (lib : Lib) (t : Table) (req : MatchRequest) : option MatchResult :=
  match config t with
  | None => None
  | Some cfg =>
      let by_agent :=
        if negb (String.eqb (ReqAgent req) "") then match_agent_loop (compiled t) req
        else None in
      match by_agent with
      | Some r => Some r
      | None =>
          match match_rules_loop lib (compiled t) req with
          | Some r => Some r
          | None => match_default cfg
          end
      end
  end.

Definition GetDefaults (t : Table) : option RouteDefaultConfig :=
  match config t with
  | None => None
  | Some cfg => Defaults cfg
  end.

(** The routing decision of Handler.handleInvoke
    (gateway/internal/api/handlers.go): the matched rule, or the HTTP
    status of the rejection. *)
Inductive decision :=
| Routed (m : MatchResult)
| Reject (status : Z) (message : string).

Definition StatusBadRequest : Z := 400.
Definition StatusNotFound : Z := 404.

Definition route_request (lib : Lib) (t : Table) (req : MatchRequest) : decision :=
  let no_match :=
    match GetDefaults t with
    | Some d =>
        if RejectUnmatched d then Reject StatusBadRequest "no matching route found"
        else Reject StatusNotFound "no available agent for this request"
    | None => Reject StatusNotFound "no available agent for this request"
    end in
  match Match_ lib t req with
  | None => no_match
  | Some m =>
      match ResultBackends m with
      | [] => no_match
      | _ => Routed m
      end
  end.

(** *** The match procedure in the words of the specification *)

Definition has_ready_backend (cr : compiledRule) : bool :=
  existsb (fun b => Ready b) (Backends (rule cr)).

Definition ready_backends (cr : compiledRule) : list CompiledRouteBackend :=
  List.filter (fun b => Ready b) (Backends (rule cr)).

(** All non-empty criteria of a rule hold for the request. *)
Definition criteria_hold (lib : Lib) (cr : compiledRule) (req : MatchRequest) : bool :=
  let m := Match (rule cr) in
  (String.eqb (Agent m) "" || String.eqb (Agent m) (ReqAgent req))
  && match intentRegex cr with
     | Some re => regexp_MatchString lib re (ReqIntent req)
     | None => true
     end
  && (String.eqb (TenantID m) "" || String.eqb (TenantID m) (ReqTenantID req))
  && forallb (fun kv => String.eqb (header (ReqHeaders req) (fst kv)) (snd kv))
       (map_to_list (Headers m)).

Definition use_rule (cr : compiledRule) : MatchResult :=
  {| RuleName := Name (rule cr); ResultBackends := ready_backends cr |}.

Definition spec_decision (lib : Lib) (cfg : RouteConfig) (rules : list compiledRule)
    (req : MatchRequest) : decision :=
  let step1 :=
    if String.eqb (ReqAgent req) "" then None
    else find (fun cr => String.eqb (Agent (Match (rule cr))) (ReqAgent req)
                         && has_ready_backend cr) rules in
  match step1 with
  | Some cr => Routed (use_rule cr)
  | None =>
      match find (fun cr => criteria_hold lib cr req && has_ready_backend cr) rules with
      | Some cr => Routed (use_rule cr)
      | None =>
          match Defaults cfg with
          | Some d =>
              match Backend d with
              | Some b =>
                  if Ready b then Routed {| RuleName := "_default"; ResultBackends := [b] |}
                  else if RejectUnmatched d then
                    Reject StatusBadRequest "no matching route found"
                  else Reject StatusNotFound "no available agent for this request"
              | None =>
                  if RejectUnmatched d then
                    Reject StatusBadRequest "no matching route found"
                  else Reject StatusNotFound "no available agent for this request"
              end
          | None => Reject StatusNotFound "no available agent for this request"
          end
      end
  end.

(** What a successful load keeps of one rule: the rule and, when its
    pattern is not empty, the compiled pattern. *)
Definition compile_one (r : CompiledRouteRule) : compiledRule :=
  {| rule := r;
     intentRegex := if String.eqb (IntentRegex (Match r)) "" then None
                    else Some (IntentRegex (Match r)) |}.

End Routes.

(** ** Dispatch forwarders: gateway/internal/api/handlers.go and
       gateway/internal/mcp/handler.go *)

Module Forward.
Import GoStrings.

(** A decoded JSON value, as json.Unmarshal stores it in an interface{}:
    nil, bool, float64 (kept as its literal), string, slice, map. *)
Local Unset Elimination Schemes.
Inductive JSON :=
| JNull
| JBool (b : bool)
| JNumber (literal : string)
| JString (s : string)
| JArray (items : list JSON)
| JObject (fields : gmap string JSON).
Local Set Elimination Schemes.

(** Library functions taken as given: json.Unmarshal into an interface{}
    ([None] when the bytes are not valid JSON) and json.MarshalIndent with
    prefix "" and indent of two spaces. *)
Record Lib := {
  json_Unmarshal : string -> option JSON;
  json_MarshalIndent : JSON -> string
}.

Inductive http_result :=
| TransportError (e : string)
| Response (status : Z) (body : string).

Record Env := { http_do : string -> http_result (* POST to the url *) }.

Definition sprintf_d (z : Z) : string := NilZero.string_of_int (Z.to_int z).

(** strings.SplitN(s, ":", 2) *)
Definition split_colon (s : string) : string * option string :=
  match Index s ":" with
  | Some i => (String.substring 0 i s, Some (drop_bytes (i + 1) s))
  | None => (s, None)
  end.

Definition HasSuffix (s suffix : string) : bool :=
  String.prefix (rev_string suffix) (rev_string s).

(** The endpoint with the host made absolute by a trailing dot. *)
Definition fqdn_endpoint (endpoint : string) : string :=
  if Contains endpoint ".svc.cluster.local"
     && negb (HasSuffix (fst (split_colon endpoint)) ".")
  then
    match split_colon endpoint with
    | (host, Some port) => host +:+ ".:" +:+ port
    | (_, None) => endpoint
    end
  else endpoint.

Definition invoke_url (endpoint : string) : string :=
  "http://" +:+ fqdn_endpoint endpoint +:+ "/invoke".

Definition upstream_error (status : Z) (body : string) : string :=
  "agent returned " +:+ sprintf_d status +:+ ": " +:+ body.

(** Handler.forwardToAgent of the HTTP API: the result is an interface{},
    a decoded JSON value or the raw body as a Go string. *)
Definition api_forwardToAgent (lib : Lib) (env : Env) (endpoint : string) : string + JSON :=
  match http_do env (invoke_url endpoint) with
  | TransportError e => inl e
  | Response status body =>
      if status >=? 400 then inl (upstream_error status body)
      else
        match json_Unmarshal lib body with
        | None => inr (JString body)
        | Some v => inr v
        end
  end.

(** json.Unmarshal into a map[string]interface{}: only an object or null
    decodes, and null leaves the map nil. *)
Definition unmarshal_map (lib : Lib) (body : string) : option (gmap string JSON) :=
  match json_Unmarshal lib body with
  | Some (JObject m) => Some m
  | Some JNull => Some ∅
  | _ => None
  end.

(** Handler.forwardToAgent of the MCP endpoint: the result is a string. *)
Definition mcp_forwardToAgent (lib : Lib) (env : Env) (endpoint : string) : string + string :=
  match http_do env (invoke_url endpoint) with
  | TransportError e => inl e
  | Response status body =>
      if status >=? 400 then inl (upstream_error status body)
      else
        match unmarshal_map lib body with
        | Some result =>
            match result !! "result" with
            | Some (JString s) => inr s
            | Some r => inr (json_MarshalIndent lib r)
            | None =>
                match result !! "response" with
                | Some (JString s) => inr s
                | _ =>
                    match result !! "output" with
                    | Some (JString s) => inr s
                    | _ => inr body
                    end
                end
            end
        | None => inr body
        end
  end.

(** *** Response handling in the words of the specification *)

Definition string_field (m : gmap string JSON) (k : string) : option string :=
  match m !! k with
  | Some (JString s) => Some s
  | _ => None
  end.

Definition spec_reply (lib : Lib) (body : string) : string :=
  match json_Unmarshal lib body with
  | Some (JObject m) =>
      match string_field m "result", string_field m "response", string_field m "output" with
      | Some s, _, _ => s
      | None, Some s, _ => s
      | None, None, Some s => s
      | None, None, None => body
      end
  | Some _ => body
  | None => body
  end.

End Forward.

(** ** Concrete inputs used by the examples and counterexamples below *)

Module Samples.

(** A pool at capacity whose queue is full as well. *)
Definition full_breaker : Circuit.Breaker :=
  {| Circuit.route := "r"; Circuit.maxConcurrent := 1; Circuit.maxQueue := 1;
     Circuit.queueTimeout := Circuit.second; Circuit.active := 1; Circuit.waiting := 1;
     Circuit.waitChan := 0; Circuit.waitCap := 2 |}.

(** An idle pool with one slot and one queue place. *)
Definition idle_breaker : Circuit.Breaker :=
  {| Circuit.route := "r"; Circuit.maxConcurrent := 1; Circuit.maxQueue := 1;
     Circuit.queueTimeout := Circuit.second; Circuit.active := 0; Circuit.waiting := 0;
     Circuit.waitChan := 0; Circuit.waitCap := 2 |}.


(** Cancellation, timeout and wake all available at once. *)
Definition all_ready : Circuit.wait_env :=
  {| Circuit.ctx_done := Some Circuit.Canceled; Circuit.timer_fired := true |}.

(** Strings with double quotes are built from the quote character. *)
Definition dq : string := String (ascii_of_nat 34) EmptyString.
Definition quoted (s : string) : string := dq +:+ s +:+ dq.
Definition lf : string := String GoStrings.newline EmptyString.

(** A Task that completed, with its finalizer in place, which the user
    then pauses. *)
Definition completed_status : Task.TaskStatus :=
  {| Task.Phase := Task.TaskPhaseCompleted; Task.CurrentIteration := 3;
     Task.CompletedTasks := 5; Task.TotalTasks := 5; Task.ConsecutiveFailures := 0;
     Task.StartedAt := Some 1000; Task.CompletedAt := Some 2000;
     Task.RecentIterations := []; Task.RepositoryURL := ""; Task.LastCommitSHA := "";
     Task.PullRequestURL := ""; Task.StatusMessage := "All tasks completed successfully";
     Task.StatusObservedGeneration := 1; Task.Conditions := [] |}.

Definition completed_task (paused : bool) : Task.Task :=
  {| Task.Name := "t"; Task.Namespace := "default"; Task.Generation := 1;
     Task.DeletionTimestamp := None; Task.Finalizers := [Task.taskFinalizer];
     Task.Annotations := ∅;
     Task.Spec := {| Task.SourceType := Task.TaskSourceTypeInline; Task.Limits := None;
                     Task.GitURL := None; Task.Paused := paused |};
     Task.Status_ := completed_status |}.

Definition running_task : Task.Task :=
  Task.with_status (completed_task false)
    (Task.set_phase completed_status Task.TaskPhaseRunning).

(** json.Unmarshal on the one payload the examples use; every other input
    is reported as malformed. *)
Definition passed_payload : string :=
  "{" +:+ quoted "passed" +:+ ":true," +:+ quoted "iterations" +:+ ":3}".

Definition passed_result : Task.OrchestratorResult :=
  {| Task.Passed := true; Task.ResCompletedTasks := 0; Task.ResTotalTasks := 0;
     Task.Iterations := 3; Task.Learnings := ""; Task.CommitSHA := "";
     Task.ResPullRequestURL := ""; Task.PRD := ""; Task.Error := "";
     Task.NoChanges := false; Task.Pushed := false; Task.GitError := "" |}.

Definition failed_payload : string :=
  "{" +:+ quoted "passed" +:+ ":false," +:+ quoted "iterations" +:+ ":3}".

Definition failed_result : Task.OrchestratorResult :=
  {| Task.Passed := false; Task.ResCompletedTasks := 0; Task.ResTotalTasks := 0;
     Task.Iterations := 3; Task.Learnings := ""; Task.CommitSHA := "";
     Task.ResPullRequestURL := ""; Task.PRD := ""; Task.Error := "";
     Task.NoChanges := false; Task.Pushed := false; Task.GitError := "" |}.

Definition task_lib : Task.Lib :=
  {| Task.unmarshal_result :=
       fun s => if String.eqb s passed_payload then inr passed_result
                else if String.eqb s failed_payload then inr failed_result
                else inl "invalid character";
     Task.unmarshal_prd := fun _ => None;
     Task.sscanf_d := fun _ => None;
     Task.duration_string := fun _ => "24h0m0s" |}.

Definition succeeded_job : Task.Job :=
  {| Task.JobName := "t-orchestrator"; Task.JobNamespace := "default";
     Task.Succeeded := 1; Task.Failed := 0; Task.JobConditions := [] |}.

(** One reconciliation in which every call into the orchestrator API
    succeeds, the Job has succeeded and its pod log is [logs]. *)
Definition task_env (logs : string) : Task.Env :=
  {| Task.now := 3000; Task.update_err := None; Task.status_update_err := None;
     Task.orchestrator_agent_err := None; Task.worker_agent_err := None;
     Task.workspace_pvc_err := None; Task.task_source := inr "{}";
     Task.render_job_err := None; Task.controller_ref_err := None;
     Task.create_job_err := None;
     Task.get_job := fun _ => Task.JobFound succeeded_job;
     Task.clientset := true;
     Task.list_pods := inr [{| Task.PodName := "t-orchestrator-x";
                               Task.PodNamespace := "default" |}];
     Task.stream_logs := fun _ _ => inr logs |}.

(** A log with two marker lines and trailing output after the last one. *)
Definition log_two_markers : string :=
  "ORCHESTRATOR_RESULT:{}" +:+ lf +:+ "more" +:+ lf
  +:+ "out: ORCHESTRATOR_RESULT:" +:+ passed_payload +:+ " " +:+ lf
  +:+ "Done." +:+ lf.

Definition log_no_marker : string := "Starting" +:+ lf +:+ "Done." +:+ lf.






(** A compiled table with an explicit-agent rule, an intent rule and a
    default backend that is not ready; [pattern] is the intent pattern. *)
Definition backend (name : string) (ready : bool) : Compiled.CompiledRouteBackend :=
  {| Compiled.AgentName := name; Compiled.Namespace := "ns";
     Compiled.Endpoint := name +:+ ".ns.svc.cluster.local:8080";
     Compiled.Weight := 100; Compiled.Ready := ready |}.

Definition table_config (pattern : string) : Compiled.RouteConfig :=
  {| Compiled.Rules :=
       [ {| Compiled.Name := "by-agent"; Compiled.Priority := 10;
            Compiled.Match := {| Compiled.Agent := "alpha"; Compiled.IntentRegex := "";
                                 Compiled.TenantID := ""; Compiled.Headers := ∅ |};
            Compiled.Backends := [backend "alpha" true] |};
         {| Compiled.Name := "by-intent"; Compiled.Priority := 5;
            Compiled.Match := {| Compiled.Agent := ""; Compiled.IntentRegex := pattern;
                                 Compiled.TenantID := ""; Compiled.Headers := ∅ |};
            Compiled.Backends := [backend "beta" false; backend "gamma" true] |} ];
     Compiled.Defaults :=
       Some {| Compiled.Backend := Some (backend "fallback" false);
               Compiled.MaxConcurrent := 100; Compiled.MaxQueueSize := 50;
               Compiled.QueueTimeoutMs := 30000; Compiled.RequestTimeoutMs := 300000;
               Compiled.RejectUnmatched := true |} |}.

(** The blob of [table_config pattern], abridged to the fields that tell the
    two sample tables apart. *)
Definition table_json (pattern : string) : string :=
  "{" +:+ quoted "rules" +:+ ":[{" +:+ quoted "name" +:+ ":" +:+ quoted "by-agent"
  +:+ "},{" +:+ quoted "name" +:+ ":" +:+ quoted "by-intent" +:+ ","
  +:+ quoted "match" +:+ ":{" +:+ quoted "intentRegex" +:+ ":" +:+ quoted pattern
  +:+ "}}]}".

(** json.Unmarshal on the two sample blobs, regexp.Compile rejecting the
    unbalanced pattern, and MatchString for patterns that are plain words
    (a substring test). *)
Definition routes_lib : Routes.Lib :=
  {| Routes.json_Unmarshal :=
       fun data =>
         if String.eqb data (table_json "cost") then inr (table_config "cost")
         else if String.eqb data (table_json "(") then inr (table_config "(")
         else inl "invalid character";
     Routes.regexp_Compile_err :=
       fun p => if String.eqb p "(" then Some "error parsing regexp: missing closing )"
                else None;
     Routes.regexp_MatchString := fun p s => GoStrings.Contains s p |}.

Definition request (agent intent : string) : Routes.MatchRequest :=
  {| Routes.ReqAgent := agent; Routes.ReqIntent := intent;
     Routes.ReqTenantID := ""; Routes.ReqHeaders := ∅ |}.

Definition loaded_table : Routes.Table :=
  fst (Routes.LoadFromJSON routes_lib Routes.NewTable (table_json "cost")).

(** A table without rules whose defaults carry the given circuit-breaker
    limits and a queue timeout of 1500 ms. *)
Definition limits_table (maxConcurrent maxQueueSize : Z) : Routes.Table :=
  {| Routes.config :=
       Some {| Compiled.Rules := [];
               Compiled.Defaults :=
                 Some {| Compiled.Backend := None;
                         Compiled.MaxConcurrent := maxConcurrent;
                         Compiled.MaxQueueSize := maxQueueSize;
                         Compiled.QueueTimeoutMs := 1500;
                         Compiled.RequestTimeoutMs := 0;
                         Compiled.RejectUnmatched := false |} |};
     Routes.compiled := [] |}.

(** A Route with thirteen rules r0 .. r12 in namespace ns, none with a
    backend; only the last one has a priority. *)
Definition plain_rule (name : string) (priority : option Z) (pattern : string)
  : Compiler.RouteRule :=
  {| Compiler.Name := name; Compiler.Priority := priority;
     Compiler.Match := {| Compiler.Agent := ""; Compiler.IntentRegex := pattern;
                          Compiler.TenantID := ""; Compiler.Headers := ∅ |};
     Compiler.Backends := [] |}.

Definition empty_route_status : Compiler.RouteStatus :=
  {| Compiler.Ready := false; Compiler.ActiveRules := 0; Compiler.StatusBackends := [];
     Compiler.CompiledConfigMap := ""; Compiler.StatusObservedGeneration := 0;
     Compiler.Conditions := [] |}.

Definition route_of (rules : list Compiler.RouteRule) : Compiler.Route :=
  {| Compiler.RouteName := "route"; Compiler.RouteNamespace := "ns";
     Compiler.Generation := 1;
     Compiler.Spec := {| Compiler.Rules := rules; Compiler.Defaults := None |};
     Compiler.Status_ := empty_route_status |}.

Definition route13 : Compiler.Route :=
  route_of
    (map (fun n => plain_rule n None "")
       ["r0"; "r1"; "r2"; "r3"; "r4"; "r5"; "r6"; "r7"; "r8"; "r9"; "r10"; "r11"]
     ++ [plain_rule "r12" (Some 1) ""]).

(** A Route whose second rule has a pattern that does not compile, with one
    backend, the ready Agent alpha. *)
Definition route_bad_regex : Compiler.Route :=
  route_of
    [ plain_rule "good" (Some 10) "cost";
      {| Compiler.Name := "bad"; Compiler.Priority := Some 5;
         Compiler.Match := {| Compiler.Agent := ""; Compiler.IntentRegex := "(";
                              Compiler.TenantID := ""; Compiler.Headers := ∅ |};
         Compiler.Backends :=
           [ {| Compiler.BackendAgentRef :=
                  {| Compiler.RefName := "alpha"; Compiler.RefNamespace := "" |};
                Compiler.Weight := None |} ] |} ].

Definition compiler_env : Compiler.Env :=
  {| Compiler.get_agent :=
       fun ns name =>
         if String.eqb name "alpha"
         then Some {| Compiler.AgentReady := true;
                      Compiler.AgentEndpoint := "alpha.ns.svc.cluster.local:8080" |}
         else None;
     Compiler.routes_config_map_err := None;
     Compiler.status_update := Compiler.UpdateOk |}.

(** Worker replies. json.Unmarshal is given on the two JSON bodies the
    examples use and rejects everything else; json.MarshalIndent is given on
    numbers, which it prints as they are. *)
Definition body_result_number : string := "{" +:+ quoted "result" +:+ ":42}".
Definition body_response : string := "{" +:+ quoted "response" +:+ ":" +:+ quoted "hi" +:+ "}".

Definition forward_lib : Forward.Lib :=
  {| Forward.json_Unmarshal :=
       fun body =>
         if String.eqb body body_result_number
         then Some (Forward.JObject {[ "result" := Forward.JNumber "42" ]})
         else if String.eqb body body_response
         then Some (Forward.JObject {[ "response" := Forward.JString "hi" ]})
         else None;
     Forward.json_MarshalIndent :=
       fun v => match v with Forward.JNumber literal => literal | _ => "null" end |}.

Definition worker (status : Z) (body : string) : Forward.Env :=
  {| Forward.http_do := fun _ => Forward.Response status body |}.

End Samples.

(** ** Breaker manager: gateway/internal/circuit (BreakerManager, Stats) and
       Handler.UpdateDefaults of gateway/internal/api/handlers.go *)

Module Manager.
Import GoInt Circuit.

Record Stats := {
  StatsActive : Z;
  StatsWaiting : Z;
  MaxCapacity : Z;
  MaxQueue : Z
}.

(** Breaker.Stats *)
Definition Stats_ (b : Breaker) : Stats :=
  {| StatsActive := active b; StatsWaiting := waiting b;
     MaxCapacity := maxConcurrent b; MaxQueue := maxQueue b |}.

(** The map holds pointers to breakers; the breaker stored under a route is
    the current state of the one breaker of that route. *)
Record BreakerManager := {
  breakers : gmap string Breaker;
  defaults : Config
}.

Definition NewManager (defaults : Config) : BreakerManager :=
  {| breakers := ∅; defaults := defaults |}.

(** BreakerManager.Get: the manager after the call and the breaker
    returned.  When New panics the deferred Unlock runs, nothing has been
    stored and the panic reaches the caller ([None]). *)
Definition Get (m : BreakerManager) (route : string) : BreakerManager * option Breaker :=
  match breakers m !! route with
  | Some b => (m, Some b)
  | None =>
      match New route (defaults m) with
      | Some b =>
          ({| breakers := <[route := b]> (breakers m); defaults := defaults m |}, Some b)
      | None => (m, None)
      end
  end.

Definition UpdateConfig (m : BreakerManager) (cfg : Config) : BreakerManager :=
  {| breakers := breakers m; defaults := cfg |}.

(** The two fields of the API handler that UpdateDefaults writes. *)
Record Handler := {
  handler_breakers : BreakerManager;
  reqTimeout : Z   (* time.Duration, nanoseconds *)
}.

Definition millisecond : Z := 1000000.
Definition minute : Z := 60 * second.

Definition NewHandler (reqTimeout : Z) : Handler :=
  {| handler_breakers := NewManager DefaultConfig;
     reqTimeout := if reqTimeout <=? 0 then 5 * minute else reqTimeout |}.

(** Handler.UpdateDefaults: time.Duration(ms) * time.Millisecond is a
    product of int64 values. *)
Definition UpdateDefaults (h : Handler) (t : Routes.Table) : Handler :=
  match Routes.GetDefaults t with
  | None => h
  | Some d =>
      let m :=
        UpdateConfig (handler_breakers h)
          {| MaxConcurrent := Compiled.MaxConcurrent d;
             MaxQueueSize := Compiled.MaxQueueSize d;
             QueueTimeout := wrap 64 (Compiled.QueueTimeoutMs d * millisecond) |} in
      {| handler_breakers := m;
         reqTimeout :=
           if Compiled.RequestTimeoutMs d >? 0
           then wrap 64 (Compiled.RequestTimeoutMs d * millisecond)
           else reqTimeout h |}
  end.

End Manager.

(** ** Backend selection: gateway/internal/routes/selector.go and the
       selection step of Handler.handleInvoke *)

Module Selector.
Import GoInt Compiled.

Definition uint32 (z : Z) : Z := z mod 2 ^ 32.

(** hash/fnv, New32a: the 32-bit FNV-1a hash. *)
Definition offset32 : Z := 2166136261.
Definition prime32 : Z := 16777619.

Definition sum32a_Write (hash : Z) (data : string) : Z :=
  fold_left (fun h c => uint32 (Z.lxor h (Z.of_nat (nat_of_ascii c)) * prime32))
    (list_ascii_of_string data) hash.

Definition Sum32 (key : string) : Z := sum32a_Write offset32 key.

(** var totalWeight int32; for ... { totalWeight += b.Weight } *)
Definition totalWeight (backends : list CompiledRouteBackend) : Z :=
  fold_left (fun t b => wrap32 (t + Weight b)) backends 0.

(** The loop that looks for the backend of the draw [r]: the index of the
    first backend at which the running sum exceeds [r]. *)
Fixpoint find_cumulative (r cumulative : Z) (i : Z) (backends : list CompiledRouteBackend)
  : option Z :=
  match backends with
  | [] => None
  | b :: rest =>
      let cumulative := wrap32 (cumulative + Weight b) in
      if r <? cumulative then Some i else find_cumulative r cumulative (i + 1) rest
  end.

(** The selectors return a pointer into the slice, &backends[idx], or nil:
    here the index, or [None].  [rnd] is the draw of the random source:
    Intn(n) and Int31n(n) return a number from 0 to n - 1. *)
Definition SelectWeighted (rnd : Z) (backends : list CompiledRouteBackend) : option Z :=
  match backends with
  | [] => None
  | [_] => Some 0
  | _ =>
      let total := totalWeight backends in
      if total <=? 0 then Some (rnd mod Z.of_nat (length backends))
      else
        let r := rnd mod total in
        match find_cumulative r 0 0 backends with
        | Some i => Some i
        | None => Some (Z.of_nat (length backends) - 1)
        end
  end.

(** [intSize] is the width of Go's int on the platform, 32 or 64. *)
Definition SelectConsistentHash (intSize : Z) (backends : list CompiledRouteBackend)
    (key : string) : option Z :=
  match backends with
  | [] => None
  | [_] => Some 0
  | _ =>
      let hash := Sum32 key in
      let idx := Z.rem (wrap intSize hash) (Z.of_nat (length backends)) in
      let idx := if idx <? 0 then wrap intSize (- idx) else idx in
      Some idx
  end.

Inductive SelectionStrategy := StrategyWeightedRandom | StrategyConsistentHash.

Definition Select (intSize rnd : Z) (backends : list CompiledRouteBackend)
    (strategy : SelectionStrategy) (hashKey : string) : option Z :=
  match strategy with
  | StrategyConsistentHash => SelectConsistentHash intSize backends hashKey
  | StrategyWeightedRandom => SelectWeighted rnd backends
  end.

(** The selection step of handleInvoke, for a match result. *)
Definition select_backend (intSize rnd : Z) (m : Routes.MatchResult)
    (tenantID correlationID : string) : option Z :=
  if negb (String.eqb tenantID "") || negb (String.eqb correlationID "") then
    Select intSize rnd (Routes.ResultBackends m) StrategyConsistentHash
      (tenantID +:+ ":" +:+ correlationID)
  else Select intSize rnd (Routes.ResultBackends m) StrategyWeightedRandom "".

(** The sum of the weights of the first [i] backends. *)
Definition weight_before (backends : list CompiledRouteBackend) (i : Z) : Z :=
  fold_right Z.add 0 (map Weight (firstn (Z.to_nat i) backends)).

End Selector.

(** ** Routes that reference an Agent: the watch mapping of
       operator/internal/controllers/route_controller.go *)

Module RouteWatch.
Import Compiler.

Definition references (routeNs : string) (ref : AgentRef) (agentName agentNamespace : string)
  : bool :=
  let ns := if String.eqb (RefNamespace ref) "" then routeNs else RefNamespace ref in
  String.eqb (RefName ref) agentName && String.eqb ns agentNamespace.

(** RouteReconciler.routeReferencesAgent *)
Definition routeReferencesAgent (route : Route) (agentName agentNamespace : string) : bool :=
  if existsb
       (fun rule =>
          existsb
            (fun backend =>
               references (RouteNamespace route) (BackendAgentRef backend)
                 agentName agentNamespace)
            (Backends rule))
       (Rules (Spec route))
  then true
  else
    match Defaults (Spec route) with
    | Some d =>
        match Backend d with
        | Some b =>
            if references (RouteNamespace route) (BackendAgentRef b) agentName agentNamespace
            then true else false
        | None => false
        end
    | None => false
    end.

(** RouteReconciler.findRoutesForAgent, for an Agent object: the requests
    (name, namespace) of the Routes to reconcile; listing the Routes may
    fail. *)
Definition findRoutesForAgent (routeList : string + list Route)
    (agentName agentNamespace : string) : list (string * string) :=
  match routeList with
  | inl _ => []
  | inr items =>
      map (fun route => (RouteName route, RouteNamespace route))
        (List.filter (fun route => routeReferencesAgent route agentName agentNamespace) items)
  end.

(** A namespace as Kubernetes admits it has no slash. *)
Definition no_slash (s : string) : Prop := GoStrings.Index s "/" = None.

Definition refs_of (route : Route) : list AgentRef :=
  flat_map (fun rule => map BackendAgentRef (Backends rule)) (Rules (Spec route))
  ++ match Defaults (Spec route) with
     | Some d => match Backend d with Some b => [BackendAgentRef b] | None => [] end
     | None => []
     end.

Definition namespaces_plain (route : Route) : Prop :=
  no_slash (RouteNamespace route)
  /\ Forall (fun ref => no_slash (RefNamespace ref)) (refs_of route).

(** What the reconciler learns of the Agent [name] in [ns]: its ready flag
    and its endpoint, false and the empty string when the Get fails. *)
Definition fetched (env : Env) (ns name : string) : bool * string :=
  match get_agent env ns name with
  | Some a => (AgentReady a, AgentEndpoint a)
  | None => (false, "")
  end.

(** The state of the loops of resolveBackends after the references [refs]:
    the keys seen are theirs, and the statuses collected are the ones
    resolved for them. *)
Definition resolved (env : Env) (routeNs : string) (refs : list AgentRef)
    (st : resolve_state) : Prop :=
  (forall k, k ∈ seen st <->
             exists ref, In ref refs /\ k = backend_key (RefNamespace ref) (RefName ref))
  /\ (forall s, In s (backends st) <->
                exists ref, In ref refs /\ s = fst (resolve_one env routeNs ref)).

End RouteWatch.

(** ** Tool reconciler: operator/internal/controllers/agent_controller.go *)

Module ToolController.
Import Meta.

Record ToolDefinition := { DefName : string; DefDescription : string }.

Record ToolSpec := {
  Image : string;
  EntryModule : string;
  Tools : list ToolDefinition
}.

Record ToolStatus := {
  Ready : bool;
  ObservedGeneration_ : Z;
  AvailableTools : list ToolDefinition;
  Conditions : list Condition
}.

Record Tool := {
  Name : string;
  Namespace : string;
  Generation : Z;
  Spec : ToolSpec;
  Status_ : ToolStatus
}.

(** ToolReconciler.validateSpec: the error, if any. *)
Definition validateSpec (t : Tool) : option string :=
  if String.eqb (Image (Spec t)) "" then Some "spec.image is required" else None.

Record Outcome := { stored : Tool; err : option string }.

Definition with_status (t : Tool) (s : ToolStatus) : Tool :=
  {| Name := Name t; Namespace := Namespace t; Generation := Generation t;
     Spec := Spec t; Status_ := s |}.

(** ToolReconciler.Reconcile, from the point where the Tool has been
    fetched; [status_update_err] is the outcome of Status().Update. *)
Definition Reconcile (status_update_err : option string) (tool : Tool) : Outcome :=
  let s := Status_ tool in
  match validateSpec tool with
  | Some e =>
      let s1 :=
        {| Ready := false; ObservedGeneration_ := ObservedGeneration_ s;
           AvailableTools := AvailableTools s;
           Conditions :=
             SetStatusCondition (Conditions s)
               {| Type_ := "Ready"; Status := ConditionFalse;
                  ObservedGeneration := Generation tool;
                  Reason := "ValidationFailed"; Message := e |} |} in
      match status_update_err with
      | Some ue => {| stored := tool; err := Some ue |}
      | None => {| stored := with_status tool s1; err := None |}
      end
  | None =>
      let s1 :=
        {| Ready := true; ObservedGeneration_ := Generation tool;
           AvailableTools := Tools (Spec tool);
           Conditions :=
             SetStatusCondition (Conditions s)
               {| Type_ := "Ready"; Status := ConditionTrue;
                  ObservedGeneration := Generation tool;
                  Reason := "Validated"; Message := "Tool is valid and ready" |} |} in
      match status_update_err with
      | Some ue => {| stored := tool; err := Some ue |}
      | None => {| stored := with_status tool s1; err := None |}
      end
  end.

End ToolController.

(** ** Label values: operator/internal/render/deployment.go *)

Module Render.
Local Open Scope nat_scope.

Definition isAlphanumeric (c : ascii) : bool :=
  let n := nat_of_ascii c in
  ((97 <=? n) && (n <=? 122)) || ((65 <=? n) && (n <=? 90)) || ((48 <=? n) && (n <=? 57)).

(** The test of the first loop of sanitizeLabelValue: a letter, a digit,
    '-', '_' or '.'. *)
Definition is_label_byte (c : ascii) : bool :=
  let n := nat_of_ascii c in
  ((97 <=? n) && (n <=? 122)) || ((65 <=? n) && (n <=? 90)) || ((48 <=? n) && (n <=? 57))
  || (n =? 45) || (n =? 95) || (n =? 46).

Definition underscore : ascii := ascii_of_nat 95.

(** for len(result) > 0 && !isAlphanumeric(result[0]) { result = result[1:] } *)
Fixpoint trim_front (result : list ascii) : list ascii :=
  match result with
  | [] => []
  | c :: rest => if negb (isAlphanumeric c) then trim_front rest else result
  end.

(** for len(result) > 0 && !isAlphanumeric(result[len(result)-1]) {
      result = result[:len(result)-1] } *)
Definition trim_back (result : list ascii) : list ascii :=
  rev (trim_front (rev result)).

Definition sanitizeLabelValue (s : string) : string :=
  let result :=
    map (fun c => if is_label_byte c then c else underscore) (list_ascii_of_string s) in
  let result := if 63 <? length result then firstn 63 result else result in
  let result := trim_front result in
  let result := trim_back result in
  if length result =? 0 then "unknown" else string_of_list_ascii result.

(** serviceAccountName, on the two strings it reads *)
Definition serviceAccountName (specServiceAccountName agentName : string) : string :=
  if negb (String.eqb specServiceAccountName "") then specServiceAccountName else agentName.

(** A label value as Kubernetes admits it, the empty value apart: at most
    63 bytes, only letters, digits, '-', '_' and '.', a letter or digit
    first and last. *)
Definition valid_label_value (s : string) : Prop :=
  let l := list_ascii_of_string s in
  0 < length l /\ length l <= 63
  /\ Forall (fun c => is_label_byte c = true) l
  /\ (exists c rest, l = c :: rest /\ isAlphanumeric c = true)
  /\ (exists c front, l = front ++ [c] /\ isAlphanumeric c = true).

End Render.

(** ** MCP endpoint helpers: gateway/internal/mcp/handler.go *)

Module Mcp.
Import GoStrings.

(** truncate; [None]: the slice expression s[:maxLen] panics *)
Definition truncate (s : string) (maxLen : Z) : option string :=
  if Z.of_nat (String.length s) <=? maxLen then Some s
  else if maxLen <? 0 then None
  else Some (String.substring 0 (Z.to_nat maxLen) s +:+ "...").

Definition extractDescription (prompt : string) : string :=
  let prompt := TrimSpace prompt in
  if (String.length prompt =? 0)%nat then "AI agent"
  else
    let first_sentence :=
      match Index prompt "." with
      | Some idx =>
          if ((0 <? idx) && (idx <? 200))%nat
          then Some (String.substring 0 (idx + 1) prompt) else None
      | None => None
      end in
    match first_sentence with
    | Some d => d
    | None =>
        if (200 <? String.length prompt)%nat
        then String.substring 0 197 prompt +:+ "..."
        else prompt
    end.

(** The gateway's view of an Agent (gateway/internal/k8s/types.go). *)
Record AgentTool := {
  ToolName : string;
  ToolDescription : string;
  InputSchema : option Forward.JSON   (* map[string]interface{}, nil as None *)
}.

Record Agent := {
  Name : string;
  Namespace : string;
  Prompt : string;
  SpecTools : list AgentTool;
  Ready : bool;
  Endpoint : string;
  AvailableTools : list AgentTool
}.

Record Tool := {
  McpName : string;
  McpDescription : string;
  McpInputSchema : Forward.JSON
}.

Definition defaultInputSchema : Forward.JSON :=
  Forward.JObject
    (<["type" := Forward.JString "object"]>
     (<["properties" :=
          Forward.JObject
            (<["query" :=
                 Forward.JObject
                   (<["type" := Forward.JString "string"]>
                    (<["description" :=
                         Forward.JString "The query or task for the agent"]> ∅))]> ∅)]>
      (<["required" := Forward.JArray [Forward.JString "query"]]> ∅))).

(** fmt.Sprintf("%s_%s", agent.Name, t.Name) *)
Definition tool_name (agent tool : string) : string := agent +:+ "_" +:+ tool.

(** The body of the loop of buildToolsList for one ready agent. *)
Definition agent_tools (agent : Agent) : list Tool :=
  let agentTools :=
    if (length (AvailableTools agent) =? 0)%nat then SpecTools agent
    else AvailableTools agent in
  if (0 <? length agentTools)%nat then
    map (fun t =>
           {| McpName := tool_name (Name agent) (ToolName t);
              McpDescription := ToolDescription t;
              McpInputSchema := default defaultInputSchema (InputSchema t) |})
      agentTools
  else
    [{| McpName := Name agent;
        McpDescription := extractDescription (Prompt agent);
        McpInputSchema := defaultInputSchema |}].

(** Handler.buildToolsList, for the agents that ListReady returns. *)
Definition buildToolsList (ready : list Agent) : list Tool :=
  flat_map agent_tools ready.

(** The first step of handleCallTool and of handleCallToolHTTP: the agent
    name and the tool name of a tool called by [name]. *)
Definition split_tool_name (name : string) : string * string :=
  match Index name "_" with
  | Some idx =>
      if (0 <? idx)%nat
      then (String.substring 0 idx name, drop_bytes (idx + 1) name)
      else (name, "")
  | None => (name, "")
  end.

End Mcp.

(** ** Task reconciler: what one reconciliation keeps of the status *)

Module TaskSteps.
Import Task.

Definition terminal (p : TaskPhase) : bool :=
  phase_eqb p TaskPhaseCompleted || phase_eqb p TaskPhaseFailed.

(** The list of recent iterations stays within ten entries, and a status
    that enters a terminal phase carries the time of the reconciliation as
    its completion time. *)
Definition step_ok (env : Env) (old s : TaskStatus) : Prop :=
  ((length (RecentIterations old) <= 10)%nat -> (length (RecentIterations s) <= 10)%nat)
  /\ (terminal (Phase old) = false -> terminal (Phase s) = true ->
      CompletedAt s = Some (now env)).

(** An outcome either leaves the status as it was or stores, without
    error, a status that is a good step from the old one. *)
Definition keeps_or_steps (env : Env) (old : Task) (o : Outcome) : Prop :=
  Status_ (stored o) = Status_ old
  \/ (err o = None /\ step_ok env (Status_ old) (Status_ (stored o))).

End TaskSteps.

(** * Properties *)

(** ** Fixed-width integers *)

Section GoIntFacts.
Import GoInt.

Lemma wrap32_id z : int32 z -> wrap32 z = z.
Proof.
  unfold int32, wrap32, wrap. intros H.
  rewrite Z.mod_small; lia.
Qed.

Lemma wrap32_range z : int32 (wrap32 z).
Proof.
  unfold int32, wrap32, wrap.
  pose proof (Z.mod_pos_bound (z + 2 ^ (32 - 1)) (2 ^ 32) ltac:(lia)).
  lia.
Qed.

End GoIntFacts.

(** ** Admission controller *)

Section CircuitFacts.
Import GoInt Circuit.

Lemma Acquire_lock_capacity b :
  well_formed b -> active b < maxConcurrent b ->
  Acquire_lock b = (set_counters b (active b + 1) (waiting b), Granted).
Proof.
  intros (Hmc & _ & Ha & _) Hlt. unfold Acquire_lock.
  destruct (Z.ltb_spec (active b) (maxConcurrent b)); [|lia].
  rewrite wrap32_id; [reflexivity|]. unfold int32 in *. lia.
Qed.

Lemma Acquire_lock_queue_full b :
  maxConcurrent b <= active b -> maxQueue b <= waiting b ->
  Acquire_lock b = (b, Rejected ErrQueueFull).
Proof.
  intros Hge Hq. unfold Acquire_lock.
  destruct (Z.ltb_spec (active b) (maxConcurrent b)); [lia|].
  destruct (Z.geb_spec (waiting b) (maxQueue b)); [reflexivity|lia].
Qed.

(** C7. Acquire on a pool with a free slot returns OK and leaves [active]
    one higher, with [waiting], the wake channel and the limits as they
    were; on a pool at capacity whose queue is full it returns
    ErrQueueFull and leaves the pool, both counters included, as it
    was. *)
Theorem Acquire_admits_or_rejects_queue_full (b : Breaker) (env : wait_env) (rnd : nat) :
  well_formed b ->
  (active b < maxConcurrent b ->
     exists b', Acquire b env rnd = Some (b', None)
                /\ active b' = active b + 1 /\ waiting b' = waiting b
                /\ waitChan b' = waitChan b /\ waitCap b' = waitCap b
                /\ maxConcurrent b' = maxConcurrent b /\ maxQueue b' = maxQueue b)
  /\ (maxConcurrent b <= active b -> maxQueue b <= waiting b ->
        Acquire b env rnd = Some (b, Some ErrQueueFull)).
Proof.
  intros Hwf. split.
  - intros Hlt. unfold Acquire. rewrite Acquire_lock_capacity by assumption.
    eexists. split; [reflexivity|]. cbn. auto 10.
  - intros Hge Hq. unfold Acquire. now rewrite Acquire_lock_queue_full.
Qed.

Lemma Acquire_admits_or_rejects_queue_full_witness :
  (exists b', Acquire Samples.idle_breaker Samples.all_ready 0 = Some (b', None)
              /\ active b' = 1 /\ waiting b' = 0
              /\ waitChan b' = 0%nat /\ waitCap b' = 2
              /\ maxConcurrent b' = 1 /\ maxQueue b' = 1)
  /\ Acquire Samples.full_breaker Samples.all_ready 0
     = Some (Samples.full_breaker, Some ErrQueueFull).
Proof.
  split.
  - apply (Acquire_admits_or_rejects_queue_full Samples.idle_breaker Samples.all_ready 0).
    + unfold well_formed, int32; simpl; lia.
    + simpl; lia.
  - apply (Acquire_admits_or_rejects_queue_full Samples.full_breaker Samples.all_ready 0).
    + unfold well_formed, int32; simpl; lia.
    + simpl; lia.
    + simpl; lia.
Defined.

Lemma select_In ready rnd c : select ready rnd = Some c -> In c ready.
Proof.
  unfold select. destruct ready as [|c0 rest]; [discriminate|].
  apply nth_error_In.
Qed.



Lemma ready_cases_In env b c :
  In c (ready_cases env b) <->
  match c with
  | CaseCtxDone => ctx_done env <> None
  | CaseTimer => timer_fired env = true
  | CaseWake => (0 < waitChan b)%nat
  end.
Proof.
  unfold ready_cases.
  destruct (ctx_done env) as [e|], (timer_fired env), (Nat.ltb_spec 0 (waitChan b));
    destruct c; simpl; split; intros Hc;
    repeat match goal with
           | H : _ \/ _ |- _ => destruct H
           | H : False |- _ => destruct H
           end;
    try discriminate; try congruence; try lia; auto.
Qed.




End CircuitFacts.

(** ** Agent reconciler *)

Section AgentFacts.
Import Agent.

Lemma AgentEndpoint_nonempty a : AgentEndpoint a <> "".
Proof.
  unfold AgentEndpoint. destruct (Name a); discriminate.
Qed.

Lemma checkDeploymentReady_spec env a :
  fst (checkDeploymentReady env a) = true <->
  exists d, get_deployment env = Some d
            /\ default 1 (Replicas (Spec a)) <= ReadyReplicas d /\ 0 < ReadyReplicas d.
Proof.
  unfold checkDeploymentReady. destruct (get_deployment env) as [d|]; simpl.
  - rewrite andb_true_iff, Z.geb_le, Z.gtb_lt. split.
    + intros [H1 H2]. exists d. destruct (Replicas (Spec a)); simpl in *; auto.
    + intros (d' & [= <-] & H1 & H2). destruct (Replicas (Spec a)); simpl in *; auto.
  - split; [discriminate|]. intros (d & Hd & _). discriminate.
Qed.

(** C1 (as amended). After every successful reconciliation of an Agent the
    status endpoint is the service address
    <name>.<namespace>.svc.cluster.local:8080, which is never empty,
    whether or not the Agent is ready; the Agent is ready exactly when its
    deployment exists and has at least the desired number of ready
    replicas and at least one.  So ready implies a non-empty endpoint. *)
Theorem Reconcile_success_endpoint (env : Env) (a : Agent) :
  err (Reconcile env a) = None ->
  let st := AgentStatus_ (stored (Reconcile env a)) in
  Endpoint st = Name a +:+ "." +:+ Namespace a +:+ ".svc.cluster.local:8080"
  /\ Endpoint st <> ""
  /\ (Ready st = true <->
      exists d, get_deployment env = Some d
                /\ default 1 (Replicas (Spec a)) <= ReadyReplicas d /\ 0 < ReadyReplicas d)
  /\ (Ready st = true -> Endpoint st <> "").
Proof.
  unfold Reconcile.
  destruct (resolveToolPackages env a) as [e|pkgs].
  { destruct (status_update_err env); discriminate. }
  destruct (service_account_err env); [discriminate|].
  destruct (config_map env) as [e|h]; [discriminate|].
  destruct (deployment_err env); [discriminate|].
  destruct (service_err env); [discriminate|].
  pose proof (checkDeploymentReady_spec env a) as Hready.
  destruct (checkDeploymentReady env a) as [ready replicas]. simpl in Hready.
  destruct (status_update_err env); [discriminate|].
  intros _. simpl.
  pose proof (AgentEndpoint_nonempty a) as Hne. unfold AgentEndpoint in Hne.
  repeat split; auto; apply Hready.
Qed.

Lemma Reconcile_success_endpoint_witness :
  Endpoint (AgentStatus_ (stored (Reconcile (sample_env 1) sample_agent)))
    = "alpha.ns.svc.cluster.local:8080"
  /\ Ready (AgentStatus_ (stored (Reconcile (sample_env 1) sample_agent))) = true.
Proof.
  pose proof (Reconcile_success_endpoint (sample_env 1) sample_agent eq_refl)
    as (Hendpoint & _ & Hready & _).
  split.
  - exact Hendpoint.
  - apply Hready. exists {| ReadyReplicas := 1 |}. simpl. repeat split; lia.
Defined.

(** C1 as stated fails: while the deployment has no ready replica the
    reconciliation succeeds, the Agent is not ready, and the endpoint is
    already set. *)
Lemma Reconcile_endpoint_iff_ready_counterexample :
  err (Reconcile (sample_env 0) sample_agent) = None
  /\ Ready (AgentStatus_ (stored (Reconcile (sample_env 0) sample_agent))) = false
  /\ Endpoint (AgentStatus_ (stored (Reconcile (sample_env 0) sample_agent)))
     = "alpha.ns.svc.cluster.local:8080"
  /\ ~ (forall env a,
          err (Reconcile env a) = None ->
          (Endpoint (AgentStatus_ (stored (Reconcile env a))) <> ""
           <-> Ready (AgentStatus_ (stored (Reconcile env a))) = true)).
Proof.
  split; [reflexivity|]. split; [reflexivity|]. split; [reflexivity|].
  intros H. specialize (H (sample_env 0) sample_agent eq_refl).
  destruct H as [H _]. discriminate H. discriminate.
Qed.

End AgentFacts.

(** ** Task controller *)

Section TaskFacts.
Import Meta GoStrings Task.

Lemma update_status_phase env t s res :
  status_update_err env = None ->
  Phase (Status_ (stored (update_status env t s res))) = Phase s.
Proof. unfold update_status. now intros ->. Qed.

(** A Completed or Failed Task that is not paused and not being deleted is
    left as it is. *)
Lemma Reconcile_terminal_unpaused lib env t :
  DeletionTimestamp t = None ->
  ContainsFinalizer t taskFinalizer = true ->
  Phase (Status_ t) = TaskPhaseCompleted \/ Phase (Status_ t) = TaskPhaseFailed ->
  Paused (Spec t) = false ->
  Reconcile lib env t = {| stored := t; result := no_requeue; err := None |}.
Proof.
  intros Hdel Hfin Hphase Hpaused. unfold Reconcile.
  rewrite Hdel, Hfin, Hpaused. destruct Hphase as [-> | ->]; reflexivity.
Qed.

(** A Task in any phase but Paused whose spec says paused moves to Paused,
    the terminal phases included: the pause check comes first. *)
Lemma Reconcile_paused_first lib env t :
  DeletionTimestamp t = None ->
  ContainsFinalizer t taskFinalizer = true ->
  Phase (Status_ t) <> PhaseUnset ->
  Paused (Spec t) = true ->
  status_update_err env = None ->
  Phase (Status_ (stored (Reconcile lib env t))) = TaskPhasePaused.
Proof.
  intros Hdel Hfin Hphase Hpaused Hupd. unfold Reconcile.
  rewrite Hdel, Hfin, Hpaused. simpl.
  destruct (Phase (Status_ t)) eqn:Hp; try congruence; simpl;
    try (rewrite update_status_phase by assumption; reflexivity).
  exact Hp.
Qed.

(** C2. The code at the failing input: a Completed Task whose spec is
    switched to paused is moved to Paused by the next reconciliation, and
    to Running by the one after the pause is lifted; only while the spec
    is not paused does Completed stay Completed. *)
Theorem Reconcile_completed_then_paused :
  let lib := Samples.task_lib in
  let env := Samples.task_env Samples.log_no_marker in
  let t0 := Samples.completed_task false in
  let t1 := stored (Reconcile lib env (Samples.completed_task true)) in
  let t2 := stored (Reconcile lib env (with_paused t1 false)) in
  Phase (Status_ t0) = TaskPhaseCompleted
  /\ stored (Reconcile lib env t0) = t0
  /\ Phase (Status_ t1) = TaskPhasePaused
  /\ Phase (Status_ t2) = TaskPhaseRunning.
Proof. vm_compute. repeat split. Qed.











End TaskFacts.

(** ** Gateway route table *)

Section RoutesFacts.
Import Compiled Routes.

Lemma filter_nil_existsb {A} (f : A -> bool) (l : list A) :
  List.filter f l = [] <-> existsb f l = false.
Proof.
  induction l as [|x l IH]; simpl; [tauto|].
  destruct (f x); simpl; [|exact IH].
  split; discriminate.
Qed.

Lemma compile_rules_ok lib rules acc out :
  compile_rules lib rules acc = inr out -> out = acc ++ map compile_one rules.
Proof.
  revert acc. induction rules as [|r rest IH]; intros acc; simpl.
  - intros [= <-]. now rewrite app_nil_r.
  - unfold compile_one at 1.
    destruct (String.eqb (IntentRegex (Match r)) ""); simpl.
    + intros H. apply IH in H. now rewrite <- app_assoc in H.
    + destruct (regexp_Compile_err lib (IntentRegex (Match r))); [discriminate|].
      intros H. apply IH in H. now rewrite <- app_assoc in H.
Qed.

Lemma compile_rules_invalid lib rules acc r :
  In r rules -> IntentRegex (Match r) <> "" ->
  regexp_Compile_err lib (IntentRegex (Match r)) <> None ->
  exists e, compile_rules lib rules acc = inl e.
Proof.
  intros Hin Hne Hbad. revert acc.
  induction rules as [|r0 rest IH]; intros acc; [destruct Hin|].
  simpl. destruct Hin as [-> | Hin].
  - destruct (String.eqb_spec (IntentRegex (Match r)) ""); [contradiction|]. simpl.
    destruct (regexp_Compile_err lib (IntentRegex (Match r))) as [e|]; [eauto|congruence].
  - destruct (String.eqb (IntentRegex (Match r0)) ""); simpl; [now apply IH|].
    destruct (regexp_Compile_err lib (IntentRegex (Match r0))) as [e|]; [eauto|now apply IH].
Qed.

Lemma ruleMatches_criteria lib cr req : ruleMatches lib cr req = criteria_hold lib cr req.
Proof.
  unfold ruleMatches, criteria_hold.
  destruct (String.eqb (Agent (Match (rule cr))) ""),
           (String.eqb (Agent (Match (rule cr))) (ReqAgent req)),
           (intentRegex cr) as [re|];
    simpl; try reflexivity;
    try destruct (regexp_MatchString lib re (ReqIntent req)); simpl; try reflexivity;
    destruct (String.eqb (TenantID (Match (rule cr))) ""),
             (String.eqb (TenantID (Match (rule cr))) (ReqTenantID req));
    reflexivity.
Qed.

Lemma match_agent_loop_find rules req :
  match_agent_loop rules req
  = option_map use_rule
      (find (fun cr => String.eqb (Agent (Match (rule cr))) (ReqAgent req)
                       && has_ready_backend cr) rules).
Proof.
  induction rules as [|cr rest IH]; simpl; [reflexivity|].
  destruct (String.eqb (Agent (Match (rule cr))) (ReqAgent req)); simpl; [|exact IH].
  unfold has_ready_backend, filterReadyBackends.
  destruct (List.filter (fun b => Ready b) (Backends (rule cr))) as [|b bs] eqn:Hf.
  - apply filter_nil_existsb in Hf. rewrite Hf. exact IH.
  - destruct (existsb (fun b => Ready b) (Backends (rule cr))) eqn:He.
    + simpl. unfold use_rule, ready_backends. now rewrite Hf.
    + apply filter_nil_existsb in He. congruence.
Qed.

Lemma match_rules_loop_find lib rules req :
  match_rules_loop lib rules req
  = option_map use_rule
      (find (fun cr => criteria_hold lib cr req && has_ready_backend cr) rules).
Proof.
  induction rules as [|cr rest IH]; simpl; [reflexivity|].
  rewrite ruleMatches_criteria.
  destruct (criteria_hold lib cr req); simpl; [|exact IH].
  unfold has_ready_backend, filterReadyBackends.
  destruct (List.filter (fun b => Ready b) (Backends (rule cr))) as [|b bs] eqn:Hf.
  - apply filter_nil_existsb in Hf. rewrite Hf. exact IH.
  - destruct (existsb (fun b => Ready b) (Backends (rule cr))) eqn:He.
    + simpl. unfold use_rule, ready_backends. now rewrite Hf.
    + apply filter_nil_existsb in He. congruence.
Qed.

Lemma use_rule_backends_nonempty (f : compiledRule -> bool) rules cr :
  (forall c, f c = true -> has_ready_backend c = true) ->
  find f rules = Some cr -> ResultBackends (use_rule cr) <> [].
Proof.
  intros Hf Hfind. apply find_some in Hfind as [_ Hcr]. apply Hf in Hcr.
  unfold use_rule, ready_backends. simpl. intros Hnil.
  apply filter_nil_existsb in Hnil. unfold has_ready_backend in Hcr. congruence.
Qed.

Lemma LoadFromJSON_ok lib t0 data t :
  LoadFromJSON lib t0 data = (t, None) ->
  exists cfg, json_Unmarshal lib data = inr cfg
              /\ config t = Some cfg /\ compiled t = map compile_one (Rules cfg).
Proof.
  unfold LoadFromJSON.
  destruct (json_Unmarshal lib data) as [e|cfg]; [discriminate|].
  destruct (compile_rules lib (Rules cfg) []) as [e|out] eqn:Hc; [discriminate|].
  intros [= <-]. apply compile_rules_ok in Hc. simpl in Hc. subst out.
  exists cfg. auto.
Qed.

(** C5. On a table that was loaded, the routing decision of the gateway is
    the four-step procedure: the stored rules are the blob's rules in their
    stored order; a non-empty request.agent selects the first rule whose
    match.agent equals it and which has a ready backend; otherwise the first
    rule whose non-empty criteria all hold and which has a ready backend
    wins; otherwise the ready default backend under the name _default;
    otherwise the request is rejected, with 400 when rejectUnmatched is set
    and 404 when it is not. *)
Theorem route_request_follows_match_procedure
    (lib : Lib) (t0 t : Table) (data : string) (req : MatchRequest) :
  LoadFromJSON lib t0 data = (t, None) ->
  exists cfg,
    config t = Some cfg
    /\ map rule (compiled t) = Rules cfg
    /\ route_request lib t req = spec_decision lib cfg (compiled t) req.
Proof.
  intros Hload. destruct (LoadFromJSON_ok _ _ _ _ Hload) as (cfg & _ & Hcfg & Hcomp).
  exists cfg. split; [exact Hcfg|]. split.
  { rewrite Hcomp, map_map. simpl. apply map_id. }
  assert (Hrouted : forall (f : compiledRule -> bool) cr no,
             (forall c, f c = true -> has_ready_backend c = true) ->
             find f (compiled t) = Some cr ->
             match ResultBackends (use_rule cr) with
             | [] => no
             | _ => Routed (use_rule cr)
             end = Routed (use_rule cr)).
  { intros f cr no Hf Hfind.
    pose proof (use_rule_backends_nonempty f _ _ Hf Hfind) as Hne.
    destruct (ResultBackends (use_rule cr)); [contradiction|reflexivity]. }
  assert (Hand : forall (g : compiledRule -> bool) c,
             g c && has_ready_backend c = true -> has_ready_backend c = true).
  { intros g c Hc. now apply andb_true_iff in Hc. }
  assert (Hdefault :
            match match_default cfg with
            | Some m =>
                match ResultBackends m with
                | [] =>
                    match Defaults cfg with
                    | Some d =>
                        if RejectUnmatched d
                        then Reject StatusBadRequest "no matching route found"
                        else Reject StatusNotFound "no available agent for this request"
                    | None => Reject StatusNotFound "no available agent for this request"
                    end
                | _ => Routed m
                end
            | None =>
                match Defaults cfg with
                | Some d =>
                    if RejectUnmatched d
                    then Reject StatusBadRequest "no matching route found"
                    else Reject StatusNotFound "no available agent for this request"
                | None => Reject StatusNotFound "no available agent for this request"
                end
            end
            = match Defaults cfg with
              | Some d =>
                  match Backend d with
                  | Some b =>
                      if Ready b
                      then Routed {| RuleName := "_default"; ResultBackends := [b] |}
                      else if RejectUnmatched d
                           then Reject StatusBadRequest "no matching route found"
                           else Reject StatusNotFound "no available agent for this request"
                  | None =>
                      if RejectUnmatched d
                      then Reject StatusBadRequest "no matching route found"
                      else Reject StatusNotFound "no available agent for this request"
                  end
              | None => Reject StatusNotFound "no available agent for this request"
              end).
  { unfold match_default.
    destruct (Defaults cfg) as [d|]; [|reflexivity].
    destruct (Backend d) as [b|]; [|reflexivity].
    destruct (Ready b); reflexivity. }
  unfold route_request, Match_, GetDefaults, spec_decision. rewrite Hcfg.
  rewrite match_agent_loop_find, match_rules_loop_find.
  set (by_agent := fun cr => String.eqb (Agent (Match (rule cr))) (ReqAgent req)
                            && has_ready_backend cr).
  set (by_criteria := fun cr => criteria_hold lib cr req && has_ready_backend cr).
  destruct (String.eqb (ReqAgent req) "") eqn:Hagent; cbn [negb].
  - destruct (find by_criteria (compiled t)) as [cr|] eqn:Hfind; cbn [option_map].
    + apply (Hrouted _ _ _ (Hand _) Hfind).
    + exact Hdefault.
  - destruct (find by_agent (compiled t)) as [cr|] eqn:Hfind1; cbn [option_map].
    + apply (Hrouted _ _ _ (Hand _) Hfind1).
    + destruct (find by_criteria (compiled t)) as [cr|] eqn:Hfind; cbn [option_map].
      * apply (Hrouted _ _ _ (Hand _) Hfind).
      * exact Hdefault.
Qed.

Lemma route_request_follows_match_procedure_witness :
  route_request Samples.routes_lib Samples.loaded_table (Samples.request "" "cost report")
  = Routed {| RuleName := "by-intent"; ResultBackends := [Samples.backend "gamma" true] |}
  /\ route_request Samples.routes_lib Samples.loaded_table (Samples.request "zeta" "docs")
    = Reject 400 "no matching route found".
Proof.
  split.
  - destruct (route_request_follows_match_procedure Samples.routes_lib NewTable
                Samples.loaded_table (Samples.table_json "cost")
                (Samples.request "" "cost report") eq_refl) as (cfg & Hcfg & _ & Hdec).
    rewrite Hdec. injection Hcfg as <-. vm_compute. reflexivity.
  - destruct (route_request_follows_match_procedure Samples.routes_lib NewTable
                Samples.loaded_table (Samples.table_json "cost")
                (Samples.request "zeta" "docs") eq_refl) as (cfg & Hcfg & _ & Hdec).
    rewrite Hdec. injection Hcfg as <-. vm_compute. reflexivity.
Defined.

(** C10. A load whose bytes do not decode, or one of whose rules has a
    pattern that does not compile, returns an error and leaves the table as
    it was, so every later match and routing decision is the one the old
    table gives. *)
Theorem LoadFromJSON_failure_keeps_table (lib : Lib) (t : Table) (data : string) :
  (exists e, json_Unmarshal lib data = inl e)
  \/ (exists cfg r, json_Unmarshal lib data = inr cfg /\ In r (Rules cfg)
                    /\ IntentRegex (Match r) <> ""
                    /\ regexp_Compile_err lib (IntentRegex (Match r)) <> None) ->
  (exists e, LoadFromJSON lib t data = (t, Some e))
  /\ config (fst (LoadFromJSON lib t data)) = config t
  /\ compiled (fst (LoadFromJSON lib t data)) = compiled t
  /\ forall req,
       Match_ lib (fst (LoadFromJSON lib t data)) req = Match_ lib t req
       /\ route_request lib (fst (LoadFromJSON lib t data)) req = route_request lib t req.
Proof.
  intros Hfail.
  assert (Herr : exists e, LoadFromJSON lib t data = (t, Some e)).
  { unfold LoadFromJSON. destruct Hfail as [[e He] | (cfg & r & Hcfg & Hin & Hne & Hbad)].
    - rewrite He. eauto.
    - rewrite Hcfg.
      destruct (compile_rules_invalid lib (Rules cfg) [] r Hin Hne Hbad) as [e He].
      rewrite He. eauto. }
  destruct Herr as [e He]. rewrite He. simpl. eauto 10.
Qed.

Lemma LoadFromJSON_failure_keeps_table_witness :
  LoadFromJSON Samples.routes_lib Samples.loaded_table (Samples.table_json "(")
  = (Samples.loaded_table, Some "error parsing regexp: missing closing )")
  /\ LoadFromJSON Samples.routes_lib Samples.loaded_table "not json"
    = (Samples.loaded_table, Some "invalid character").
Proof.
  split.
  - destruct (LoadFromJSON_failure_keeps_table Samples.routes_lib Samples.loaded_table
                (Samples.table_json "(")) as ([e He] & _).
    + right. exists (Samples.table_config "("), (nth 1 (Rules (Samples.table_config "("))
                                                   (nth 0 (Rules (Samples.table_config "(")) 
                                                      {| Name := ""; Priority := 0;
                                                         Match := {| Agent := ""; IntentRegex := "";
                                                                     TenantID := ""; Headers := ∅ |};
                                                         Backends := [] |})).
      repeat split; try (vm_compute; reflexivity); try (simpl; discriminate).
      simpl. right. left. reflexivity.
    + rewrite He. f_equal. vm_compute in He. now injection He as <-.
  - destruct (LoadFromJSON_failure_keeps_table Samples.routes_lib Samples.loaded_table
                "not json") as ([e He] & _).
    + left. exists "invalid character". vm_compute. reflexivity.
    + rewrite He. f_equal. vm_compute in He. now injection He as <-.
Defined.

End RoutesFacts.

(** ** sort.Slice: the result is a permutation of the input *)

Section GoSortPermutation.
Import GoSort.
Context {A : Type} (less : A -> A -> bool).
Local Open Scope nat_scope.

Lemma Swap_perm (l : list A) i j : Swap l i j ≡ₚ l.
Proof.
  unfold Swap. destruct (l !! i) as [x|] eqn:Hi; [|reflexivity].
  destruct (l !! j) as [y|] eqn:Hj; [|reflexivity].
  now apply Permutation_insert_swap.
Qed.

Lemma fold_left_perm {B} (f : list A -> B -> list A) (bs : list B) (l : list A) :
  (forall l b, f l b ≡ₚ l) -> fold_left f bs l ≡ₚ l.
Proof.
  intros Hf. revert l. induction bs as [|b bs IH]; intros l; simpl; [reflexivity|].
  now rewrite IH.
Qed.

Lemma insert_down_perm a j (l : list A) : insert_down less a j l ≡ₚ l.
Proof.
  revert l. induction j as [|j IH]; intros l; cbn [insert_down]; [reflexivity|].
  destruct (_ && _); [|reflexivity]. now rewrite IH, Swap_perm.
Qed.

Lemma insertionSort_perm (l : list A) a b : insertionSort_func less l a b ≡ₚ l.
Proof. apply fold_left_perm. intros. apply insert_down_perm. Qed.

Lemma siftDown_loop_perm fuel (l : list A) root hi first :
  siftDown_loop less fuel l root hi first ≡ₚ l.
Proof.
  revert l root. induction fuel as [|fuel IH]; intros l root; cbn [siftDown_loop]; [reflexivity|].
  destruct (hi <=? _); [reflexivity|].
  destruct (negb _); [reflexivity|]. now rewrite IH, Swap_perm.
Qed.

Lemma heapSort_perm (l : list A) a b : heapSort_func less l a b ≡ₚ l.
Proof.
  unfold heapSort_func.
  rewrite fold_left_perm.
  - apply fold_left_perm. intros. apply siftDown_loop_perm.
  - intros. unfold siftDown_func. now rewrite siftDown_loop_perm, Swap_perm.
Qed.

Lemma partition_loop_perm fuel (l : list A) a i j :
  fst (partition_loop less fuel l a i j) ≡ₚ l.
Proof.
  revert l i j. induction fuel as [|fuel IH]; intros l i j; cbn [partition_loop fst]; [reflexivity|].
  destruct (_ <? _); [reflexivity|]. now rewrite IH, Swap_perm.
Qed.

Lemma partition_func_perm (l : list A) a b pivot :
  fst (fst (partition_func less l a b pivot)) ≡ₚ l.
Proof.
  unfold partition_func.
  destruct (_ <? _); simpl; [now rewrite !Swap_perm|].
  match goal with
  | |- context [partition_loop less ?f ?l0 ?a0 ?i0 ?j0] =>
      pose proof (partition_loop_perm f l0 a0 i0 j0) as Hp;
      destruct (partition_loop less f l0 a0 i0 j0) as [l1 j1]
  end.
  simpl in *. now rewrite Swap_perm, Hp, !Swap_perm.
Qed.

Lemma partitionEqual_loop_perm fuel (l : list A) a i j :
  fst (partitionEqual_loop less fuel l a i j) ≡ₚ l.
Proof.
  revert l i j. induction fuel as [|fuel IH]; intros l i j; cbn [partitionEqual_loop fst]; [reflexivity|].
  destruct (_ <? _); [reflexivity|]. now rewrite IH, Swap_perm.
Qed.

Lemma partitionEqual_func_perm (l : list A) a b pivot :
  fst (partitionEqual_func less l a b pivot) ≡ₚ l.
Proof.
  unfold partitionEqual_func. now rewrite partitionEqual_loop_perm, Swap_perm.
Qed.

Lemma shift_left_perm j (l : list A) : shift_left less j l ≡ₚ l.
Proof.
  revert l. induction j as [|j IH]; intros l; cbn [shift_left]; [reflexivity|].
  destruct (negb _); [reflexivity|]. now rewrite IH, Swap_perm.
Qed.

Lemma shift_right_perm fuel (l : list A) j b : shift_right less fuel l j b ≡ₚ l.
Proof.
  revert l j. induction fuel as [|fuel IH]; intros l j; cbn [shift_right]; [reflexivity|].
  destruct (j <? b); [|reflexivity].
  destruct (negb _); [reflexivity|]. now rewrite IH, Swap_perm.
Qed.

Lemma partialInsertionSort_loop_perm steps (l : list A) a b i :
  fst (partialInsertionSort_loop less steps l a b i) ≡ₚ l.
Proof.
  revert l i. induction steps as [|steps IH]; intros l i; cbn [partialInsertionSort_loop fst]; [reflexivity|].
  destruct (_ =? b); [reflexivity|].
  destruct (b - a <? shortestShifting); [reflexivity|].
  rewrite IH.
  destruct (2 <=? b - _); destruct (2 <=? _ - a);
    now rewrite ?shift_right_perm, ?shift_left_perm, Swap_perm.
Qed.

Lemma breakPatterns_loop_perm n (l : list A) a len idx i random :
  breakPatterns_loop n l a len idx i random ≡ₚ l.
Proof.
  revert l i random. induction n as [|n IH]; intros l i random; cbn [breakPatterns_loop]; [reflexivity|].
  now rewrite IH, Swap_perm.
Qed.

Lemma breakPatterns_perm (l : list A) a b : breakPatterns_func l a b ≡ₚ l.
Proof.
  unfold breakPatterns_func. destruct (8 <=? b - a); [|reflexivity].
  apply breakPatterns_loop_perm.
Qed.

Lemma reverseRange_loop_perm fuel (l : list A) i j : reverseRange_loop fuel l i j ≡ₚ l.
Proof.
  revert l i j. induction fuel as [|fuel IH]; intros l i j; cbn [reverseRange_loop]; [reflexivity|].
  destruct (i <? j); [|reflexivity]. now rewrite IH, Swap_perm.
Qed.

Lemma pdqsort_loop_perm fuel (l : list A) a b limit wb wp :
  pdqsort_loop less fuel l a b limit wb wp ≡ₚ l.
Proof.
  revert l a b limit wb wp.
  induction fuel as [|fuel IH]; intros l a b limit wb wp; cbn [pdqsort_loop]; [reflexivity|].
  destruct (b - a <=? maxInsertion); [apply insertionSort_perm|].
  destruct (limit =? 0); [apply heapSort_perm|].
  set (l1 := if wb then l else breakPatterns_func l a b).
  assert (H1 : l1 ≡ₚ l) by (subst l1; destruct wb; [reflexivity|apply breakPatterns_perm]).
  clearbody l1.
  destruct (choosePivot_func less l1 a b) as [pivot hint].
  set (r := if is_decreasing hint then _ else _).
  assert (H2 : fst (fst r) ≡ₚ l).
  { subst r. destruct (is_decreasing hint); simpl; [|exact H1].
    unfold reverseRange_func. now rewrite reverseRange_loop_perm. }
  destruct r as [[l2 pivot2] hint2]. simpl in H2.
  set (r := if wb && wp && is_increasing hint2 then _ else _).
  assert (H3 : fst r ≡ₚ l).
  { subst r. destruct (wb && wp && is_increasing hint2); simpl; [|exact H2].
    unfold partialInsertionSort_func. now rewrite partialInsertionSort_loop_perm. }
  destruct r as [l3 done]. simpl in H3.
  destruct done; [exact H3|].
  destruct (_ && _).
  - pose proof (partitionEqual_func_perm l3 a b pivot2) as H4.
    destruct (partitionEqual_func less l3 a b pivot2) as [l4 mid]. simpl in H4.
    now rewrite IH, H4.
  - pose proof (partition_func_perm l3 a b pivot2) as H4.
    destruct (partition_func less l3 a b pivot2) as [[l4 mid] ap]. simpl in H4.
    destruct (mid - a <? b - mid); now rewrite !IH, H4.
Qed.

Lemma Slice_perm (l : list A) : Slice less l ≡ₚ l.
Proof. apply pdqsort_loop_perm. Qed.

End GoSortPermutation.

(** ** sort.Slice on at most twelve elements: a stable insertion sort *)

Section GoSortSmall.
Import GoSort.
Context {A : Type} (key : A -> Z).
Local Open Scope nat_scope.

Let less : A -> A -> bool := fun x y => (key x >? key y)%Z.

(** Descending keys. *)
Let desc : list A -> Prop := StronglySorted (fun x y => (key y <= key x)%Z).

Lemma Swap_cons (a : A) l i j : Swap (a :: l) (S i) (S j) = a :: Swap l i j.
Proof.
  unfold Swap. simpl. destruct (l !! i); [|reflexivity]. destruct (l !! j); reflexivity.
Qed.

Lemma Swap_adjacent (l1 : list A) y x l2 :
  Swap (l1 ++ y :: x :: l2) (S (length l1)) (length l1) = l1 ++ x :: y :: l2.
Proof.
  induction l1 as [|a l1 IH]; [reflexivity|].
  simpl. rewrite Swap_cons. now rewrite IH.
Qed.

Lemma Less_adjacent (l1 : list A) y x l2 :
  Less less (l1 ++ y :: x :: l2) (S (length l1)) (length l1) = less x y.
Proof.
  unfold Less.
  replace (S (length l1)) with (length l1 + 1) by lia.
  rewrite !lookup_app_r by lia.
  replace (length l1 + 1 - length l1) with 1 by lia.
  now rewrite Nat.sub_diag.
Qed.

Lemma insert_down_app (mid pre : list A) x post :
  insert_down less (length pre) (length pre + length mid) (pre ++ mid ++ x :: post)
  = pre ++ insert_sorted less mid x ++ post.
Proof.
  revert post. induction mid as [|y mid IH] using rev_ind; intros post.
  - simpl length. rewrite Nat.add_0_r. unfold insert_sorted. simpl.
    destruct (length pre) as [|n] eqn:Hn; cbn [insert_down]; [reflexivity|].
    now rewrite Nat.ltb_irrefl.
  - rewrite length_app. simpl length.
    replace (length pre + (length mid + 1)) with (S (length pre + length mid)) by lia.
    cbn [insert_down].
    replace (length pre <? S (length pre + length mid)) with true
      by (symmetry; apply Nat.ltb_lt; lia).
    cbn [andb].
    replace (pre ++ (mid ++ [y]) ++ x :: post) with ((pre ++ mid) ++ y :: x :: post)
      by (now rewrite <- !app_assoc).
    replace (length pre + length mid) with (length (pre ++ mid)) by (now rewrite length_app).
    rewrite Less_adjacent.
    unfold insert_sorted. rewrite rev_app_distr. simpl rev. cbn [insert_rev].
    destruct (less x y).
    + rewrite Swap_adjacent. rewrite length_app.
      rewrite <- app_assoc. rewrite IH. unfold insert_sorted.
      simpl rev. now rewrite <- !app_assoc.
    + simpl rev. rewrite rev_involutive. now rewrite <- !app_assoc.
Qed.

Lemma insert_sorted_length (pre : list A) x :
  length (insert_sorted less pre x) = S (length pre).
Proof.
  unfold insert_sorted. rewrite length_rev.
  rewrite <- (length_rev pre). induction (rev pre) as [|y r IH]; simpl; [reflexivity|].
  destruct (less x y); simpl; now rewrite ?IH.
Qed.

Lemma insertion_fold (rest pre : list A) :
  fold_left (fun l i => insert_down less 0 i l) (seq (length pre) (length rest)) (pre ++ rest)
  = fold_left (insert_sorted less) rest pre ++ [].
Proof.
  revert pre. induction rest as [|x rest IH]; intros pre.
  - simpl. reflexivity.
  - cbn [length seq fold_left].
    pose proof (insert_down_app pre [] x rest) as Hins. simpl in Hins. rewrite Hins.
    pose proof (IH (insert_sorted less pre x)) as IH'.
    rewrite insert_sorted_length in IH'. exact IH'.
Qed.

Lemma insertionSort_isort (l : list A) :
  insertionSort_func less l 0 (length l) = isort less l.
Proof.
  unfold insertionSort_func, isort. destruct l as [|x l]; [reflexivity|].
  cbn [length fold_left]. replace (S (length l) - (0 + 1)) with (length l) by lia.
  pose proof (insertion_fold l [x]) as H. simpl length in H. simpl app in H at 1.
  rewrite app_nil_r in H. exact H.
Qed.

Lemma Slice_small (l : list A) : length l <= 12 -> Slice less l = isort less l.
Proof.
  intros Hlen. unfold Slice, pdqsort_func. cbn [pdqsort_loop].
  rewrite Nat.sub_0_r.
  replace (length l <=? maxInsertion) with true
    by (symmetry; apply Nat.leb_le; exact Hlen).
  apply insertionSort_isort.
Qed.

(** Where the inserted element lands. *)
Lemma insert_sorted_split (pre : list A) x :
  exists p1 p2,
    pre = p1 ++ p2
    /\ insert_sorted less pre x = p1 ++ x :: p2
    /\ Forall (fun y => (key y < key x)%Z) p2
    /\ (forall p1' y, p1 = p1' ++ [y] -> (key x <= key y)%Z).
Proof.
  induction pre as [|y pre IH] using rev_ind.
  - exists [], []. repeat split; auto. intros p1' y Hp. destruct p1'; discriminate.
  - unfold insert_sorted. rewrite rev_app_distr. simpl rev. cbn [insert_rev].
    unfold less at 1. destruct (Z.gtb_spec (key x) (key y)) as [Hgt|Hle].
    + destruct IH as (p1 & p2 & Hpre & Hins & Hp2 & Hp1).
      exists p1, (p2 ++ [y]). unfold insert_sorted in Hins.
      simpl rev. rewrite Hins. rewrite Hpre. rewrite <- !app_assoc. simpl.
      repeat split; auto.
      apply Forall_app. split; [exact Hp2|]. constructor; [lia|constructor].
    + exists (pre ++ [y]), []. simpl rev. rewrite rev_involutive.
      rewrite app_nil_r. rewrite <- app_assoc. simpl.
      repeat split; auto.
      intros p1' y' Hp. apply app_inj_tail in Hp as [_ <-]. exact Hle.
Qed.

Lemma desc_insert (p1 p2 : list A) x :
  desc (p1 ++ p2) ->
  Forall (fun y => (key y < key x)%Z) p2 ->
  (forall p1' y, p1 = p1' ++ [y] -> (key x <= key y)%Z) ->
  desc (p1 ++ x :: p2).
Proof.
  intros Hdesc Hp2 Hlast. induction p1 as [|a p1 IH].
  - simpl in *. constructor; [exact Hdesc|].
    eapply Forall_impl; [exact Hp2|]. intros y Hy. simpl in Hy. lia.
  - simpl in *. apply StronglySorted_inv in Hdesc as [Hrest Ha].
    constructor.
    + apply IH; [exact Hrest|]. intros p1' y ->. apply (Hlast (a :: p1') y). reflexivity.
    + apply Forall_app in Ha as [Ha1 Ha2]. apply Forall_app. split; [exact Ha1|].
      constructor; [|exact Ha2].
      destruct p1 as [|b p1] using rev_ind.
      * apply (Hlast [] a). reflexivity.
      * clear IHp1. apply Forall_app in Ha1 as [_ Hb]. apply Forall_inv in Hb.
        pose proof (Hlast (a :: p1) b eq_refl). lia.
Qed.

Lemma filter_key_insert (p1 p2 : list A) x p :
  Forall (fun y => (key y < key x)%Z) p2 ->
  List.filter (fun y => (key y =? p)%Z) (p1 ++ x :: p2)
  = List.filter (fun y => (key y =? p)%Z) ((p1 ++ p2) ++ [x]).
Proof.
  intros Hp2. rewrite !List.filter_app. simpl.
  destruct (Z.eqb_spec (key x) p) as [Hx|Hx]; [|now rewrite app_nil_r].
  assert (Hnil : List.filter (fun y => (key y =? p)%Z) p2 = []).
  { induction Hp2 as [|y p2 Hy _ IH]; simpl; [reflexivity|].
    destruct (Z.eqb_spec (key y) p); [lia|exact IH]. }
  rewrite Hnil. now rewrite app_nil_r.
Qed.

Lemma isort_stable_sorted (rest pre : list A) :
  desc pre ->
  desc (fold_left (insert_sorted less) rest pre)
  /\ forall p, List.filter (fun y => (key y =? p)%Z) (fold_left (insert_sorted less) rest pre)
               = List.filter (fun y => (key y =? p)%Z) (pre ++ rest).
Proof.
  revert pre. induction rest as [|x rest IH]; intros pre Hpre.
  - simpl. rewrite app_nil_r. auto.
  - cbn [fold_left].
    destruct (insert_sorted_split pre x) as (p1 & p2 & Hsplit & Hins & Hp2 & Hp1).
    assert (Hdesc : desc (insert_sorted less pre x)).
    { rewrite Hins. apply desc_insert; auto. now rewrite <- Hsplit. }
    destruct (IH _ Hdesc) as [Hs Hf]. split; [exact Hs|].
    intros p. rewrite Hf.
    replace (pre ++ x :: rest) with ((pre ++ [x]) ++ rest) by (now rewrite <- app_assoc).
    rewrite (List.filter_app _ (insert_sorted less pre x)).
    rewrite (List.filter_app _ (pre ++ [x])). f_equal.
    rewrite Hins, Hsplit. apply filter_key_insert. exact Hp2.
Qed.

(** sort.Slice on at most twelve elements sorts by descending key and keeps
    elements of equal key in their original order. *)
Lemma Slice_small_stable (l : list A) :
  length l <= 12 ->
  StronglySorted (fun x y => (key y <= key x)%Z) (Slice less l)
  /\ forall p, List.filter (fun y => (key y =? p)%Z) (Slice less l)
               = List.filter (fun y => (key y =? p)%Z) l.
Proof.
  intros Hlen. rewrite Slice_small by exact Hlen. unfold isort.
  apply (isort_stable_sorted l []). constructor.
Qed.

End GoSortSmall.

(** ** sort.Slice sorts: every function of pdqsort_func on its range *)

Section GoSortOrder.
Import GoSort SortSpec.
Local Open Scope nat_scope.
Context {A : Type} (key : A -> Z) (d : A).
Local Abbreviation less := (less key).
Local Abbreviation K := (K key d).
Local Abbreviation sorted_on := (sorted_on key d).
Local Abbreviation within := (within d).
Local Abbreviation heap_ok := (heap_ok key d).
Local Abbreviation bounded_by_left := (bounded_by_left key d).

Lemma Swap_length (l : list A) i j : length (Swap l i j) = length l.
Proof.
  unfold Swap. destruct (l !! i); [|reflexivity]. destruct (l !! j); [|reflexivity].
  now rewrite !length_insert.
Qed.

Lemma nth_Swap (l : list A) i j k :
  i < length l -> j < length l ->
  nth k (Swap l i j) d
  = if k =? i then nth j l d else if k =? j then nth i l d else nth k l d.
Proof.
  intros Hi Hj. unfold Swap.
  destruct (lookup_lt_is_Some_2 l i Hi) as [x Hx].
  destruct (lookup_lt_is_Some_2 l j Hj) as [y Hy].
  rewrite Hx, Hy. rewrite !nth_lookup.
  destruct (Nat.eqb_spec k i) as [->|Hki].
  - rewrite list_lookup_insert_eq by (rewrite length_insert; lia). now rewrite Hy.
  - rewrite list_lookup_insert_ne by lia.
    destruct (Nat.eqb_spec k j) as [->|Hkj].
    + rewrite list_lookup_insert_eq by lia. now rewrite Hx.
    + now rewrite list_lookup_insert_ne by lia.
Qed.

Lemma K_Swap (l : list A) i j k :
  i < length l -> j < length l ->
  K (Swap l i j) k = if k =? i then K l j else if k =? j then K l i else K l k.
Proof.
  intros Hi Hj. unfold SortSpec.K. rewrite nth_Swap by assumption.
  destruct (k =? i); [reflexivity|]. destruct (k =? j); reflexivity.
Qed.

Lemma Less_K (l : list A) i j :
  i < length l -> j < length l -> Less less l i j = (K l i >? K l j)%Z.
Proof.
  intros Hi Hj. unfold Less, SortSpec.K. rewrite !nth_lookup.
  destruct (lookup_lt_is_Some_2 l i Hi) as [x ->].
  destruct (lookup_lt_is_Some_2 l j Hj) as [y ->]. reflexivity.
Qed.

Lemma within_refl a b (l : list A) : within a b l l.
Proof. unfold SortSpec.within. auto. Qed.

Lemma within_trans a b (l1 l2 l3 : list A) :
  within a b l1 l2 -> within a b l2 l3 -> within a b l1 l3.
Proof.
  intros (H1 & H2 & H3) (H4 & H5 & H6). repeat split.
  - congruence.
  - intros k Hk. rewrite H5, H2; auto.
  - intros P HP. apply H6. now apply H3.
Qed.

Lemma within_weaken a b a' b' (l l' : list A) :
  a' <= a -> b <= b' -> within a b l l' -> within a' b' l l'.
Proof.
  intros Ha Hb (H1 & H2 & H3). repeat split; auto.
  - intros k Hk. apply H2. lia.
  - intros P HP k Hk1 Hk2.
    destruct (le_lt_dec a k) as [Hak|Hak]; [destruct (le_lt_dec b k) as [Hbk|Hbk]|].
    + rewrite H2 by lia. auto.
    + apply H3; auto. intros k' ? ?. apply HP; lia.
    + rewrite H2 by lia. auto.
Qed.

Lemma within_Swap a b (l : list A) i j :
  a <= i -> i < b -> a <= j -> j < b -> b <= length l -> within a b l (Swap l i j).
Proof.
  intros Hai Hib Haj Hjb Hb. repeat split.
  - apply Swap_length.
  - intros k Hk. rewrite nth_Swap by lia.
    destruct (Nat.eqb_spec k i); [lia|]. destruct (Nat.eqb_spec k j); [lia|]. reflexivity.
  - intros P HP k Hk1 Hk2. rewrite nth_Swap by lia.
    destruct (k =? i); [apply HP; lia|]. destruct (k =? j); apply HP; lia.
Qed.

Lemma within_K_outside a b (l l' : list A) k :
  within a b l l' -> k < a \/ b <= k -> K l' k = K l k.
Proof. intros (_ & H & _) Hk. unfold SortSpec.K. now rewrite H. Qed.

Lemma within_K_all a b (l l' : list A) (P : Z -> Prop) :
  within a b l l' ->
  (forall k, a <= k -> k < b -> P (K l k)) ->
  forall k, a <= k -> k < b -> P (K l' k).
Proof.
  intros (_ & _ & H) HP. apply (H (fun x => P (key x))). exact HP.
Qed.

Lemma within_length a b (l l' : list A) : within a b l l' -> length l' = length l.
Proof. now intros (H & _). Qed.

(** *** insertionSort_func *)

Lemma insert_down_spec a i j (l : list A) :
  a <= j -> j <= i -> i < length l ->
  (forall p q, a <= p -> p < q -> q <= i -> p <> j -> q <> j -> (K l q <= K l p)%Z) ->
  (forall q, j < q -> q <= i -> (K l q < K l j)%Z) ->
  within a (i + 1) l (insert_down less a j l)
  /\ sorted_on (insert_down less a j l) a (i + 1).
Proof.
  revert l. induction j as [|j IH]; intros l Haj Hji Hi I1 I2.
  - cbn [insert_down]. split; [apply within_refl|].
    intros p q Hp Hpq Hq. destruct (Nat.eq_dec p 0) as [->|Hp0].
    + specialize (I2 q). lia.
    + apply I1; lia.
  - cbn [insert_down].
    destruct (Nat.ltb_spec a (S j)) as [Ha|Ha]; cbn [andb].
    + rewrite Less_K by lia.
      destruct (Z.gtb_spec (K l (S j)) (K l j)) as [Hless|Hnot].
      * assert (Hw : within a (i + 1) l (Swap l (S j) j)) by (apply within_Swap; lia).
        destruct (IH (Swap l (S j) j)) as [Hw' Hs]; try lia.
        { now rewrite Swap_length. }
        { intros p q Hp Hpq Hq Hpj Hqj. rewrite !K_Swap by lia.
          destruct (Nat.eqb_spec q (S j)) as [->|Hq1];
            destruct (Nat.eqb_spec p (S j)) as [->|Hp1]; try lia.
          - destruct (Nat.eqb_spec p j); [lia|]. apply I1; lia.
          - destruct (Nat.eqb_spec q j); [lia|]. apply I1; lia.
          - destruct (Nat.eqb_spec q j); [lia|]. destruct (Nat.eqb_spec p j); [lia|].
            apply I1; lia. }
        { intros q Hq1 Hq2. rewrite !K_Swap by lia.
          rewrite Nat.eqb_refl.
          destruct (Nat.eqb_spec j (S j)); [lia|].
          destruct (Nat.eqb_spec q (S j)) as [->|Hq3]; [lia|].
          destruct (Nat.eqb_spec q j); [lia|].
          apply I2; lia. }
        split; [|exact Hs]. eapply within_trans; eassumption.
      * split; [apply within_refl|].
        intros p q Hp Hpq Hq.
        destruct (Nat.eq_dec p (S j)) as [->|Hp1]; [specialize (I2 q); lia|].
        destruct (Nat.eq_dec q (S j)) as [->|Hq1]; [|apply I1; lia].
        destruct (Nat.eq_dec p j) as [->|Hpj]; [lia|].
        assert (K l j <= K l p)%Z by (apply I1; lia). lia.
    + split; [apply within_refl|].
      intros p q Hp Hpq Hq.
      destruct (Nat.eq_dec p (S j)) as [->|Hp1]; [specialize (I2 q); lia|].
      apply I1; lia.
Qed.

Lemma insertion_fold_spec a n : forall i (l : list A),
  a <= i -> i + n <= length l -> sorted_on l a i ->
  let l' := fold_left (fun l i => insert_down less a i l) (seq i n) l in
  within a (i + n) l l' /\ sorted_on l' a (i + n).
Proof.
  induction n as [|n IH]; intros i l Hai Hlen Hs; cbn [seq fold_left].
  - rewrite Nat.add_0_r. split; [apply within_refl|exact Hs].
  - destruct (insert_down_spec a i i l) as [Hw Hs1]; try lia.
    { intros p q ? ? ? ? ?. apply Hs; lia. }
    destruct (IH (S i) (insert_down less a i l)) as [Hw2 Hs2]; try lia.
    { rewrite (within_length _ _ _ _ Hw). lia. }
    { replace (S i) with (i + 1) by lia. exact Hs1. }
    replace (i + S n) with (S i + n) by lia.
    split; [|exact Hs2].
    eapply within_trans; [|exact Hw2]. eapply within_weaken; [| |exact Hw]; lia.
Qed.

Lemma insertionSort_spec (l : list A) a b :
  b <= length l ->
  within a b l (insertionSort_func less l a b)
  /\ sorted_on (insertionSort_func less l a b) a b.
Proof.
  intros Hb. unfold insertionSort_func.
  destruct (le_lt_dec b (a + 1)) as [Hsmall|Hbig].
  - replace (b - (a + 1)) with 0 by lia. simpl.
    split; [apply within_refl|]. intros p q ? ? ?. lia.
  - destruct (insertion_fold_spec a (b - (a + 1)) (a + 1) l) as [Hw Hs]; try lia.
    { intros p q ? ? ?. lia. }
    replace (a + 1 + (b - (a + 1))) with b in * by lia. auto.
Qed.

(** *** partition_func *)

Lemma scan_up_spec fuel : forall (l : list A) a i j,
  j < length l -> a < length l -> S j - i <= fuel ->
  let i' := scan_up less fuel l a i j in
  i <= i'
  /\ (i <= j + 1 -> i' <= j + 1)
  /\ (forall k, i <= k -> k < i' -> (K l k > K l a)%Z)
  /\ (i' <= j -> (K l i' <= K l a)%Z).
Proof.
  induction fuel as [|fuel IH]; intros l a i j Hj Ha Hfuel; cbn [scan_up].
  - repeat split; try lia; try (intros; lia).
  - destruct (Nat.leb_spec i j) as [Hij|Hij]; cbn [andb].
    + rewrite Less_K by lia.
      destruct (Z.gtb_spec (K l i) (K l a)) as [Hgt|Hle].
      * destruct (IH l a (i + 1) j Hj Ha ltac:(lia)) as (H1 & H2 & H3 & H4).
        repeat split; try lia.
        intros k Hk1 Hk2. destruct (Nat.eq_dec k i) as [->|Hne]; [lia|]. apply H3; lia.
      * repeat split; try lia; try (intros; lia).
    + repeat split; try lia; try (intros; lia).
Qed.

Lemma scan_down_spec fuel : forall (l : list A) a i j,
  j < length l -> a < length l -> 1 <= i -> S j - i <= fuel ->
  let j' := scan_down less fuel l a i j in
  j' <= j
  /\ (i <= j + 1 -> i <= j' + 1)
  /\ (forall k, j' < k -> k <= j -> (K l k <= K l a)%Z)
  /\ (i <= j' -> (K l j' > K l a)%Z).
Proof.
  induction fuel as [|fuel IH]; intros l a i j Hj Ha Hi Hfuel; cbn [scan_down].
  - repeat split; try lia; try (intros; lia).
  - destruct (Nat.leb_spec i j) as [Hij|Hij]; cbn [andb].
    + rewrite Less_K by lia.
      destruct (Z.gtb_spec (K l j) (K l a)) as [Hgt|Hle]; cbn [negb].
      * repeat split; try lia; try (intros; lia).
      * destruct (IH l a i (j - 1) ltac:(lia) Ha Hi ltac:(lia)) as (H1 & H2 & H3 & H4).
        repeat split; try lia.
        intros k Hk1 Hk2. destruct (Nat.eq_dec k j) as [->|Hne]; [lia|]. apply H3; lia.
    + repeat split; try lia; try (intros; lia).
Qed.

Lemma partition_loop_spec fuel : forall (l : list A) a b i j,
  b <= length l -> a < i -> j < b -> i <= j + 1 -> S j - i <= fuel ->
  (forall k, a < k -> k < i -> (K l k > K l a)%Z) ->
  (forall k, j < k -> k < b -> (K l k <= K l a)%Z) ->
  let r := partition_loop less fuel l a i j in
  within (a + 1) b l (fst r)
  /\ a <= snd r /\ snd r < b
  /\ (forall k, a < k -> k <= snd r -> (K (fst r) k > K l a)%Z)
  /\ (forall k, snd r < k -> k < b -> (K (fst r) k <= K l a)%Z).
Proof.
  induction fuel as [|fuel IH]; intros l a b i j Hb Hai Hjb Hij Hfuel Hlo Hhi;
    cbn [partition_loop].
  - simpl. split; [apply within_refl|]. repeat split; try lia.
    + intros k ? ?. apply Hlo; lia.
    + intros k ? ?. apply Hhi; lia.
  - destruct (scan_up_spec (S j - i) l a i j ltac:(lia) ltac:(lia) ltac:(lia))
      as (U1 & U2 & U3 & U4).
    set (i1 := scan_up less (S j - i) l a i j) in *.
    destruct (scan_down_spec (S j - i1) l a i1 j ltac:(lia) ltac:(lia) ltac:(lia) ltac:(lia))
      as (D1 & D2 & D3 & D4).
    set (j1 := scan_down less (S j - i1) l a i1 j) in *.
    destruct (Nat.ltb_spec j1 i1) as [Hdone|Hmore].
    + simpl. split; [apply within_refl|]. repeat split; try lia.
      * intros k ? ?. destruct (le_lt_dec i k); [apply U3; lia|apply Hlo; lia].
      * intros k ? ?. destruct (le_lt_dec k j); [apply D3; lia|apply Hhi; lia].
    + assert (Hi1 : (K l i1 <= K l a)%Z) by (apply U4; lia).
      assert (Hj1 : (K l j1 > K l a)%Z) by (apply D4; lia).
      assert (Hlt : i1 < j1).
      { destruct (Nat.eq_dec i1 j1) as [Heq|]; [rewrite Heq in Hi1; lia|lia]. }
      assert (Hw : within (a + 1) b l (Swap l i1 j1)) by (apply within_Swap; lia).
      assert (HKa : K (Swap l i1 j1) a = K l a).
      { rewrite K_Swap by lia.
        destruct (Nat.eqb_spec a i1); [lia|]. destruct (Nat.eqb_spec a j1); [lia|].
        reflexivity. }
      destruct (IH (Swap l i1 j1) a b (i1 + 1) (j1 - 1)) as (R1 & R2 & R3 & R4 & R5);
        try lia.
      { rewrite Swap_length. lia. }
      { intros k Hk1 Hk2. rewrite HKa. rewrite K_Swap by lia.
        destruct (Nat.eqb_spec k i1) as [->|]; [lia|].
        destruct (Nat.eqb_spec k j1); [lia|].
        destruct (le_lt_dec i k); [apply U3; lia|apply Hlo; lia]. }
      { intros k Hk1 Hk2. rewrite HKa. rewrite K_Swap by lia.
        destruct (Nat.eqb_spec k i1); [lia|].
        destruct (Nat.eqb_spec k j1) as [->|]; [lia|].
        destruct (le_lt_dec k j); [apply D3; lia|apply Hhi; lia]. }
      rewrite HKa in R4, R5.
      split; [eapply within_trans; eassumption|]. repeat split; auto.
Qed.

Lemma partition_func_spec (l : list A) a b pivot :
  a <= pivot -> pivot < b -> b <= length l ->
  let r := partition_func less l a b pivot in
  let l' := fst (fst r) in
  let mid := snd (fst r) in
  within a b l l'
  /\ a <= mid /\ mid < b
  /\ (forall k, a <= k -> k < mid -> (K l' k > K l' mid)%Z)
  /\ (forall k, mid < k -> k < b -> (K l' k <= K l' mid)%Z).
Proof.
  intros Hap Hpb Hb. unfold partition_func.
  set (l0 := Swap l a pivot).
  assert (Hw0 : within a b l l0) by (apply within_Swap; lia).
  assert (Hlen0 : length l0 = length l) by apply Swap_length.
  destruct (scan_up_spec (S (b - 1) - (a + 1)) l0 a (a + 1) (b - 1)
              ltac:(lia) ltac:(lia) ltac:(lia)) as (U1 & U2 & U3 & U4).
  set (i1 := scan_up less (S (b - 1) - (a + 1)) l0 a (a + 1) (b - 1)) in *.
  destruct (scan_down_spec (S (b - 1) - i1) l0 a i1 (b - 1)
              ltac:(lia) ltac:(lia) ltac:(lia) ltac:(lia)) as (D1 & D2 & D3 & D4).
  set (j1 := scan_down less (S (b - 1) - i1) l0 a i1 (b - 1)) in *.
  (* what the final swap of the pivot into place achieves *)
  assert (Hfinal : forall (l2 : list A) j2,
             within (a + 1) b l0 l2 -> a <= j2 -> j2 < b ->
             (forall k, a < k -> k <= j2 -> (K l2 k > K l0 a)%Z) ->
             (forall k, j2 < k -> k < b -> (K l2 k <= K l0 a)%Z) ->
             within a b l (Swap l2 j2 a)
             /\ a <= j2 /\ j2 < b
             /\ (forall k, a <= k -> k < j2 -> (K (Swap l2 j2 a) k > K (Swap l2 j2 a) j2)%Z)
             /\ (forall k, j2 < k -> k < b -> (K (Swap l2 j2 a) k <= K (Swap l2 j2 a) j2)%Z)).
  { intros l2 j2 Hw2 Hj2a Hj2b Hlo Hhi.
    assert (Hlen2 : length l2 = length l) by (rewrite (within_length _ _ _ _ Hw2); lia).
    assert (HKa : K l2 a = K l0 a) by (apply (within_K_outside (a + 1) b l0 l2 a Hw2); lia).
    split.
    { eapply within_trans; [exact Hw0|]. eapply within_trans.
      - eapply within_weaken; [| |exact Hw2]; lia.
      - apply within_Swap; lia. }
    split; [lia|]. split; [lia|]. split.
    - intros k Hk1 Hk2. rewrite !K_Swap by lia. rewrite Nat.eqb_refl.
      destruct (Nat.eqb_spec k j2); [lia|].
      destruct (Nat.eqb_spec k a) as [->|Hka].
      + rewrite HKa. apply Hlo; lia.
      + rewrite HKa. apply Hlo; lia.
    - intros k Hk1 Hk2. rewrite !K_Swap by lia. rewrite Nat.eqb_refl.
      destruct (Nat.eqb_spec k j2); [lia|].
      destruct (Nat.eqb_spec k a); [lia|].
      rewrite HKa. apply Hhi; lia. }
  destruct (Nat.ltb_spec j1 i1) as [Hdone|Hmore]; cbn [fst snd].
  - apply Hfinal; try lia.
    + apply within_refl.
    + intros k ? ?. apply U3; lia.
    + intros k ? ?. apply D3; lia.
  - assert (Hi1 : (K l0 i1 <= K l0 a)%Z) by (apply U4; lia).
    assert (Hj1 : (K l0 j1 > K l0 a)%Z) by (apply D4; lia).
    assert (Hlt : i1 < j1).
    { destruct (Nat.eq_dec i1 j1) as [Heq|]; [rewrite Heq in Hi1; lia|lia]. }
    assert (Hw : within (a + 1) b l0 (Swap l0 i1 j1)) by (apply within_Swap; lia).
    assert (HKa : K (Swap l0 i1 j1) a = K l0 a).
    { rewrite K_Swap by lia.
      destruct (Nat.eqb_spec a i1); [lia|]. destruct (Nat.eqb_spec a j1); [lia|].
      reflexivity. }
    destruct (partition_loop_spec (b - a) (Swap l0 i1 j1) a b (i1 + 1) (j1 - 1))
      as (R1 & R2 & R3 & R4 & R5); try lia.
    { rewrite Swap_length. lia. }
    { intros k Hk1 Hk2. rewrite HKa. rewrite K_Swap by lia.
      destruct (Nat.eqb_spec k i1) as [->|]; [lia|].
      destruct (Nat.eqb_spec k j1); [lia|]. apply U3; lia. }
    { intros k Hk1 Hk2. rewrite HKa. rewrite K_Swap by lia.
      destruct (Nat.eqb_spec k i1); [lia|].
      destruct (Nat.eqb_spec k j1) as [->|]; [lia|]. apply D3; lia. }
    destruct (partition_loop less (b - a) (Swap l0 i1 j1) a (i1 + 1) (j1 - 1))
      as [l2 j2] eqn:Hloop.
    cbn [fst snd] in *. rewrite HKa in R4, R5.
    apply Hfinal; auto. eapply within_trans; eassumption.
Qed.

(** *** partitionEqual_func *)

Lemma scan_up_eq_spec fuel : forall (l : list A) a i j,
  j < length l -> a < length l -> S j - i <= fuel ->
  let i' := scan_up_eq less fuel l a i j in
  i <= i'
  /\ (i <= j + 1 -> i' <= j + 1)
  /\ (forall k, i <= k -> k < i' -> (K l a <= K l k)%Z)
  /\ (i' <= j -> (K l i' < K l a)%Z).
Proof.
  induction fuel as [|fuel IH]; intros l a i j Hj Ha Hfuel; cbn [scan_up_eq].
  - repeat split; try lia; try (intros; lia).
  - destruct (Nat.leb_spec i j) as [Hij|Hij]; cbn [andb].
    + rewrite Less_K by lia.
      destruct (Z.gtb_spec (K l a) (K l i)) as [Hgt|Hle]; cbn [negb].
      * repeat split; try lia; try (intros; lia).
      * destruct (IH l a (i + 1) j Hj Ha ltac:(lia)) as (H1 & H2 & H3 & H4).
        repeat split; try lia.
        intros k Hk1 Hk2. destruct (Nat.eq_dec k i) as [->|Hne]; [lia|]. apply H3; lia.
    + repeat split; try lia; try (intros; lia).
Qed.

Lemma scan_down_eq_spec fuel : forall (l : list A) a i j,
  j < length l -> a < length l -> 1 <= i -> S j - i <= fuel ->
  let j' := scan_down_eq less fuel l a i j in
  j' <= j
  /\ (i <= j + 1 -> i <= j' + 1)
  /\ (forall k, j' < k -> k <= j -> (K l k < K l a)%Z)
  /\ (i <= j' -> (K l a <= K l j')%Z).
Proof.
  induction fuel as [|fuel IH]; intros l a i j Hj Ha Hi Hfuel; cbn [scan_down_eq].
  - repeat split; try lia; try (intros; lia).
  - destruct (Nat.leb_spec i j) as [Hij|Hij]; cbn [andb].
    + rewrite Less_K by lia.
      destruct (Z.gtb_spec (K l a) (K l j)) as [Hgt|Hle].
      * destruct (IH l a i (j - 1) ltac:(lia) Ha Hi ltac:(lia)) as (H1 & H2 & H3 & H4).
        repeat split; try lia.
        intros k Hk1 Hk2. destruct (Nat.eq_dec k j) as [->|Hne]; [lia|]. apply H3; lia.
      * repeat split; try lia; try (intros; lia).
    + repeat split; try lia; try (intros; lia).
Qed.

Lemma partitionEqual_loop_spec fuel : forall (l : list A) a b i j,
  b <= length l -> a < i -> j < b -> i <= j + 1 -> S j - i <= fuel ->
  (forall k, a <= k -> k < b -> (K l k <= K l a)%Z) ->
  (forall k, a <= k -> k < i -> (K l k = K l a)%Z) ->
  (forall k, j < k -> k < b -> (K l k < K l a)%Z) ->
  let r := partitionEqual_loop less fuel l a i j in
  within (a + 1) b l (fst r)
  /\ a < snd r /\ snd r <= b
  /\ (forall k, a <= k -> k < snd r -> (K (fst r) k = K l a)%Z)
  /\ (forall k, snd r <= k -> k < b -> (K (fst r) k < K l a)%Z).
Proof.
  induction fuel as [|fuel IH]; intros l a b i j Hb Hai Hjb Hij Hfuel Hall Hlo Hhi;
    cbn [partitionEqual_loop].
  - simpl. split; [apply within_refl|]. repeat split; try lia.
    + intros k ? ?. apply Hlo; lia.
    + intros k ? ?. apply Hhi; lia.
  - destruct (scan_up_eq_spec (S j - i) l a i j ltac:(lia) ltac:(lia) ltac:(lia))
      as (U1 & U2 & U3 & U4).
    set (i1 := scan_up_eq less (S j - i) l a i j) in *.
    destruct (scan_down_eq_spec (S j - i1) l a i1 j
                ltac:(lia) ltac:(lia) ltac:(lia) ltac:(lia)) as (D1 & D2 & D3 & D4).
    set (j1 := scan_down_eq less (S j - i1) l a i1 j) in *.
    destruct (Nat.ltb_spec j1 i1) as [Hdone|Hmore].
    + simpl. split; [apply within_refl|]. repeat split; try lia.
      * intros k ? ?. destruct (le_lt_dec i k) as [Hik|Hik]; [|apply Hlo; lia].
        pose proof (U3 k Hik ltac:(lia)). pose proof (Hall k ltac:(lia) ltac:(lia)). lia.
      * intros k ? ?. destruct (le_lt_dec k j); [apply D3; lia|apply Hhi; lia].
    + assert (Hi1 : (K l i1 < K l a)%Z) by (apply U4; lia).
      assert (Hj1 : (K l a <= K l j1)%Z) by (apply D4; lia).
      assert (Hlt : i1 < j1).
      { destruct (Nat.eq_dec i1 j1) as [Heq|]; [rewrite Heq in Hi1; lia|lia]. }
      assert (Hw : within (a + 1) b l (Swap l i1 j1)) by (apply within_Swap; lia).
      assert (HKa : K (Swap l i1 j1) a = K l a).
      { rewrite K_Swap by lia.
        destruct (Nat.eqb_spec a i1); [lia|]. destruct (Nat.eqb_spec a j1); [lia|].
        reflexivity. }
      destruct (IH (Swap l i1 j1) a b (i1 + 1) (j1 - 1)) as (R1 & R2 & R3 & R4 & R5);
        try lia.
      { rewrite Swap_length. lia. }
      { intros k Hk1 Hk2. rewrite HKa. rewrite K_Swap by lia.
        destruct (k =? i1); [apply Hall; lia|]. destruct (k =? j1); apply Hall; lia. }
      { intros k Hk1 Hk2. rewrite HKa. rewrite K_Swap by lia.
        destruct (Nat.eqb_spec k i1) as [->|].
        - pose proof (Hall j1 ltac:(lia) ltac:(lia)). lia.
        - destruct (Nat.eqb_spec k j1); [lia|].
          destruct (le_lt_dec i k) as [Hik|Hik]; [|apply Hlo; lia].
          pose proof (U3 k Hik ltac:(lia)). pose proof (Hall k ltac:(lia) ltac:(lia)). lia. }
      { intros k Hk1 Hk2. rewrite HKa. rewrite K_Swap by lia.
        destruct (Nat.eqb_spec k i1); [lia|].
        destruct (Nat.eqb_spec k j1) as [->|]; [lia|].
        destruct (le_lt_dec k j); [apply D3; lia|apply Hhi; lia]. }
      rewrite HKa in R4, R5.
      split; [eapply within_trans; eassumption|]. repeat split; auto.
Qed.

Lemma partitionEqual_func_spec (l : list A) a b pivot :
  a <= pivot -> pivot < b -> b <= length l ->
  (forall k, a <= k -> k < b -> (K l k <= K l pivot)%Z) ->
  let r := partitionEqual_func less l a b pivot in
  within a b l (fst r)
  /\ a < snd r /\ snd r <= b
  /\ (forall k, a <= k -> k < snd r -> (K (fst r) k = K l pivot)%Z)
  /\ (forall k, snd r <= k -> k < b -> (K (fst r) k < K l pivot)%Z).
Proof.
  intros Hap Hpb Hb Hall. unfold partitionEqual_func.
  set (l0 := Swap l a pivot).
  assert (Hw0 : within a b l l0) by (apply within_Swap; lia).
  assert (Hlen0 : length l0 = length l) by apply Swap_length.
  assert (HKa : K l0 a = K l pivot).
  { unfold l0. rewrite K_Swap by lia. now rewrite Nat.eqb_refl. }
  assert (Hall0 : forall k, a <= k -> k < b -> (K l0 k <= K l0 a)%Z).
  { rewrite HKa. apply (within_K_all a b l l0 (fun z => (z <= K l pivot)%Z) Hw0). exact Hall. }
  destruct (partitionEqual_loop_spec (S (b - a)) l0 a b (a + 1) (b - 1))
    as (R1 & R2 & R3 & R4 & R5); try lia; auto.
  { intros k ? ?. replace k with a by lia. reflexivity. }
  rewrite HKa in R4, R5.
  split; [|auto].
  eapply within_trans; [exact Hw0|]. eapply within_weaken; [| |exact R1]; lia.
Qed.

(** *** heapSort_func *)

Lemma siftDown_loop_spec fuel : forall (l : list A) root hi first lo,
  first + hi <= length l -> lo <= root -> hi - root <= fuel ->
  (forall p, lo <= p -> p <> root -> heap_ok l first hi p) ->
  (forall p, lo <= p -> root = 2 * p + 1 \/ root = 2 * p + 2 ->
             forall c, c < hi -> c = 2 * root + 1 \/ c = 2 * root + 2 ->
                       (K l (first + p) <= K l (first + c))%Z) ->
  let l' := siftDown_loop less fuel l root hi first in
  within (first + lo) (first + hi) l l'
  /\ forall p, lo <= p -> heap_ok l' first hi p.
Proof.
  induction fuel as [|fuel IH]; intros l root hi first lo Hlen Hlo Hfuel HA HB;
    cbn [siftDown_loop].
  - split; [apply within_refl|]. intros p Hp.
    destruct (Nat.eq_dec p root) as [->|Hne]; [|now apply HA].
    intros c Hc Hchild. lia.
  - destruct (Nat.leb_spec hi (2 * root + 1)) as [Hleaf|Hchild].
    { split; [apply within_refl|]. intros p Hp.
      destruct (Nat.eq_dec p root) as [->|Hne]; [|now apply HA].
      intros c Hc Hch. lia. }
    set (c1 := 2 * root + 1) in *.
    set (child := if (c1 + 1 <? hi) && Less less l (first + c1) (first + c1 + 1)
                  then c1 + 1 else c1).
    assert (Hmin : child < hi /\ (child = 2 * root + 1 \/ child = 2 * root + 2)
                   /\ forall c, c < hi -> c = 2 * root + 1 \/ c = 2 * root + 2 ->
                                 (K l (first + child) <= K l (first + c))%Z).
    { unfold child. destruct (Nat.ltb_spec (c1 + 1) hi) as [H2|H2]; cbn [andb].
      - rewrite Less_K by lia.
        destruct (Z.gtb_spec (K l (first + c1)) (K l (first + c1 + 1))) as [Hgt|Hle].
        + split; [lia|]. split; [lia|]. intros c Hc [-> | ->].
          * fold c1. replace (first + (c1 + 1)) with (first + c1 + 1) by lia. lia.
          * replace (2 * root + 2) with (c1 + 1) by lia. lia.
        + split; [lia|]. split; [lia|]. intros c Hc [-> | ->].
          * fold c1. lia.
          * replace (first + (2 * root + 2)) with (first + c1 + 1) by lia. lia.
      - split; [lia|]. split; [lia|]. intros c Hc [-> | ->]; [fold c1; lia|lia]. }
    clearbody child. destruct Hmin as (Hc_hi & Hc_child & Hc_min).
    rewrite Less_K by lia.
    destruct (Z.gtb_spec (K l (first + root)) (K l (first + child))) as [Hgt|Hle];
      cbn [negb].
    + assert (Hw : within (first + lo) (first + hi) l
                     (Swap l (first + root) (first + child)))
        by (apply within_Swap; lia).
      destruct (IH (Swap l (first + root) (first + child)) child hi first lo)
        as [Hw' Hheap]; try lia.
      { rewrite Swap_length. lia. }
      { intros p Hp Hpc c Hc Hch. rewrite !K_Swap by lia.
        destruct (Nat.eqb_spec (first + p) (first + root)) as [Hpr|Hpr].
        - assert (p = root) by lia. subst p.
          destruct (Nat.eqb_spec (first + c) (first + root)); [lia|].
          destruct (Nat.eqb_spec (first + c) (first + child)) as [Hcc|Hcc]; [lia|].
          apply Hc_min; lia.
        - destruct (Nat.eqb_spec (first + p) (first + child)); [lia|].
          destruct (Nat.eqb_spec (first + c) (first + root)) as [Hcr|Hcr].
          + assert (c = root) by lia. subst c. apply (HB p Hp ltac:(lia) child); lia.
          + destruct (Nat.eqb_spec (first + c) (first + child)); [lia|].
            apply HA; lia. }
      { intros p Hp Hpc c Hc Hch. assert (p = root) by lia. subst p.
        rewrite !K_Swap by lia. rewrite Nat.eqb_refl.
        destruct (Nat.eqb_spec (first + c) (first + root)); [lia|].
        destruct (Nat.eqb_spec (first + c) (first + child)); [lia|].
        apply (HA child); lia. }
      split; [eapply within_trans; eassumption|exact Hheap].
    + split; [apply within_refl|]. intros p Hp.
      destruct (Nat.eq_dec p root) as [->|Hne]; [|now apply HA].
      intros c Hc Hch. specialize (Hc_min c Hc Hch). lia.
Qed.

Lemma rev_seq_S n : rev (seq 0 (S n)) = n :: rev (seq 0 n).
Proof. rewrite seq_S. rewrite rev_app_distr. reflexivity. Qed.

Lemma heap_build n : forall (l : list A) hi first,
  first + hi <= length l ->
  (forall p, n <= p -> heap_ok l first hi p) ->
  let l' := fold_left (fun l i => siftDown_func less l i hi first) (rev (seq 0 n)) l in
  within first (first + hi) l l' /\ forall p, heap_ok l' first hi p.
Proof.
  induction n as [|n IH]; intros l hi first Hlen Hheap.
  - simpl. split; [apply within_refl|]. intros p. apply Hheap. lia.
  - rewrite rev_seq_S. cbn [fold_left]. unfold siftDown_func at 2.
    destruct (siftDown_loop_spec hi l n hi first n) as [Hw Hh]; try lia.
    { intros p Hp Hne. apply Hheap. lia. }
    destruct (IH (siftDown_loop less hi l n hi first) hi first) as [Hw2 Hh2].
    { rewrite (within_length _ _ _ _ Hw). exact Hlen. }
    { exact Hh. }
    split; [|exact Hh2].
    eapply within_trans; [|exact Hw2]. eapply within_weaken; [| |exact Hw]; lia.
Qed.

Lemma heap_min (l : list A) first hi :
  (forall p, heap_ok l first hi p) ->
  forall c, c < hi -> (K l first <= K l (first + c))%Z.
Proof.
  intros Hheap c. induction c as [c IH] using lt_wf_ind. intros Hc.
  destruct c as [|c]; [rewrite Nat.add_0_r; lia|].
  assert (Hparent : exists p, p < S c /\ (S c = 2 * p + 1 \/ S c = 2 * p + 2)).
  { exists (c / 2). pose proof (Nat.div_mod_eq c 2).
    pose proof (Nat.mod_upper_bound c 2 ltac:(lia)). lia. }
  destruct Hparent as (p & Hp & Hch).
  specialize (IH p Hp ltac:(lia)). specialize (Hheap p (S c) Hc Hch). lia.
Qed.

Lemma heap_pop n : forall (l : list A) hi first,
  n <= hi -> first + hi <= length l ->
  (forall p, heap_ok l first n p) ->
  sorted_on l (first + n) (first + hi) ->
  (forall p q, p < n -> n <= q -> q < hi -> (K l (first + q) <= K l (first + p))%Z) ->
  let l' := fold_left (fun l i => siftDown_func less (Swap l first (first + i)) 0 i first)
              (rev (seq 0 n)) l in
  within first (first + hi) l l' /\ sorted_on l' first (first + hi).
Proof.
  induction n as [|n IH]; intros l hi first Hn Hlen Hheap Hsorted Htail.
  - simpl. split; [apply within_refl|]. now rewrite Nat.add_0_r in Hsorted.
  - rewrite rev_seq_S. cbn [fold_left]. unfold siftDown_func at 2.
    pose proof (heap_min l first (S n) Hheap) as Hmin.
    set (l1 := Swap l first (first + n)).
    assert (Hw1 : within first (first + hi) l l1) by (apply within_Swap; lia).
    assert (Hlen1 : length l1 = length l) by apply Swap_length.
    assert (HK1 : forall k, K l1 (first + k)
                            = if k =? 0 then K l (first + n)
                              else if k =? n then K l first else K l (first + k)).
    { intros k. unfold l1. rewrite K_Swap by lia.
      destruct (Nat.eqb_spec (first + k) first), (Nat.eqb_spec k 0);
        try lia; try reflexivity.
      destruct (Nat.eqb_spec (first + k) (first + n)), (Nat.eqb_spec k n);
        try lia; reflexivity. }
    destruct (siftDown_loop_spec n l1 0 n first 0) as [Hw2 Hh2]; try lia.
    { intros p _ Hp c Hc Hch. rewrite !HK1.
      destruct (Nat.eqb_spec p 0); [lia|]. destruct (Nat.eqb_spec p n).
      - lia.
      - destruct (Nat.eqb_spec c 0); [lia|]. destruct (Nat.eqb_spec c n); [lia|].
        apply Hheap; lia. }
    set (l2 := siftDown_loop less n l1 0 n first) in *.
    rewrite Nat.add_0_r in Hw2.
    assert (Hout : forall q, n <= q -> K l2 (first + q) = K l1 (first + q)).
    { intros q Hq. apply (within_K_outside first (first + n) l1 l2); [exact Hw2|lia]. }
    destruct (IH l2 hi first) as [Hw3 Hs3]; try lia.
    { rewrite (within_length _ _ _ _ Hw2). lia. }
    { intros p. apply Hh2. lia. }
    { intros i j Hi Hij Hj.
      replace i with (first + (i - first)) by lia.
      replace j with (first + (j - first)) by lia.
      rewrite !Hout by lia. rewrite !HK1.
      destruct (Nat.eqb_spec (j - first) 0); [lia|].
      destruct (Nat.eqb_spec (j - first) n); [lia|].
      destruct (Nat.eqb_spec (i - first) 0) as [Hi0|Hi0].
      - assert (n = 0) by lia. subst n. rewrite Nat.add_0_r.
        specialize (Htail 0 (j - first)).
        rewrite Nat.add_0_r in Htail. apply Htail; lia.
      - destruct (Nat.eqb_spec (i - first) n) as [Hin|Hin].
        + specialize (Htail 0 (j - first)).
          rewrite Nat.add_0_r in Htail. apply Htail; lia.
        + replace (first + (i - first)) with i by lia.
          replace (first + (j - first)) with j by lia.
          apply Hsorted; lia. }
    { intros p q Hp Hq1 Hq2. rewrite Hout by lia.
      assert (Hge : forall k, first <= k -> k < first + n ->
                              (K l1 (first + q) <= K l2 k)%Z).
      { apply (within_K_all first (first + n) l1 l2
                 (fun z => (K l1 (first + q) <= z)%Z) Hw2).
        intros k Hk1 Hk2. replace k with (first + (k - first)) by lia.
        rewrite !HK1.
        destruct (Nat.eqb_spec q 0); [lia|].
        destruct (Nat.eqb_spec (k - first) n); [lia|].
        destruct (Nat.eqb_spec q n) as [->|Hqn].
        - destruct (Nat.eqb_spec (k - first) 0).
          + apply Hmin; lia.
          + apply Hmin; lia.
        - destruct (Nat.eqb_spec (k - first) 0).
          + apply Htail; lia.
          + apply Htail; lia. }
      apply Hge; lia. }
    split; [|exact Hs3].
    eapply within_trans; [exact Hw1|].
    eapply within_trans; [|exact Hw3]. eapply within_weaken; [| |exact Hw2]; lia.
Qed.

Lemma heapSort_spec (l : list A) a b :
  a <= b -> b <= length l ->
  within a b l (heapSort_func less l a b)
  /\ sorted_on (heapSort_func less l a b) a b.
Proof.
  intros Hab Hb. unfold heapSort_func.
  destruct (heap_build ((b - a - 1) / 2 + 1) l (b - a) a) as [Hw1 Hh1]; try lia.
  { intros p Hp c Hc Hch.
    pose proof (Nat.div_mod_eq (b - a - 1) 2).
    pose proof (Nat.mod_upper_bound (b - a - 1) 2 ltac:(lia)). lia. }
  set (l1 := fold_left _ _ l) in *.
  destruct (heap_pop (b - a) l1 (b - a) a) as [Hw2 Hs2]; try lia.
  { rewrite (within_length _ _ _ _ Hw1). lia. }
  { exact Hh1. }
  { intros i j ? ? ?. lia. }
  replace (a + (b - a)) with b in * by lia.
  split; [eapply within_trans; eassumption|exact Hs2].
Qed.

(** *** reverseRange_func, breakPatterns_func, choosePivot_func *)

Lemma reverseRange_loop_within fuel : forall (l : list A) a b i j,
  a <= i -> j < b -> b <= length l -> within a b l (reverseRange_loop fuel l i j).
Proof.
  induction fuel as [|fuel IH]; intros l a b i j Hi Hj Hb; cbn [reverseRange_loop].
  - apply within_refl.
  - destruct (Nat.ltb_spec i j); [|apply within_refl].
    eapply within_trans; [apply (within_Swap a b l i j); lia|].
    apply IH; try lia. rewrite Swap_length. lia.
Qed.

Lemma reverseRange_within (l : list A) a b :
  a < b -> b <= length l -> within a b l (reverseRange_func l a b).
Proof. intros. apply reverseRange_loop_within; lia. Qed.

Lemma nextPowerOfTwo_bound len : 0 < len -> (nextPowerOfTwo len <= 2 * Z.of_nat len)%Z.
Proof.
  intros Hlen. unfold nextPowerOfTwo, bits_Len.
  destruct len as [|n]; [lia|].
  rewrite Z.shiftl_1_l.
  pose proof (Nat.log2_spec (S n) ltac:(lia)) as [Hlo _].
  rewrite Nat2Z.inj_succ, Z.pow_succ_r by lia.
  assert (2 ^ Z.of_nat (Nat.log2 (S n)) = Z.of_nat (2 ^ Nat.log2 (S n)))%Z as ->.
  { rewrite Nat2Z.inj_pow. reflexivity. }
  lia.
Qed.

Lemma breakPatterns_other_bound len random :
  0 < len ->
  let other := Z.to_nat (Z.land random (nextPowerOfTwo len - 1)) in
  (if len <=? other then other - len else other) < len.
Proof.
  intros Hlen other.
  assert (Hother : (0 <= Z.land random (nextPowerOfTwo len - 1) < nextPowerOfTwo len)%Z).
  { unfold nextPowerOfTwo. rewrite Z.shiftl_1_l.
    replace (2 ^ Z.of_nat (bits_Len len) - 1)%Z with (Z.ones (Z.of_nat (bits_Len len)))
      by (rewrite Z.ones_equiv; lia).
    rewrite Z.land_ones by lia. apply Z.mod_pos_bound. apply Z.pow_pos_nonneg; lia. }
  pose proof (nextPowerOfTwo_bound len Hlen).
  destruct (Nat.leb_spec len other); subst other; lia.
Qed.

Lemma breakPatterns_loop_within n : forall (l : list A) a b len idx i random,
  b <= length l -> len = b - a -> 0 < len ->
  a <= idx - 1 + i -> idx - 1 + i + n <= b ->
  within a b l (breakPatterns_loop n l a len idx i random).
Proof.
  induction n as [|n IH]; intros l a b len idx i random Hb Hlen Hpos Hlo Hhi;
    cbn [breakPatterns_loop].
  - apply within_refl.
  - pose proof (breakPatterns_other_bound len (xorshift_Next random) Hpos) as Hother.
    cbv zeta in Hother |- *.
    set (other := if len <=? _ then _ else _) in *.
    eapply within_trans.
    + apply (within_Swap a b l (idx - 1 + i) (a + other)); lia.
    + apply IH; try lia. rewrite Swap_length. lia.
Qed.

Lemma breakPatterns_within (l : list A) a b :
  b <= length l -> within a b l (breakPatterns_func l a b).
Proof.
  intros Hb. unfold breakPatterns_func.
  destruct (Nat.leb_spec 8 (b - a)) as [Hlen|]; [|apply within_refl].
  pose proof (Nat.div_mod_eq (b - a) 4).
  pose proof (Nat.mod_upper_bound (b - a) 4 ltac:(lia)).
  apply (breakPatterns_loop_within 3 l a b); lia.
Qed.

Lemma order2_func_in (l : list A) x y s :
  let r := order2_func less l x y s in
  (fst (fst r) = x /\ snd (fst r) = y) \/ (fst (fst r) = y /\ snd (fst r) = x).
Proof. unfold order2_func. destruct (Less less l y x); simpl; auto. Qed.

Lemma median_func_in (l : list A) x y z s :
  let m := fst (median_func less l x y z s) in m = x \/ m = y \/ m = z.
Proof.
  unfold median_func.
  pose proof (order2_func_in l x y s) as H1.
  destruct (order2_func less l x y s) as [[x1 y1] s1]. simpl in H1.
  pose proof (order2_func_in l y1 z s1) as H2.
  destruct (order2_func less l y1 z s1) as [[y2 z2] s2]. simpl in H2.
  pose proof (order2_func_in l x1 y2 s2) as H3.
  destruct (order2_func less l x1 y2 s2) as [[x3 y3] s3]. simpl in H3.
  simpl. intuition congruence.
Qed.

Lemma choosePivot_func_range (l : list A) a b :
  8 <= b - a ->
  a <= fst (choosePivot_func less l a b) /\ fst (choosePivot_func less l a b) < b.
Proof.
  intros Hlen. unfold choosePivot_func.
  pose proof (Nat.div_mod_eq (b - a) 4).
  pose proof (Nat.mod_upper_bound (b - a) 4 ltac:(lia)).
  set (q := (b - a) / 4) in *.
  destruct (Nat.leb_spec 8 (b - a)); [|lia].
  assert (Hpivot : forall i j k s,
             a <= i -> i < b -> a <= j -> j < b -> a <= k -> k < b ->
             a <= fst (median_func less l i j k s) /\ fst (median_func less l i j k s) < b).
  { intros i j k s ? ? ? ? ? ?. pose proof (median_func_in l i j k s) as Hm.
    cbv zeta in Hm. lia. }
  destruct (Nat.leb_spec shortestNinther (b - a)) as [Hbig|Hsmall].
  - unfold shortestNinther in Hbig. unfold medianAdjacent_func.
    pose proof (Hpivot (a + q * 1 - 1) (a + q * 1) (a + q * 1 + 1) 0
                  ltac:(lia) ltac:(lia) ltac:(lia) ltac:(lia) ltac:(lia) ltac:(lia)) as Hi.
    destruct (median_func less l (a + q * 1 - 1) (a + q * 1) (a + q * 1 + 1) 0)
      as [i1 s1]. simpl in Hi.
    pose proof (Hpivot (a + q * 2 - 1) (a + q * 2) (a + q * 2 + 1) s1
                  ltac:(lia) ltac:(lia) ltac:(lia) ltac:(lia) ltac:(lia) ltac:(lia)) as Hj.
    destruct (median_func less l (a + q * 2 - 1) (a + q * 2) (a + q * 2 + 1) s1)
      as [j1 s2]. simpl in Hj.
    pose proof (Hpivot (a + q * 3 - 1) (a + q * 3) (a + q * 3 + 1) s2
                  ltac:(lia) ltac:(lia) ltac:(lia) ltac:(lia) ltac:(lia) ltac:(lia)) as Hk.
    destruct (median_func less l (a + q * 3 - 1) (a + q * 3) (a + q * 3 + 1) s2)
      as [k1 s3]. simpl in Hk.
    pose proof (Hpivot i1 j1 k1 s3 ltac:(lia) ltac:(lia) ltac:(lia) ltac:(lia)
                  ltac:(lia) ltac:(lia)) as Hm.
    destruct (median_func less l i1 j1 k1 s3) as [m s4]. simpl in Hm.
    destruct (s4 =? 0); [exact Hm|]. destruct (s4 =? maxSwaps); exact Hm.
  - pose proof (Hpivot (a + q * 1) (a + q * 2) (a + q * 3) 0
                  ltac:(lia) ltac:(lia) ltac:(lia) ltac:(lia) ltac:(lia) ltac:(lia)) as Hm.
    destruct (median_func less l (a + q * 1) (a + q * 2) (a + q * 3) 0) as [m s4].
    simpl in Hm.
    destruct (s4 =? 0); [exact Hm|]. destruct (s4 =? maxSwaps); exact Hm.
Qed.

(** *** partialInsertionSort_func *)

Lemma bounded_within a b (l l' : list A) :
  within a b l l' -> bounded_by_left l a b -> bounded_by_left l' a b.
Proof.
  intros Hw [Ha|Hbound]; [now left|].
  destruct (Nat.eq_dec a 0) as [Ha|Ha]; [now left|]. right.
  rewrite (within_K_outside a b l l' (a - 1) Hw) by lia.
  apply (within_K_all a b l l' (fun z => (z <= K l (a - 1))%Z) Hw). exact Hbound.
Qed.

Lemma sorted_on_extend (l : list A) a i :
  a < i -> sorted_on l a i -> (K l i <= K l (i - 1))%Z -> sorted_on l a (i + 1).
Proof.
  intros Hai Hs Hi p q Hp Hpq Hq.
  destruct (Nat.eq_dec q i) as [->|Hqi]; [|apply Hs; lia].
  destruct (Nat.eq_dec p (i - 1)) as [->|Hpi]; [exact Hi|].
  assert (K l (i - 1) <= K l p)%Z by (apply Hs; lia). lia.
Qed.

Lemma scan_sorted_spec fuel : forall (l : list A) a i b,
  a < i -> b <= length l -> sorted_on l a i ->
  let i' := scan_sorted less fuel l i b in
  i <= i' /\ (i <= b -> i' <= b) /\ sorted_on l a i'
  /\ (b - i <= fuel -> i' < b -> (K l i' > K l (i' - 1))%Z).
Proof.
  induction fuel as [|fuel IH]; intros l a i b Hai Hb Hs; cbn [scan_sorted].
  - repeat split; try lia; auto.
  - destruct (Nat.ltb_spec i b) as [Hib|Hib]; cbn [andb].
    + rewrite Less_K by lia.
      destruct (Z.gtb_spec (K l i) (K l (i - 1))) as [Hgt|Hle]; cbn [negb].
      * repeat split; try lia; auto.
      * destruct (IH l a (i + 1) b ltac:(lia) Hb (sorted_on_extend l a i Hai Hs Hle))
          as (H1 & H2 & H3 & H4).
        split; [lia|]. split; [intros _; apply H2; lia|]. split; [exact H3|].
        intros ? ?. apply H4; lia.
    + repeat split; try lia; auto.
Qed.

Lemma shift_left_spec j : forall (l : list A) a t,
  a <= j -> j <= t -> t < length l ->
  (a = 0 \/ forall k, a <= k -> k <= t -> (K l k <= K l (a - 1))%Z) ->
  (forall p q, a <= p -> p < q -> q <= t -> p <> j -> q <> j -> (K l q <= K l p)%Z) ->
  (forall q, j < q -> q <= t -> (K l q < K l j)%Z) ->
  within a (t + 1) l (shift_left less j l)
  /\ sorted_on (shift_left less j l) a (t + 1).
Proof.
  induction j as [|j IH]; intros l a t Haj Hjt Ht Hbound I1 I2; cbn [shift_left].
  - split; [apply within_refl|].
    intros p q Hp Hpq Hq. destruct (Nat.eq_dec p 0) as [->|Hp0].
    + specialize (I2 q). lia.
    + apply I1; lia.
  - rewrite Less_K by lia.
    destruct (Z.gtb_spec (K l (S j)) (K l j)) as [Hless|Hnot]; cbn [negb].
    + assert (Ha : a < S j).
      { destruct Hbound as [->|Hbound]; [lia|].
        destruct (Nat.eq_dec a (S j)) as [Heq|]; [|lia].
        specialize (Hbound a ltac:(lia) ltac:(lia)).
        rewrite Heq in Hbound. replace (S j - 1) with j in Hbound by lia. lia. }
      assert (Hw : within a (t + 1) l (Swap l (S j) j)) by (apply within_Swap; lia).
      destruct (IH (Swap l (S j) j) a t) as [Hw' Hs]; try lia.
      { now rewrite Swap_length. }
      { destruct Hbound as [Hz|Hbound]; [now left|].
        destruct (Nat.eq_dec a 0) as [Hz|Hz]; [now left|]. right.
        intros k Hk1 Hk2. rewrite !K_Swap by lia.
        destruct (Nat.eqb_spec (a - 1) (S j)); [lia|].
        destruct (Nat.eqb_spec (a - 1) j); [lia|].
        destruct (k =? S j); [apply Hbound; lia|].
        destruct (k =? j); apply Hbound; lia. }
      { intros p q Hp Hpq Hq Hpj Hqj. rewrite !K_Swap by lia.
        destruct (Nat.eqb_spec q (S j)) as [->|Hq1];
          destruct (Nat.eqb_spec p (S j)) as [->|Hp1]; try lia.
        - destruct (Nat.eqb_spec p j); [lia|]. apply I1; lia.
        - destruct (Nat.eqb_spec q j); [lia|]. apply I1; lia.
        - destruct (Nat.eqb_spec q j); [lia|]. destruct (Nat.eqb_spec p j); [lia|].
          apply I1; lia. }
      { intros q Hq1 Hq2. rewrite !K_Swap by lia.
        rewrite Nat.eqb_refl.
        destruct (Nat.eqb_spec j (S j)); [lia|].
        destruct (Nat.eqb_spec q (S j)) as [->|Hq3]; [lia|].
        destruct (Nat.eqb_spec q j); [lia|].
        apply I2; lia. }
      split; [|exact Hs]. eapply within_trans; eassumption.
    + split; [apply within_refl|].
      intros p q Hp Hpq Hq.
      destruct (Nat.eq_dec p (S j)) as [->|Hp1]; [specialize (I2 q); lia|].
      destruct (Nat.eq_dec q (S j)) as [->|Hq1]; [|apply I1; lia].
      destruct (Nat.eq_dec p j) as [->|Hpj]; [lia|].
      assert (K l j <= K l p)%Z by (apply I1; lia). lia.
Qed.

Lemma shift_right_within fuel : forall (l : list A) lo j b,
  lo + 1 <= j -> b <= length l -> within lo b l (shift_right less fuel l j b).
Proof.
  induction fuel as [|fuel IH]; intros l lo j b Hj Hb; cbn [shift_right].
  - apply within_refl.
  - destruct (Nat.ltb_spec j b); [|apply within_refl].
    destruct (negb _); [apply within_refl|].
    eapply within_trans; [apply (within_Swap lo b l j (j - 1)); lia|].
    apply IH; try lia. rewrite Swap_length. lia.
Qed.

Lemma partialInsertionSort_loop_spec steps : forall (l : list A) a b i,
  a < i -> i <= b -> b <= length l ->
  bounded_by_left l a b -> sorted_on l a i ->
  let r := partialInsertionSort_loop less steps l a b i in
  within a b l (fst r) /\ (snd r = true -> sorted_on (fst r) a b).
Proof.
  induction steps as [|steps IH]; intros l a b i Hai Hib Hb Hbound Hs;
    cbn [partialInsertionSort_loop].
  - simpl. split; [apply within_refl|discriminate].
  - destruct (scan_sorted_spec (b - i) l a i b Hai Hb Hs) as (S1 & S2 & S3 & S4).
    set (i1 := scan_sorted less (b - i) l i b) in *.
    destruct (Nat.eqb_spec i1 b) as [Heq|Hne].
    { simpl. split; [apply within_refl|]. intros _. now rewrite <- Heq. }
    destruct (Nat.ltb_spec (b - a) shortestShifting).
    { simpl. split; [apply within_refl|discriminate]. }
    assert (Hi1 : i1 < b) by lia.
    set (l1 := Swap l i1 (i1 - 1)).
    assert (Hw1 : within a b l l1) by (apply within_Swap; lia).
    assert (Hlen1 : length l1 = length l) by apply Swap_length.
    set (l2 := if 2 <=? i1 - a then shift_left less (i1 - 1) l1 else l1).
    assert (H2 : within a i1 l1 l2 /\ sorted_on l2 a i1).
    { unfold l2. destruct (Nat.leb_spec 2 (i1 - a)) as [Hshift|Hno].
      - destruct (shift_left_spec (i1 - 1) l1 a (i1 - 1)) as [Hw Hsorted]; try lia.
        + pose proof (bounded_within a b l l1 Hw1 Hbound) as [Hz|Hb1]; [now left|].
          right. intros k ? ?. apply Hb1; lia.
        + intros p q Hp Hpq Hq Hpj Hqj. unfold l1. rewrite !K_Swap by lia.
          destruct (Nat.eqb_spec q i1); [lia|]. destruct (Nat.eqb_spec q (i1 - 1)); [lia|].
          destruct (Nat.eqb_spec p i1); [lia|]. destruct (Nat.eqb_spec p (i1 - 1)); [lia|].
          apply S3; lia.
        + replace (i1 - 1 + 1) with i1 in * by lia. auto.
      - split; [apply within_refl|]. intros p q ? ? ?. lia. }
    destruct H2 as [Hw2 Hs2].
    assert (Hlen2 : length l2 = length l) by (rewrite (within_length _ _ _ _ Hw2); lia).
    set (l3 := if 2 <=? b - i1 then shift_right less (b - i1) l2 (i1 + 1) b else l2).
    assert (Hw3 : within i1 b l2 l3).
    { unfold l3. destruct (2 <=? b - i1); [|apply within_refl].
      apply shift_right_within; lia. }
    assert (Hw : within a b l l3).
    { eapply within_trans; [exact Hw1|]. eapply within_trans.
      - eapply within_weaken; [| |exact Hw2]; lia.
      - eapply within_weaken; [| |exact Hw3]; lia. }
    destruct (IH l3 a b i1) as [Hw4 Hdone]; try lia.
    { rewrite (within_length _ _ _ _ Hw). exact Hb. }
    { apply (bounded_within a b l l3 Hw Hbound). }
    { intros p q Hp Hpq Hq.
      rewrite !(within_K_outside i1 b l2 l3 _ Hw3) by lia. apply Hs2; lia. }
    split; [eapply within_trans; eassumption|exact Hdone].
Qed.

Lemma partialInsertionSort_spec (l : list A) a b :
  a < b -> b <= length l -> bounded_by_left l a b ->
  let r := partialInsertionSort_func less l a b in
  within a b l (fst r) /\ (snd r = true -> sorted_on (fst r) a b).
Proof.
  intros Hab Hb Hbound. unfold partialInsertionSort_func.
  apply partialInsertionSort_loop_spec; try lia; auto.
  intros p q ? ? ?. lia.
Qed.

End GoSortOrder.

(** ** The loop of pdqsort_func leaves its range in descending key order *)

Section GoSortOrderMain.
Import GoSort.
Local Open Scope nat_scope.
Context {A : Type} (key : A -> Z) (d : A).
Local Abbreviation less := (SortSpec.less key).
Local Abbreviation K := (SortSpec.K key d).
Local Abbreviation sorted_on := (SortSpec.sorted_on key d).
Local Abbreviation within := (SortSpec.within d).
Local Abbreviation bounded_by_left := (SortSpec.bounded_by_left key d).

Lemma bounded_restrict (l : list A) a b b' :
  b' <= b -> bounded_by_left l a b -> bounded_by_left l a b'.
Proof. intros Hle [Hz|Hb]; [now left|]. right. intros k ? ?. apply Hb; lia. Qed.

Lemma bounded_outside a b a' b' (l l' : list A) :
  within a' b' l l' -> b <= a' -> bounded_by_left l a b -> bounded_by_left l' a b.
Proof.
  intros Hw Hle [Hz|Hb]; [now left|].
  destruct (Nat.eq_dec a 0); [now left|]. right. intros k ? ?.
  rewrite !(within_K_outside key d a' b' l l' _ Hw) by lia. apply Hb; lia.
Qed.

Lemma sorted_glue (l : list A) a mid b :
  sorted_on l a mid -> sorted_on l (mid + 1) b ->
  (forall k, a <= k -> k < mid -> (K l k > K l mid)%Z) ->
  (forall k, mid < k -> k < b -> (K l k <= K l mid)%Z) ->
  sorted_on l a b.
Proof.
  intros H1 H2 H3 H4 i j Hi Hij Hj.
  destruct (Nat.lt_ge_cases j mid); [apply H1; lia|].
  destruct (Nat.eq_dec j mid) as [->|]; [specialize (H3 i); lia|].
  destruct (Nat.lt_ge_cases i mid).
  - specialize (H3 i); specialize (H4 j); lia.
  - destruct (Nat.eq_dec i mid) as [->|]; [apply H4; lia|apply H2; lia].
Qed.

Lemma pdqsort_partition_branch (l3 : list A) a b pivot2 limit' ap'
  (rec : list A -> nat -> nat -> nat -> bool -> bool -> list A) :
  (forall (l : list A) a' b' limit wb wp,
     b' - a' < b - a -> b' <= length l -> bounded_by_left l a' b' ->
     within a' b' l (rec l a' b' limit wb wp)
     /\ sorted_on (rec l a' b' limit wb wp) a' b') ->
  a <= pivot2 -> pivot2 < b -> b <= length l3 -> bounded_by_left l3 a b ->
  forall r,
  r = (let '(l, mid, alreadyPartitioned) := partition_func less l3 a b pivot2 in
       if mid - a <? b - mid then
         rec (rec l a mid limit' true true) (mid + 1) b limit'
           (ap' <=? mid - a) alreadyPartitioned
       else
         rec (rec l (mid + 1) b limit' true true) a mid limit'
           (ap' <=? b - mid) alreadyPartitioned) ->
  within a b l3 r /\ sorted_on r a b.
Proof.
  intros IH Hp1 Hp2 Hb Hbound r ->.
  pose proof (partition_func_spec key d l3 a b pivot2 Hp1 Hp2 Hb) as HP.
  destruct (partition_func less l3 a b pivot2) as [[l4 mid] ap].
  cbv zeta in HP. cbn [fst snd] in HP. destruct HP as (W4 & Hm1 & Hm2 & HL & HR).
  pose proof (within_length d _ _ _ _ W4) as Hlen4.
  pose proof (bounded_within key d a b l3 l4 W4 Hbound) as B4.
  destruct (mid - a <? b - mid).
  - destruct (IH l4 a mid limit' true true) as [W5 S5];
      [lia|lia|apply (bounded_restrict l4 a b mid); [lia|exact B4]|].
    match type of W5 with SortSpec.within _ _ _ _ ?t => set (l5 := t) in * end.
    pose proof (within_length d _ _ _ _ W5) as Hlen5.
    assert (HL5 : forall k, a <= k -> k < mid -> (K l5 k > K l5 mid)%Z).
    { rewrite (within_K_outside key d a mid l4 l5 mid W5) by lia.
      apply (within_K_all key d a mid l4 l5 (fun z => (z > K l4 mid)%Z) W5). exact HL. }
    assert (HR5 : forall k, mid < k -> k < b -> (K l5 k <= K l5 mid)%Z).
    { intros k ? ?. rewrite !(within_K_outside key d a mid l4 l5 _ W5) by lia.
      apply HR; lia. }
    destruct (IH l5 (mid + 1) b limit' (ap' <=? mid - a) ap) as [W6 S6]; [lia|lia| |].
    { right. intros k ? ?. replace (mid + 1 - 1) with mid by lia. apply HR5; lia. }
    match type of W6 with SortSpec.within _ _ _ _ ?t => set (R := t) in * end.
    split.
    + eapply within_trans; [exact W4|]. eapply within_trans.
      * eapply within_weaken; [| |exact W5]; lia.
      * eapply within_weaken; [| |exact W6]; lia.
    + apply (sorted_glue R a mid b).
      * intros i j ? ? ?. rewrite !(within_K_outside key d (mid + 1) b l5 R _ W6) by lia.
        apply S5; lia.
      * exact S6.
      * intros k ? ?. rewrite !(within_K_outside key d (mid + 1) b l5 R _ W6) by lia.
        apply HL5; lia.
      * rewrite (within_K_outside key d (mid + 1) b l5 R mid W6) by lia.
        intros k ? ?.
        apply (within_K_all key d (mid + 1) b l5 R (fun z => (z <= K l5 mid)%Z) W6);
          [|lia|lia].
        intros k' ? ?. apply HR5; lia.
  - assert (B4r : bounded_by_left l4 (mid + 1) b).
    { right. intros k ? ?. replace (mid + 1 - 1) with mid by lia. apply HR; lia. }
    destruct (IH l4 (mid + 1) b limit' true true) as [W5 S5]; [lia|lia|exact B4r|].
    match type of W5 with SortSpec.within _ _ _ _ ?t => set (l5 := t) in * end.
    pose proof (within_length d _ _ _ _ W5) as Hlen5.
    assert (HL5 : forall k, a <= k -> k < mid -> (K l5 k > K l5 mid)%Z).
    { intros k ? ?. rewrite !(within_K_outside key d (mid + 1) b l4 l5 _ W5) by lia.
      apply HL; lia. }
    assert (HR5 : forall k, mid < k -> k < b -> (K l5 k <= K l5 mid)%Z).
    { rewrite (within_K_outside key d (mid + 1) b l4 l5 mid W5) by lia.
      intros k ? ?.
      apply (within_K_all key d (mid + 1) b l4 l5 (fun z => (z <= K l4 mid)%Z) W5);
        [|lia|lia].
      intros k' ? ?. apply HR; lia. }
    destruct (IH l5 a mid limit' (ap' <=? b - mid) ap) as [W6 S6]; [lia|lia| |].
    { apply (bounded_outside a mid (mid + 1) b l4 l5 W5); [lia|].
      apply (bounded_restrict l4 a b mid); [lia|exact B4]. }
    match type of W6 with SortSpec.within _ _ _ _ ?t => set (R := t) in * end.
    split.
    + eapply within_trans; [exact W4|]. eapply within_trans.
      * eapply within_weaken; [| |exact W5]; lia.
      * eapply within_weaken; [| |exact W6]; lia.
    + apply (sorted_glue R a mid b).
      * exact S6.
      * intros i j ? ? ?. rewrite !(within_K_outside key d a mid l5 R _ W6) by lia.
        apply S5; lia.
      * rewrite (within_K_outside key d a mid l5 R mid W6) by lia.
        apply (within_K_all key d a mid l5 R (fun z => (z > K l5 mid)%Z) W6). exact HL5.
      * intros k ? ?. rewrite !(within_K_outside key d a mid l5 R _ W6) by lia.
        apply HR5; lia.
Qed.

Lemma pdqsort_loop_spec fuel : forall (l : list A) a b limit wb wp,
  b - a < fuel -> b <= length l -> bounded_by_left l a b ->
  within a b l (pdqsort_loop less fuel l a b limit wb wp)
  /\ sorted_on (pdqsort_loop less fuel l a b limit wb wp) a b.
Proof.
  induction fuel as [|fuel IH]; intros l a b limit wb wp Hfuel Hb Hbound; [lia|].
  cbn [pdqsort_loop]. cbv zeta.
  destruct (Nat.leb_spec (b - a) maxInsertion) as [Hsmall|Hbig].
  { apply insertionSort_spec; exact Hb. }
  unfold maxInsertion in Hbig.
  destruct (limit =? 0).
  { apply heapSort_spec; lia. }
  set (l1 := if wb then l else breakPatterns_func l a b).
  assert (W1 : within a b l l1).
  { unfold l1. destruct wb; [apply within_refl|apply breakPatterns_within; exact Hb]. }
  pose proof (within_length d _ _ _ _ W1) as Hlen1.
  generalize (if wb then limit else limit - 1). intros limit'.
  pose proof (choosePivot_func_range key d l1 a b ltac:(lia)) as Hpr.
  destruct (choosePivot_func less l1 a b) as [pivot hint]. cbn [fst] in Hpr.
  match goal with
  | |- context [if is_decreasing hint then ?x else ?y] =>
      set (s2 := if is_decreasing hint then x else y)
  end.
  assert (H2 : within a b l1 (fst (fst s2)) /\ a <= snd (fst s2) /\ snd (fst s2) < b).
  { unfold s2. destruct (is_decreasing hint); cbn [fst snd]; split; try lia.
    - apply reverseRange_within; lia.
    - apply within_refl. }
  destruct s2 as [[l2 pivot2] hint2]. cbn [fst snd] in H2. destruct H2 as (W2 & Hp1 & Hp2).
  pose proof (within_length d _ _ _ _ W2) as Hlen2.
  assert (W12 : within a b l l2) by (eapply within_trans; eassumption).
  match goal with
  | |- context [if ?c then partialInsertionSort_func less l2 a b else ?y] =>
      set (s3 := if c then partialInsertionSort_func less l2 a b else y)
  end.
  assert (H3 : within a b l2 (fst s3) /\ (snd s3 = true -> sorted_on (fst s3) a b)).
  { unfold s3. destruct (wb && wp && is_increasing hint2).
    - apply partialInsertionSort_spec; [lia|lia|].
      apply (bounded_within key d a b l l2 W12 Hbound).
    - cbn [fst snd]. split; [apply within_refl|discriminate]. }
  destruct s3 as [l3 done]. cbn [fst snd] in H3. destruct H3 as [W3 Hdone].
  pose proof (within_length d _ _ _ _ W3) as Hlen3.
  assert (W13 : within a b l l3) by (eapply within_trans; eassumption).
  pose proof (bounded_within key d a b l l3 W13 Hbound) as B3.
  destruct done.
  { split; [exact W13|apply Hdone; reflexivity]. }
  assert (Hpart : forall r,
    r = (let '(l, mid, alreadyPartitioned) := partition_func less l3 a b pivot2 in
         if mid - a <? b - mid then
           pdqsort_loop less fuel (pdqsort_loop less fuel l a mid limit' true true)
             (mid + 1) b limit' ((b - a) / 8 <=? mid - a) alreadyPartitioned
         else
           pdqsort_loop less fuel (pdqsort_loop less fuel l (mid + 1) b limit' true true)
             a mid limit' ((b - a) / 8 <=? b - mid) alreadyPartitioned) ->
    within a b l r /\ sorted_on r a b).
  { intros r Hr.
    destruct (pdqsort_partition_branch l3 a b pivot2 limit' ((b - a) / 8)
                (pdqsort_loop less fuel)) with (r := r) as [Wr Sr]; auto; try lia.
    - intros l0 a' b' lim wb0 wp0 ? ? ?. apply IH; auto. lia.
    - split; [|exact Sr]. eapply within_trans; eassumption. }
  destruct (Nat.ltb_spec 0 a) as [Hapos|Hazero]; cbn [andb]; [|apply Hpart; reflexivity].
  rewrite Less_K with (key := key) (d := d) by lia.
  destruct (Z.gtb_spec (K l3 (a - 1)) (K l3 pivot2)) as [Hgt|Hle]; cbn [negb];
    [apply Hpart; reflexivity|].
  destruct B3 as [Hz|B3]; [lia|].
  assert (Hpre : forall k, a <= k -> k < b -> (K l3 k <= K l3 pivot2)%Z).
  { intros k ? ?. specialize (B3 k ltac:(lia) ltac:(lia)). lia. }
  pose proof (partitionEqual_func_spec key d l3 a b pivot2 Hp1 Hp2 ltac:(lia) Hpre) as HP.
  destruct (partitionEqual_func less l3 a b pivot2) as [l4 mid].
  cbv zeta in HP. cbn [fst snd] in HP. destruct HP as (W4 & Hm1 & Hm2 & HE & HS).
  pose proof (within_length d _ _ _ _ W4) as Hlen4.
  destruct (IH l4 mid b limit' wb wp) as [W5 S5]; [lia|lia| |].
  { right. intros k ? ?.
    rewrite (HE (mid - 1)) by lia. specialize (HS k ltac:(lia) ltac:(lia)). lia. }
  match type of W5 with SortSpec.within _ _ _ _ ?t => set (R := t) in * end.
  split.
  - eapply within_trans; [exact W13|]. eapply within_trans; [exact W4|].
    eapply within_weaken; [| |exact W5]; lia.
  - intros i j Hi Hij Hj.
    assert (HSR : forall k, mid <= k -> k < b -> (K R k < K l3 pivot2)%Z).
    { apply (within_K_all key d mid b l4 R (fun z => (z < K l3 pivot2)%Z) W5). exact HS. }
    destruct (Nat.lt_ge_cases i mid) as [Him|Him]; [|apply S5; lia].
    rewrite (within_K_outside key d mid b l4 R i W5) by lia.
    rewrite (HE i) by lia.
    destruct (Nat.lt_ge_cases j mid) as [Hjm|Hjm].
    + rewrite (within_K_outside key d mid b l4 R j W5) by lia.
      rewrite (HE j) by lia. lia.
    + specialize (HSR j ltac:(lia) ltac:(lia)). lia.
Qed.

Lemma pdqsort_func_spec (l : list A) limit :
  length (pdqsort_func less l 0 (length l) limit) = length l
  /\ sorted_on (pdqsort_func less l 0 (length l) limit) 0 (length l).
Proof.
  unfold pdqsort_func.
  destruct (pdqsort_loop_spec (S (length l - 0)) l 0 (length l) limit true true)
    as [Hw Hs]; [lia|lia|now left|].
  split; [apply (within_length d _ _ _ _ Hw)|exact Hs].
Qed.

Lemma sorted_on_StronglySorted (l : list A) :
  sorted_on l 0 (length l) -> StronglySorted (fun x y => (key y <= key x)%Z) l.
Proof.
  induction l as [|x l IH]; intros Hs; constructor.
  - apply IH. intros i j Hi Hij Hj. apply (Hs (S i) (S j)); simpl; lia.
  - apply List.Forall_forall. intros y Hy.
    destruct (In_nth l y d Hy) as (n & Hn & <-).
    apply (Hs 0 (S n)); simpl; lia.
Qed.

End GoSortOrderMain.

Section SliceOrder.
Import GoSort.
Local Open Scope nat_scope.
Context {A : Type} (key : A -> Z).

Lemma Slice_sorted (l : list A) :
  StronglySorted (fun x y => (key y <= key x)%Z) (Slice (SortSpec.less key) l).
Proof.
  destruct l as [|d l']; [constructor|].
  set (l := d :: l'). unfold Slice.
  destruct (pdqsort_func_spec key d l (bits_Len (length l))) as [Hlen Hs].
  apply (sorted_on_StronglySorted key d). rewrite Hlen. exact Hs.
Qed.

End SliceOrder.

(** ** Route compiler *)

Section CompilerFacts.
Import Meta Compiler.

Lemma FindStatusCondition_set conds c :
  FindStatusCondition (SetStatusCondition conds c) (Type_ c) = Some c.
Proof.
  induction conds as [|d conds IH]; simpl.
  - now rewrite String.eqb_refl.
  - destruct (String.eqb (Type_ d) (Type_ c)) eqn:Heq; simpl.
    + now rewrite String.eqb_refl.
    + now rewrite Heq.
Qed.

Lemma compileRouteConfig_rules_perm route backends :
  Compiled.Rules (compileRouteConfig route backends)
  ≡ₚ map (compile_rule (RouteNamespace route) (backendMap_of backends)) (Rules (Spec route)).
Proof. unfold compileRouteConfig. simpl. apply Slice_perm. Qed.

(** C3 (as amended). The route compiler does not compile or validate
    match.intentRegex.  Every rule of the Route, whatever its pattern, is
    emitted with its name and its pattern copied verbatim (the emitted rules
    are a permutation of the per-rule compilations), and when the status is
    stored the Ready condition carries one of the reasons AllBackendsReady,
    BackendsNotReady and ConfigMapUpdateFailed, never InvalidRegex: with the
    table published, the Route is ready exactly when all its backends
    are. *)
Theorem Reconcile_copies_intent_regex (env : Env) (route : Route) :
  let backends := fst (resolveBackends env route) in
  let allReady := snd (resolveBackends env route) in
  let emitted := Compiled.Rules (compileRouteConfig route backends) in
  let o := Reconcile env route in
  emitted ≡ₚ map (compile_rule (RouteNamespace route) (backendMap_of backends))
             (Rules (Spec route))
  /\ (forall r, In r (Rules (Spec route)) ->
        exists c, In c emitted /\ Compiled.Name c = Name r
                  /\ Compiled.IntentRegex (Compiled.Match c) = IntentRegex (Match r))
  /\ (status_update env = UpdateOk ->
        exists c, FindStatusCondition (Conditions (Status_ (stored o))) "Ready" = Some c
                  /\ (Reason c = "AllBackendsReady" \/ Reason c = "BackendsNotReady"
                      \/ Reason c = "ConfigMapUpdateFailed")
                  /\ Reason c <> "InvalidRegex"
                  /\ (routes_config_map_err env = None ->
                        published o = Some (compileRouteConfig route backends)
                        /\ Ready (Status_ (stored o)) = allReady
                        /\ (Status c = ConditionTrue <-> allReady = true))).
Proof.
  cbv zeta. split; [apply compileRouteConfig_rules_perm|]. split.
  - intros r Hr.
    exists (compile_rule (RouteNamespace route)
              (backendMap_of (fst (resolveBackends env route))) r).
    split; [|split; reflexivity].
    eapply Permutation_in; [symmetry; apply compileRouteConfig_rules_perm|].
    now apply in_map.
  - intros Hupd. unfold Reconcile.
    destruct (resolveBackends env route) as [backends allReady]. simpl fst. simpl snd.
    rewrite Hupd.
    destruct (routes_config_map_err env) as [e|]; simpl.
    + eexists. split; [apply (FindStatusCondition_set _ (ready_condition _ _ _ _))|].
      simpl. split; [auto|]. split; [discriminate|]. discriminate.
    + destruct allReady.
      * eexists. split; [apply (FindStatusCondition_set _ (ready_condition _ _ _ _))|].
        simpl. split; [auto|]. split; [discriminate|]. intros _. repeat split; auto.
      * eexists. split; [apply (FindStatusCondition_set _ (ready_condition _ _ _ _))|].
        simpl. split; [auto|]. split; [discriminate|]. intros _.
        repeat split; auto; discriminate.
Qed.

Lemma Reconcile_copies_intent_regex_witness :
  exists c, In c (Compiled.Rules (compileRouteConfig Samples.route_bad_regex
                                    (fst (resolveBackends Samples.compiler_env
                                            Samples.route_bad_regex))))
            /\ Compiled.Name c = "bad"
            /\ Compiled.IntentRegex (Compiled.Match c) = "(".
Proof.
  destruct (Reconcile_copies_intent_regex Samples.compiler_env Samples.route_bad_regex)
    as (_ & Hcopy & _).
  apply (Hcopy (nth 1 (Rules (Spec Samples.route_bad_regex)) (Samples.plain_rule "" None ""))).
  simpl. right. left. reflexivity.
Defined.

(** C3 as stated fails: a Route whose rule carries the pattern "(", which
    regexp.Compile rejects, is reconciled to Ready with the reason
    AllBackendsReady, the pattern is published as it is, and the gateway
    rejects the whole published table when it loads it. *)
Lemma Reconcile_invalid_regex_counterexample :
  let o := Reconcile Samples.compiler_env Samples.route_bad_regex in
  Routes.regexp_Compile_err Samples.routes_lib "(" <> None
  /\ err o = None
  /\ Ready (Status_ (stored o)) = true
  /\ option_map Reason (FindStatusCondition (Conditions (Status_ (stored o))) "Ready")
     = Some "AllBackendsReady"
  /\ option_map (fun cfg => map (fun c => Compiled.IntentRegex (Compiled.Match c))
                              (Compiled.Rules cfg)) (published o)
     = Some ["cost"; "("]
  /\ (exists e, Routes.LoadFromJSON Samples.routes_lib Samples.loaded_table
                  (Samples.table_json "(") = (Samples.loaded_table, Some e))
  /\ ~ (forall env route r,
          In r (Rules (Spec route)) -> IntentRegex (Match r) = "(" ->
          status_update env = UpdateOk ->
          Ready (Status_ (stored (Reconcile env route))) = false
          /\ option_map Reason
               (FindStatusCondition (Conditions (Status_ (stored (Reconcile env route))))
                  "Ready") = Some "InvalidRegex").
Proof.
  cbv zeta. split; [discriminate|]. split; [reflexivity|].
  split; [vm_compute; reflexivity|]. split; [vm_compute; reflexivity|].
  split; [vm_compute; reflexivity|]. split; [eexists; vm_compute; reflexivity|].
  intros H.
  destruct (H Samples.compiler_env Samples.route_bad_regex
              (nth 1 (Rules (Spec Samples.route_bad_regex)) (Samples.plain_rule "" None "")))
    as [Hready _].
  - simpl. right. left. reflexivity.
  - reflexivity.
  - reflexivity.
  - vm_compute in Hready. discriminate.
Qed.

(** C4 (as amended). The emitted rules are the compiled rules of the Route
    rearranged by sort.Slice: always a permutation of them in descending
    priority order; and for a Route of at most twelve rules, rules of equal
    priority keep their spec order. *)
Theorem compileRouteConfig_rule_order (route : Route) (backends : list BackendStatus) :
  let compiled := map (compile_rule (RouteNamespace route) (backendMap_of backends))
                    (Rules (Spec route)) in
  let emitted := Compiled.Rules (compileRouteConfig route backends) in
  emitted ≡ₚ compiled
  /\ StronglySorted (fun x y => Compiled.Priority y <= Compiled.Priority x) emitted
  /\ ((length (Rules (Spec route)) <= 12)%nat ->
        forall p,
          List.filter (fun c => Compiled.Priority c =? p) emitted
          = List.filter (fun c => Compiled.Priority c =? p) compiled).
Proof.
  cbv zeta. split; [apply compileRouteConfig_rules_perm|].
  split; [apply (Slice_sorted Compiled.Priority)|].
  intros Hlen. unfold compileRouteConfig. simpl.
  apply (Slice_small_stable Compiled.Priority). now rewrite length_map.
Qed.

Lemma compileRouteConfig_rule_order_witness :
  map Compiled.Name
    (Compiled.Rules (compileRouteConfig Samples.route_bad_regex
                       (fst (resolveBackends Samples.compiler_env Samples.route_bad_regex))))
  = ["good"; "bad"]
  /\ forall p,
       List.filter (fun c => Compiled.Priority c =? p)
         (Compiled.Rules (compileRouteConfig Samples.route_bad_regex
                            (fst (resolveBackends Samples.compiler_env
                                    Samples.route_bad_regex))))
       = List.filter (fun c => Compiled.Priority c =? p)
           (map (compile_rule (RouteNamespace Samples.route_bad_regex)
                   (backendMap_of (fst (resolveBackends Samples.compiler_env
                                          Samples.route_bad_regex))))
              (Rules (Spec Samples.route_bad_regex))).
Proof.
  split; [vm_compute; reflexivity|].
  destruct (compileRouteConfig_rule_order Samples.route_bad_regex
              (fst (resolveBackends Samples.compiler_env Samples.route_bad_regex)))
    as (_ & _ & Hsmall).
  apply Hsmall. simpl. lia.
Defined.

(** C4 as stated fails: thirteen rules of which only the last has a
    priority are emitted with r6 ahead of r0 .. r5 and r1 last, although all
    twelve have priority 0. *)
Lemma compileRouteConfig_stable_counterexample :
  map Compiled.Name (Compiled.Rules (compileRouteConfig Samples.route13 []))
  = ["r12"; "r6"; "r2"; "r3"; "r4"; "r5"; "r0"; "r7"; "r8"; "r9"; "r10"; "r11"; "r1"]
  /\ map Compiled.Priority (Compiled.Rules (compileRouteConfig Samples.route13 []))
     = [1; 0; 0; 0; 0; 0; 0; 0; 0; 0; 0; 0; 0]
  /\ ~ (forall route backends p,
          List.filter (fun c => Compiled.Priority c =? p)
            (Compiled.Rules (compileRouteConfig route backends))
          = List.filter (fun c => Compiled.Priority c =? p)
              (map (compile_rule (RouteNamespace route) (backendMap_of backends))
                 (Rules (Spec route)))).
Proof.
  split; [vm_compute; reflexivity|]. split; [vm_compute; reflexivity|].
  intros H. specialize (H Samples.route13 [] 0).
  apply (f_equal (map Compiled.Name)) in H. vm_compute in H. discriminate.
Qed.

End CompilerFacts.

(** ** Dispatch forwarders *)

Section ForwardFacts.
Import Forward.

(** C6 (as amended). For a worker response with status below 400: the
    forwarder of the HTTP API returns the decoded JSON value whole, without
    unwrapping, and the raw body as a string when it is not JSON; the
    forwarder of the MCP endpoint returns, for a JSON object, the result
    field when it is a string, the result field re-encoded as indented JSON
    when it is anything else, and without a result field the string response
    field, else the string output field, else the entire body; a body that
    is not a JSON object is passed through.  The MCP forwarder agrees with
    the specification's unwrapping whenever the object has no result field
    or a string one. *)
Theorem forwardToAgent_response_handling
    (lib : Lib) (env : Env) (endpoint : string) (status : Z) (body : string) :
  http_do env (invoke_url endpoint) = Response status body ->
  status < 400 ->
  api_forwardToAgent lib env endpoint
    = inr (match json_Unmarshal lib body with Some v => v | None => JString body end)
  /\ exists reply,
       mcp_forwardToAgent lib env endpoint = inr reply
       /\ match json_Unmarshal lib body with
          | Some (JObject m) =>
              match m !! "result" with
              | Some (JString s) => reply = s /\ reply = spec_reply lib body
              | Some r => reply = json_MarshalIndent lib r
              | None =>
                  reply = spec_reply lib body
                  /\ match string_field m "response", string_field m "output" with
                     | Some s, _ => reply = s
                     | None, Some s => reply = s
                     | None, None => reply = body
                     end
              end
          | _ => reply = body /\ reply = spec_reply lib body
          end.
Proof.
  intros Hdo Hstatus. unfold api_forwardToAgent, mcp_forwardToAgent, unmarshal_map.
  rewrite Hdo. destruct (Z.geb_spec status 400) as [Hge|_]; [lia|].
  split; [destruct (json_Unmarshal lib body); reflexivity|].
  unfold spec_reply, string_field.
  destruct (json_Unmarshal lib body) as [v|]; [|eauto].
  destruct v as [| b | n | s | items | m]; try (eexists; split; [reflexivity|auto]).
  destruct (m !! "result") as [r|].
  - destruct r; eexists; (split; [reflexivity|auto]).
  - destruct (m !! "response") as [r|]; [destruct r|];
      try (destruct (m !! "output") as [r'|]; [destruct r'|]);
      eexists; (split; [reflexivity|auto]).
Qed.

Lemma forwardToAgent_response_handling_witness :
  api_forwardToAgent Samples.forward_lib (Samples.worker 200 Samples.body_response)
    "alpha.ns.svc.cluster.local:8080"
  = inr (JObject {[ "response" := JString "hi" ]})
  /\ mcp_forwardToAgent Samples.forward_lib (Samples.worker 200 Samples.body_response)
       "alpha.ns.svc.cluster.local:8080" = inr "hi".
Proof.
  destruct (forwardToAgent_response_handling Samples.forward_lib
              (Samples.worker 200 Samples.body_response)
              "alpha.ns.svc.cluster.local:8080" 200 Samples.body_response
              eq_refl ltac:(lia)) as (Hapi & reply & Hmcp & Hreply).
  split.
  - rewrite Hapi. vm_compute. reflexivity.
  - rewrite Hmcp. vm_compute in Hreply. destruct Hreply as [_ ->]. reflexivity.
Defined.

(** C6 as stated fails on both forwarders: the MCP forwarder answers the
    body {"result":42} with the re-encoded field 42, not with the entire
    body, and the forwarder of the HTTP API answers {"response":"hi"} with
    the whole object, not with the string hi. *)
Lemma forwardToAgent_unwrap_counterexample :
  mcp_forwardToAgent Samples.forward_lib (Samples.worker 200 Samples.body_result_number)
    "alpha.ns.svc.cluster.local:8080" = inr "42"
  /\ spec_reply Samples.forward_lib Samples.body_result_number = Samples.body_result_number
  /\ api_forwardToAgent Samples.forward_lib (Samples.worker 200 Samples.body_response)
       "alpha.ns.svc.cluster.local:8080" = inr (JObject {[ "response" := JString "hi" ]})
  /\ spec_reply Samples.forward_lib Samples.body_response = "hi"
  /\ ~ (forall lib env endpoint status body,
          http_do env (invoke_url endpoint) = Response status body -> status < 400 ->
          mcp_forwardToAgent lib env endpoint = inr (spec_reply lib body)
          /\ api_forwardToAgent lib env endpoint = inr (JString (spec_reply lib body))).
Proof.
  split; [vm_compute; reflexivity|]. split; [vm_compute; reflexivity|].
  split; [vm_compute; reflexivity|]. split; [vm_compute; reflexivity|].
  intros H.
  destruct (H Samples.forward_lib (Samples.worker 200 Samples.body_result_number)
              "alpha.ns.svc.cluster.local:8080" 200 Samples.body_result_number
              eq_refl ltac:(lia)) as [Hmcp _].
  vm_compute in Hmcp. discriminate.
Qed.

End ForwardFacts.

(** ** Admission controller: creation, release and the manager *)

Section CircuitMoreFacts.
Import GoInt Circuit Manager.

Lemma set_counters_same b : set_counters b (active b) (waiting b) = b.
Proof. destruct b; reflexivity. Qed.

Lemma wrap32_overflow z : 2 ^ 31 <= z < 2 ^ 32 -> wrap32 z = z - 2 ^ 32.
Proof.
  intros H. unfold wrap32, wrap.
  replace (z + 2 ^ (32 - 1)) with (z - 2 ^ 31 + 1 * 2 ^ 32) by lia.
  rewrite Z.mod_add by lia. rewrite Z.mod_small; lia.
Qed.

(** New on int32 limits: the limits it repairs, and when it panics. *)
Lemma New_spec (r : string) (cfg : Config) :
  int32 (MaxConcurrent cfg) -> int32 (MaxQueueSize cfg) ->
  let mc := if MaxConcurrent cfg <=? 0 then 100 else MaxConcurrent cfg in
  let mq := if MaxQueueSize cfg <? 0 then 0 else MaxQueueSize cfg in
  let qt := if QueueTimeout cfg <=? 0 then 30 * second else QueueTimeout cfg in
  0 < mc /\ 0 <= mq /\ 0 < qt
  /\ (2 ^ 31 <= mc + mq -> New r cfg = None)
  /\ (mc + mq < 2 ^ 31 ->
      New r cfg = Some {| route := r; maxConcurrent := mc; maxQueue := mq;
                          queueTimeout := qt; active := 0; waiting := 0;
                          waitChan := 0; waitCap := mc + mq |}).
Proof.
  intros Hmc Hmq. cbv zeta. unfold New.
  set (mc := if MaxConcurrent cfg <=? 0 then 100 else MaxConcurrent cfg).
  set (mq := if MaxQueueSize cfg <? 0 then 0 else MaxQueueSize cfg).
  set (qt := if QueueTimeout cfg <=? 0 then 30 * second else QueueTimeout cfg).
  assert (H1 : 0 < mc < 2 ^ 31).
  { subst mc. unfold int32 in Hmc. destruct (Z.leb_spec (MaxConcurrent cfg) 0); lia. }
  assert (H2 : 0 <= mq < 2 ^ 31).
  { subst mq. unfold int32 in Hmq. destruct (Z.ltb_spec (MaxQueueSize cfg) 0); lia. }
  assert (H3 : 0 < qt).
  { subst qt. destruct (Z.leb_spec (QueueTimeout cfg) 0); unfold second; lia. }
  split; [lia|]. split; [lia|]. split; [exact H3|]. split.
  - intros Hbig. rewrite wrap32_overflow by lia.
    destruct (Z.ltb_spec (mc + mq - 2 ^ 32) 0); [reflexivity|lia].
  - intros Hfit. rewrite wrap32_id by (unfold int32; lia).
    destruct (Z.ltb_spec (mc + mq) 0); [lia|reflexivity].
Qed.

(** X1. For int32 limits, New replaces a non-positive MaxConcurrent by 100,
    a negative MaxQueueSize by 0 and a non-positive QueueTimeout by 30s.
    When the two limits so repaired add up to 2^31 or more, the capacity
    of the wake channel is negative and New panics; otherwise New returns
    an idle breaker with these limits, and the first Acquire on it is
    granted at once, leaving active = 1 and waiting = 0. *)
Theorem New_first_Acquire_granted (r : string) (cfg : Config) (env : wait_env) (rnd : nat) :
  int32 (MaxConcurrent cfg) -> int32 (MaxQueueSize cfg) ->
  let mc := if MaxConcurrent cfg <=? 0 then 100 else MaxConcurrent cfg in
  let mq := if MaxQueueSize cfg <? 0 then 0 else MaxQueueSize cfg in
  let qt := if QueueTimeout cfg <=? 0 then 30 * second else QueueTimeout cfg in
  (2 ^ 31 <= mc + mq -> New r cfg = None)
  /\ (mc + mq < 2 ^ 31 ->
      exists b b',
        New r cfg = Some b
        /\ route b = r /\ maxConcurrent b = mc /\ maxQueue b = mq /\ queueTimeout b = qt
        /\ active b = 0 /\ waiting b = 0 /\ waitChan b = 0%nat /\ waitCap b = mc + mq
        /\ Acquire b env rnd = Some (b', None)
        /\ active b' = 1 /\ waiting b' = 0
        /\ maxConcurrent b' = mc /\ maxQueue b' = mq).
Proof.
  intros Hmc Hmq. cbv zeta.
  destruct (New_spec r cfg Hmc Hmq) as (Hpos & _ & _ & Hpanic & Hnew).
  split; [exact Hpanic|].
  intros Hfit. rewrite (Hnew Hfit).
  eexists. eexists. split; [reflexivity|].
  cbn [route maxConcurrent maxQueue queueTimeout active waiting waitChan waitCap].
  repeat (split; [reflexivity|]).
  unfold Acquire, Acquire_lock.
  cbn [route maxConcurrent maxQueue queueTimeout active waiting waitChan waitCap].
  destruct (Z.ltb_spec 0 (if MaxConcurrent cfg <=? 0 then 100 else MaxConcurrent cfg));
    [|lia].
  split; [reflexivity|]. cbn. auto.
Qed.

Lemma New_first_Acquire_granted_witness :
  New "r" {| MaxConcurrent := 2147483647; MaxQueueSize := 1; QueueTimeout := second |} = None
  /\ exists b b',
       New "r" {| MaxConcurrent := 0; MaxQueueSize := -1; QueueTimeout := 0 |} = Some b
       /\ route b = "r" /\ maxConcurrent b = 100 /\ maxQueue b = 0
       /\ queueTimeout b = 30 * second
       /\ active b = 0 /\ waiting b = 0 /\ waitChan b = 0%nat /\ waitCap b = 100 + 0
       /\ Acquire b Samples.all_ready 0 = Some (b', None)
       /\ active b' = 1 /\ waiting b' = 0
       /\ maxConcurrent b' = 100 /\ maxQueue b' = 0.
Proof.
  split.
  - apply (New_first_Acquire_granted "r"
             {| MaxConcurrent := 2147483647; MaxQueueSize := 1; QueueTimeout := second |}
             Samples.all_ready 0%nat);
      unfold int32; simpl; lia.
  - apply (New_first_Acquire_granted "r"
             {| MaxConcurrent := 0; MaxQueueSize := -1; QueueTimeout := 0 |}
             Samples.all_ready 0%nat);
      unfold int32; simpl; lia.
Defined.

(** X2. Acquire on a breaker with a free slot and nobody queued followed by
    Release gives the breaker back as it was. *)
Theorem Acquire_Release_round_trip (b : Breaker) (env : wait_env) (rnd : nat) :
  well_formed b -> active b < maxConcurrent b -> waiting b <= 0 ->
  exists b', Acquire b env rnd = Some (b', None) /\ Release b' = b.
Proof.
  intros Hwf Hlt Hw. pose proof Hwf as (Hmc & _ & Ha & _).
  exists (set_counters b (active b + 1) (waiting b)). split.
  - unfold Acquire. now rewrite Acquire_lock_capacity.
  - unfold Release. cbn [set_counters active waiting waitChan waitCap].
    replace (active b + 1 - 1) with (active b) by lia.
    rewrite wrap32_id by exact Ha.
    destruct (Z.ltb_spec 0 (waiting b)); [lia|]. destruct b; reflexivity.
Qed.

Lemma Acquire_Release_round_trip_witness :
  exists b', Acquire Samples.idle_breaker Samples.all_ready 0 = Some (b', None)
             /\ Release b' = Samples.idle_breaker.
Proof.
  apply (Acquire_Release_round_trip Samples.idle_breaker Samples.all_ready 0).
  - unfold well_formed, int32; simpl; lia.
  - simpl; lia.
  - simpl; lia.
Defined.

(** X3. A caller that is queued and then leaves the queue with an error (the
    queue timeout or the context's error) leaves the breaker exactly as it
    found it. *)
Theorem Acquire_queue_exit_restores (b b' : Breaker) (env : wait_env) (rnd : nat) (e : error) :
  well_formed b -> maxConcurrent b <= active b -> waiting b < maxQueue b ->
  Acquire b env rnd = Some (b', Some e) ->
  b' = b
  /\ ((e = ErrQueueTimeout /\ timer_fired env = true)
      \/ exists c, e = ErrContext c /\ ctx_done env = Some c).
Proof.
  intros (Hmc & Hmq & Ha & Hw) Hfull Hroom. unfold Acquire, Acquire_lock.
  destruct (Z.ltb_spec (active b) (maxConcurrent b)); [lia|].
  destruct (Z.geb_spec (waiting b) (maxQueue b)); [lia|].
  assert (Hw1 : wrap32 (waiting b + 1) = waiting b + 1).
  { apply wrap32_id. unfold int32 in *. lia. }
  rewrite Hw1. unfold Acquire_wait.
  destruct (select _ rnd) as [c|] eqn:Hsel; [|discriminate].
  apply select_In, ready_cases_In in Hsel.
  assert (Hback : set_counters (set_counters b (active b) (waiting b + 1))
                    (active (set_counters b (active b) (waiting b + 1)))
                    (wrap32 (waiting (set_counters b (active b) (waiting b + 1)) - 1)) = b).
  { cbn [set_counters active waiting route maxConcurrent maxQueue queueTimeout waitChan waitCap].
    replace (waiting b + 1 - 1) with (waiting b) by lia.
    rewrite wrap32_id by exact Hw. destruct b; reflexivity. }
  destruct c.
  - destruct (ctx_done env) as [c|] eqn:Hctx; [|discriminate].
    rewrite Hback. intros [= <- <-]. split; [reflexivity|]. right. exists c. auto.
  - rewrite Hback. intros [= <- <-]. split; [reflexivity|]. left. auto.
  - discriminate.
Qed.

Lemma Acquire_queue_exit_restores_witness :
  let b := set_counters Samples.full_breaker (active Samples.full_breaker) 0 in
  let env := {| ctx_done := None; timer_fired := true |} in
  exists b', Acquire b env 0 = Some (b', Some ErrQueueTimeout) /\ b' = b.
Proof.
  cbv zeta.
  set (b := set_counters Samples.full_breaker (active Samples.full_breaker) 0).
  set (env := {| ctx_done := None; timer_fired := true |}).
  assert (H : Acquire b env 0 = Some (b, Some ErrQueueTimeout)) by (vm_compute; reflexivity).
  exists b. split; [exact H|].
  apply (Acquire_queue_exit_restores b b env 0%nat ErrQueueTimeout).
  - unfold well_formed, int32; simpl; lia.
  - simpl; lia.
  - simpl; lia.
  - exact H.
Defined.

(** X4. Release with a waiter queued and an empty wake channel hands the
    slot over: the waiter, with neither its timer fired nor its context
    done, leaves its select admitted, and the breaker then counts the same
    number of active requests as before the Release and one waiter less. *)
Theorem Release_wakes_waiter (b : Breaker) (env : wait_env) (rnd : nat) :
  well_formed b -> - 2 ^ 31 < active b -> 0 < waiting b ->
  waitChan b = 0%nat -> 0 < waitCap b ->
  ctx_done env = None -> timer_fired env = false ->
  waitChan (Release b) = 1%nat
  /\ exists b', Acquire_wait (Release b) env rnd = Some (b', None)
                /\ active b' = active b /\ waiting b' = waiting b - 1
                /\ waitChan b' = 0%nat.
Proof.
  intros (Hmc & Hmq & Ha & Hw) Hmin Hwait Hchan Hcap Hctx Htimer.
  assert (Hrel : Release b = set_chan (set_counters b (active b - 1) (waiting b)) 1).
  { unfold Release. cbn [set_counters active waiting waitChan waitCap].
    rewrite wrap32_id by (unfold int32 in *; lia).
    destruct (Z.ltb_spec 0 (waiting b)); [|lia]. rewrite Hchan.
    destruct (Z.ltb_spec (Z.of_nat 0) (waitCap b)); [reflexivity|lia]. }
  rewrite Hrel. split; [reflexivity|].
  unfold Acquire_wait, ready_cases.
  cbn [set_chan set_counters active waiting waitChan]. rewrite Hctx, Htimer.
  cbn [Nat.ltb Nat.leb app select length nth_error].
  rewrite Nat.mod_1_r. cbn [nth_error].
  eexists. split; [reflexivity|].
  cbn [set_chan set_counters active waiting waitChan pred].
  replace (active b - 1 + 1) with (active b) by lia.
  rewrite !wrap32_id by (unfold int32 in *; lia). auto.
Qed.

Lemma Release_wakes_waiter_witness :
  let env := {| ctx_done := None; timer_fired := false |} in
  waitChan (Release Samples.full_breaker) = 1%nat
  /\ exists b', Acquire_wait (Release Samples.full_breaker) env 0 = Some (b', None)
                /\ active b' = 1 /\ waiting b' = 1 - 1 /\ waitChan b' = 0%nat.
Proof.
  apply (Release_wakes_waiter Samples.full_breaker
           {| ctx_done := None; timer_fired := false |} 0%nat);
    try reflexivity; try (unfold well_formed, int32; simpl; lia).
Defined.

(** X5. The concurrency limit is not an invariant.  On a breaker at capacity
    with a waiter queued, Release followed by the Acquire of a new caller
    that takes the lock before the woken waiter admits the new caller; the
    waiter then takes its token, and [active] is maxConcurrent + 1. *)
Theorem concurrency_limit_overshoot (b : Breaker) (env : wait_env) (rnd : nat) :
  well_formed b -> active b = maxConcurrent b -> 0 < maxConcurrent b ->
  maxConcurrent b < 2 ^ 31 - 1 ->
  0 < waiting b -> waitChan b = 0%nat -> 0 < waitCap b ->
  ctx_done env = None -> timer_fired env = false ->
  exists b2 b3,
    Acquire_lock (Release b) = (b2, Granted)
    /\ Acquire_wait b2 env rnd = Some (b3, None)
    /\ active b3 = maxConcurrent b3 + 1.
Proof.
  intros (Hmc & Hmq & Ha & Hw) Hfull Hpos Hmax Hwait Hchan Hcap Hctx Htimer.
  assert (Hrel : Release b = set_chan (set_counters b (active b - 1) (waiting b)) 1).
  { unfold Release. cbn [set_counters active waiting waitChan waitCap].
    rewrite wrap32_id by (unfold int32 in *; lia).
    destruct (Z.ltb_spec 0 (waiting b)); [|lia]. rewrite Hchan.
    destruct (Z.ltb_spec (Z.of_nat 0) (waitCap b)); [reflexivity|lia]. }
  rewrite Hrel. unfold Acquire_lock.
  cbn [set_chan set_counters active waiting waitChan maxConcurrent maxQueue].
  destruct (Z.ltb_spec (active b - 1) (maxConcurrent b)); [|lia].
  replace (active b - 1 + 1) with (active b) by lia.
  rewrite (wrap32_id (active b)) by exact Ha.
  eexists. eexists. split; [reflexivity|].
  unfold Acquire_wait, ready_cases.
  cbn [set_chan set_counters active waiting waitChan]. rewrite Hctx, Htimer.
  cbn [Nat.ltb Nat.leb app select length nth_error].
  rewrite Nat.mod_1_r. cbn [nth_error].
  split; [reflexivity|].
  cbn [set_chan set_counters active waiting waitChan maxConcurrent].
  rewrite wrap32_id by (unfold int32 in *; lia). lia.
Qed.

Lemma concurrency_limit_overshoot_witness :
  let env := {| ctx_done := None; timer_fired := false |} in
  exists b2 b3,
    Acquire_lock (Release Samples.full_breaker) = (b2, Granted)
    /\ Acquire_wait b2 env 0 = Some (b3, None)
    /\ active b3 = maxConcurrent b3 + 1.
Proof.
  apply (concurrency_limit_overshoot Samples.full_breaker
           {| ctx_done := None; timer_fired := false |} 0%nat);
    try reflexivity; try (unfold well_formed, int32; simpl; lia).
Defined.

(** X6. BreakerManager.Get returns the breaker stored for the route when
    there is one and leaves the manager alone; otherwise it calls New with
    the defaults of that moment: when New panics nothing is stored, and
    when New returns a breaker Get stores it, later calls return that same
    breaker, and UpdateConfig does not reach it.  Breakers of other routes
    are never touched. *)
Theorem Get_creates_once (m : BreakerManager) (route : string) :
  let m1 := fst (Get m route) in
  let r1 := snd (Get m route) in
  (forall b, breakers m !! route = Some b -> r1 = Some b /\ m1 = m)
  /\ (breakers m !! route = None -> r1 = New route (defaults m))
  /\ (r1 = None -> m1 = m /\ breakers m !! route = None)
  /\ (forall b1, r1 = Some b1 ->
        breakers m1 !! route = Some b1
        /\ defaults m1 = defaults m
        /\ Get m1 route = (m1, Some b1)
        /\ forall cfg, Get (UpdateConfig m1 cfg) route = (UpdateConfig m1 cfg, Some b1))
  /\ (forall other, other <> route -> breakers m1 !! other = breakers m !! other).
Proof.
  cbv zeta. unfold Get.
  destruct (breakers m !! route) as [b|] eqn:Hb; cbn [fst snd breakers defaults].
  - split; [intros b0 [= <-]; auto|]. split; [discriminate|]. split; [discriminate|].
    split; [|reflexivity].
    intros b1 [= <-]. rewrite Hb. split; [reflexivity|]. split; [reflexivity|].
    split; [reflexivity|].
    intros cfg. unfold UpdateConfig. cbn [breakers]. now rewrite Hb.
  - split; [discriminate|].
    destruct (New route (defaults m)) as [b|] eqn:Hnew; cbn [fst snd breakers defaults].
    + split; [reflexivity|]. split; [discriminate|]. split.
      * intros b1 [= <-]. rewrite lookup_insert_eq.
        split; [reflexivity|]. split; [reflexivity|]. split; [reflexivity|].
        intros cfg. unfold UpdateConfig. cbn [breakers]. now rewrite lookup_insert_eq.
      * intros other Hne. now rewrite lookup_insert_ne by congruence.
    + split; [reflexivity|]. split; [auto|]. split; [discriminate|reflexivity].
Qed.

Lemma Get_creates_once_witness :
  snd (Get (NewManager DefaultConfig) "r")
  = Some {| route := "r"; maxConcurrent := 100; maxQueue := 50;
            queueTimeout := 30 * second; active := 0; waiting := 0;
            waitChan := 0; waitCap := 150 |}.
Proof.
  destruct (Get_creates_once (NewManager DefaultConfig) "r") as (_ & Hnew & _).
  cbv zeta in Hnew. rewrite Hnew; [reflexivity|apply lookup_empty].
Defined.

(** X7. Handler.UpdateDefaults changes the limits of breakers that do not
    exist yet.  A table without defaults changes nothing; a route whose
    breaker exists keeps that breaker; for a route that was never used
    the next Get calls New with the table's maxConcurrent, maxQueueSize
    and queueTimeoutMs (times one millisecond, in int64): the breaker has
    these limits after New's fallbacks (100, 0, 30s), and the call panics,
    storing nothing, when the two limits add up to 2^31 or more. *)
Theorem UpdateDefaults_reaches_new_breakers_only (h : Handler) (t : Routes.Table)
    (route : string) :
  let h' := UpdateDefaults h t in
  (Routes.GetDefaults t = None -> h' = h)
  /\ (forall b, breakers (handler_breakers h) !! route = Some b ->
                Get (handler_breakers h') route = (handler_breakers h', Some b))
  /\ (forall d, Routes.GetDefaults t = Some d ->
        breakers (handler_breakers h) !! route = None ->
        int32 (Compiled.MaxConcurrent d) -> int32 (Compiled.MaxQueueSize d) ->
        let mc := if Compiled.MaxConcurrent d <=? 0 then 100 else Compiled.MaxConcurrent d in
        let mq := if Compiled.MaxQueueSize d <? 0 then 0 else Compiled.MaxQueueSize d in
        let ns := wrap 64 (Compiled.QueueTimeoutMs d * millisecond) in
        (2 ^ 31 <= mc + mq ->
           Get (handler_breakers h') route = (handler_breakers h', None))
        /\ (mc + mq < 2 ^ 31 ->
            exists b,
              snd (Get (handler_breakers h') route) = Some b
              /\ breakers (fst (Get (handler_breakers h') route)) !! route = Some b
              /\ maxConcurrent b = mc /\ maxQueue b = mq
              /\ queueTimeout b = (if ns <=? 0 then 30 * second else ns)
              /\ active b = 0 /\ waiting b = 0)).
Proof.
  cbv zeta. unfold UpdateDefaults.
  destruct (Routes.GetDefaults t) as [d|].
  - split; [discriminate|]. cbn [handler_breakers]. unfold Get, UpdateConfig.
    cbn [breakers defaults]. split.
    + intros b ->. reflexivity.
    + intros d0 [= <-] -> Hmc Hmq.
      set (cfg := {| MaxConcurrent := Compiled.MaxConcurrent d;
                     MaxQueueSize := Compiled.MaxQueueSize d;
                     QueueTimeout := wrap 64 (Compiled.QueueTimeoutMs d * millisecond) |}).
      destruct (New_spec route cfg Hmc Hmq) as (_ & _ & _ & Hpanic & Hnew).
      cbn [MaxConcurrent MaxQueueSize QueueTimeout cfg] in Hpanic, Hnew.
      split.
      * intros Hbig. now rewrite (Hpanic Hbig).
      * intros Hfit. rewrite (Hnew Hfit). cbn [fst snd breakers].
        eexists. split; [reflexivity|]. rewrite lookup_insert_eq.
        cbn [maxConcurrent maxQueue queueTimeout active waiting]. auto 10.
  - split; [reflexivity|]. split.
    + intros b Hb. unfold Get. now rewrite Hb.
    + discriminate.
Qed.

Lemma UpdateDefaults_reaches_new_breakers_only_witness :
  let m7 := handler_breakers (UpdateDefaults (NewHandler 0) (Samples.limits_table 7 3)) in
  let mx := handler_breakers (UpdateDefaults (NewHandler 0)
                                (Samples.limits_table 2147483647 1)) in
  Get mx "r" = (mx, None)
  /\ exists b,
       snd (Get m7 "r") = Some b
       /\ breakers (fst (Get m7 "r")) !! "r" = Some b
       /\ maxConcurrent b = 7 /\ maxQueue b = 3
       /\ queueTimeout b = 1500 * millisecond
       /\ active b = 0 /\ waiting b = 0.
Proof.
  cbv zeta. split.
  - pose proof (UpdateDefaults_reaches_new_breakers_only (NewHandler 0)
                  (Samples.limits_table 2147483647 1) "r") as H.
    cbv zeta in H. destruct H as (_ & _ & H).
    destruct (H _ eq_refl (lookup_empty _)) as [Hpanic _];
      [unfold int32; simpl; lia | unfold int32; simpl; lia |].
    apply Hpanic. simpl. lia.
  - pose proof (UpdateDefaults_reaches_new_breakers_only (NewHandler 0)
                  (Samples.limits_table 7 3) "r") as H.
    cbv zeta in H. destruct H as (_ & _ & H).
    destruct (H _ eq_refl (lookup_empty _)) as [_ Hnew];
      [unfold int32; simpl; lia | unfold int32; simpl; lia |].
    apply Hnew. simpl. lia.
Defined.

End CircuitMoreFacts.

(** ** Backend selection *)

Section SelectorFacts.
Import GoInt Compiled Selector.

Lemma find_cumulative_range backends : forall r c i j,
  find_cumulative r c i backends = Some j -> i <= j < i + Z.of_nat (length backends).
Proof.
  induction backends as [|b rest IH]; intros r c i j; cbn [find_cumulative length].
  - discriminate.
  - destruct (r <? wrap32 (c + Weight b)).
    + intros [= <-]. lia.
    + intros H. apply IH in H. lia.
Qed.

Lemma SelectWeighted_index (rnd : Z) (backends : list CompiledRouteBackend) :
  backends <> [] ->
  exists i, SelectWeighted rnd backends = Some i /\ 0 <= i < Z.of_nat (length backends).
Proof.
  intros Hne. destruct backends as [|b1 [|b2 rest]]; [congruence| |].
  { exists 0. split; [reflexivity|simpl; lia]. }
  unfold SelectWeighted.
  remember (b1 :: b2 :: rest) as l eqn:Hl.
  assert (Hlen : 2 <= Z.of_nat (length l)) by (subst l; simpl length; lia).
  destruct (totalWeight l <=? 0).
  - eexists. split; [reflexivity|]. apply Z.mod_pos_bound. lia.
  - destruct (find_cumulative (rnd mod totalWeight l) 0 0 l) as [j|] eqn:Hfind.
    + apply find_cumulative_range in Hfind. exists j. split; [reflexivity|lia].
    + eexists. split; [reflexivity|lia].
Qed.

(** X8. SelectWeighted returns nil exactly for the empty list, and otherwise
    an index inside the list, whatever the weights (negative ones and sums
    that overflow int32 included) and whatever the random source draws. *)
Theorem SelectWeighted_in_range (rnd : Z) (backends : list CompiledRouteBackend) :
  match SelectWeighted rnd backends with
  | None => backends = []
  | Some i => 0 <= i < Z.of_nat (length backends)
  end.
Proof.
  destruct backends as [|b rest] eqn:Hb; [reflexivity|]. rewrite <- Hb.
  destruct (SelectWeighted_index rnd backends) as (i & Hsel & Hi);
    [rewrite Hb; discriminate|].
  rewrite Hsel. exact Hi.
Qed.

Lemma wrap32_small z : 0 <= z < 2 ^ 31 -> wrap32 z = z.
Proof. intros H. apply wrap32_id. unfold int32. lia. Qed.

Lemma weight_sum_nonneg (l : list CompiledRouteBackend) :
  Forall (fun b => 0 <= Weight b) l -> 0 <= fold_right Z.add 0 (map Weight l).
Proof. induction 1; simpl; lia. Qed.

Lemma totalWeight_sum (l : list CompiledRouteBackend) : forall c,
  Forall (fun b => 0 <= Weight b) l -> 0 <= c ->
  c + fold_right Z.add 0 (map Weight l) < 2 ^ 31 ->
  fold_left (fun t b => wrap32 (t + Weight b)) l c = c + fold_right Z.add 0 (map Weight l).
Proof.
  induction l as [|b rest IH]; intros c Hw Hc Hsum; simpl in *; [lia|].
  inversion Hw as [|? ? Hb Hrest]; subst.
  pose proof (weight_sum_nonneg rest Hrest).
  rewrite wrap32_small by lia. rewrite IH; [lia|assumption|lia|lia].
Qed.

Lemma find_cumulative_spec (l : list CompiledRouteBackend) : forall r c i,
  Forall (fun b => 0 <= Weight b) l -> 0 <= c ->
  c + fold_right Z.add 0 (map Weight l) < 2 ^ 31 ->
  c <= r < c + fold_right Z.add 0 (map Weight l) ->
  exists k : nat,
    find_cumulative r c i l = Some (i + Z.of_nat k) /\ (k < length l)%nat
    /\ c + fold_right Z.add 0 (map Weight (firstn k l)) <= r
       < c + fold_right Z.add 0 (map Weight (firstn (S k) l)).
Proof.
  induction l as [|b rest IH]; intros r c i Hw Hc Hsum Hr; simpl in *; [lia|].
  inversion Hw as [|? ? Hb Hrest]; subst.
  pose proof (weight_sum_nonneg rest Hrest).
  rewrite wrap32_small by lia.
  destruct (Z.ltb_spec r (c + Weight b)).
  - exists 0%nat. simpl. split; [f_equal; lia|]. split; lia.
  - destruct (IH r (c + Weight b) (i + 1) Hrest ltac:(lia) ltac:(lia) ltac:(lia))
      as (k & Hfind & Hk & Hint).
    exists (S k). rewrite Hfind. split; [f_equal; lia|]. split; [lia|].
    cbn [firstn map fold_right] in *. lia.
Qed.

(** X9. With at least two backends, weights that are not negative and a
    positive total below 2^31, SelectWeighted chooses backend i exactly for
    the draws r with  w_0 + ... + w_(i-1) <= r < w_0 + ... + w_i : each
    backend gets as many of the total draws as its weight, and a backend of
    weight 0 is never chosen. *)
Theorem SelectWeighted_proportional (rnd : Z) (backends : list CompiledRouteBackend) :
  let n := Z.of_nat (length backends) in
  let total := weight_before backends n in
  (2 <= length backends)%nat ->
  Forall (fun b => 0 <= Weight b) backends ->
  0 < total < 2 ^ 31 ->
  exists i b,
    SelectWeighted rnd backends = Some i
    /\ backends !! Z.to_nat i = Some b
    /\ weight_before backends i <= rnd mod total < weight_before backends i + Weight b
    /\ weight_before backends (i + 1) = weight_before backends i + Weight b
    /\ 0 < Weight b.
Proof.
  cbv zeta. unfold weight_before. rewrite Nat2Z.id, firstn_all.
  intros Hlen Hw Htotal.
  destruct backends as [|b1 [|b2 rest]]; [simpl in Hlen; lia|simpl in Hlen; lia|].
  unfold SelectWeighted.
  remember (b1 :: b2 :: rest) as l eqn:Hl.
  assert (Htw : totalWeight l = fold_right Z.add 0 (map Weight l)).
  { unfold totalWeight. rewrite totalWeight_sum; [lia|assumption|lia|lia]. }
  rewrite Htw. destruct (Z.leb_spec (fold_right Z.add 0 (map Weight l)) 0); [lia|].
  pose proof (Z.mod_pos_bound rnd (fold_right Z.add 0 (map Weight l)) ltac:(lia)) as Hr.
  destruct (find_cumulative_spec l (rnd mod fold_right Z.add 0 (map Weight l)) 0 0
              Hw ltac:(lia) ltac:(lia) ltac:(lia)) as (k & Hfind & Hk & Hint).
  rewrite Hfind.
  destruct (lookup_lt_is_Some_2 l k Hk) as [b Hb].
  exists (0 + Z.of_nat k), b.
  replace (Z.to_nat (0 + Z.of_nat k)) with k by lia.
  replace (Z.to_nat (0 + Z.of_nat k + 1)) with (S k) by lia.
  rewrite (take_S_r l k b Hb) in *. rewrite map_app, fold_right_app in *.
  cbn [map fold_right] in *.
  assert (Hsplit : forall xs z, fold_right Z.add z xs = fold_right Z.add 0 xs + z).
  { induction xs as [|x xs IHxs]; intros z; simpl; [lia|]. rewrite IHxs. lia. }
  rewrite (Hsplit _ (Weight b + 0)) in *.
  split; [reflexivity|]. split; [exact Hb|]. split; [lia|]. split; lia.
Qed.

Lemma SelectWeighted_proportional_witness :
  let backends := [Samples.backend "a" true; Samples.backend "b" true] in
  exists i b,
    SelectWeighted 150 backends = Some i
    /\ backends !! Z.to_nat i = Some b
    /\ weight_before backends i <= 150 mod weight_before backends 2
       < weight_before backends i + Weight b
    /\ weight_before backends (i + 1) = weight_before backends i + Weight b
    /\ 0 < Weight b.
Proof.
  apply (SelectWeighted_proportional 150
           [Samples.backend "a" true; Samples.backend "b" true]).
  - simpl. lia.
  - repeat constructor; simpl; lia.
  - vm_compute. split; reflexivity.
Defined.

Lemma sum32a_Write_range (data : string) : forall h,
  0 <= h < 2 ^ 32 -> 0 <= sum32a_Write h data < 2 ^ 32.
Proof.
  unfold sum32a_Write. induction (list_ascii_of_string data) as [|c rest IH];
    intros h Hh; simpl; [exact Hh|].
  apply IH. unfold uint32. apply Z.mod_pos_bound. lia.
Qed.

Lemma Sum32_range (key : string) : 0 <= Sum32 key < 2 ^ 32.
Proof. apply sum32a_Write_range. unfold offset32. lia. Qed.

Lemma wrap_id (bits z : Z) :
  0 < bits -> - 2 ^ (bits - 1) <= z < 2 ^ (bits - 1) -> wrap bits z = z.
Proof.
  intros Hbits Hz. unfold wrap.
  assert (H2 : 2 ^ bits = 2 * 2 ^ (bits - 1)).
  { replace bits with (Z.succ (bits - 1)) at 1 by lia. apply Z.pow_succ_r. lia. }
  rewrite Z.mod_small; lia.
Qed.

Lemma wrap_range (bits z : Z) :
  0 < bits -> - 2 ^ (bits - 1) <= wrap bits z < 2 ^ (bits - 1).
Proof.
  intros Hbits. unfold wrap.
  assert (H2 : 2 ^ bits = 2 * 2 ^ (bits - 1)).
  { replace bits with (Z.succ (bits - 1)) at 1 by lia. apply Z.pow_succ_r. lia. }
  assert (0 < 2 ^ (bits - 1)) by (apply Z.pow_pos_nonneg; lia).
  pose proof (Z.mod_pos_bound (z + 2 ^ (bits - 1)) (2 ^ bits) ltac:(lia)). lia.
Qed.

Lemma SelectConsistentHash_index (intSize : Z) (backends : list CompiledRouteBackend)
    (key : string) :
  intSize = 32 \/ intSize = 64 ->
  Z.of_nat (length backends) < 2 ^ 31 ->
  backends <> [] ->
  exists i, SelectConsistentHash intSize backends key = Some i
            /\ 0 <= i < Z.of_nat (length backends).
Proof.
  intros Hsize Hlen Hne.
  destruct backends as [|b1 [|b2 rest]]; [congruence| |].
  { exists 0. split; [reflexivity|simpl; lia]. }
  unfold SelectConsistentHash.
  remember (b1 :: b2 :: rest) as l eqn:Hl.
  assert (Hn : 2 <= Z.of_nat (length l)) by (subst l; simpl length; lia).
  set (n := Z.of_nat (length l)) in *.
  set (h := wrap intSize (Sum32 key)).
  assert (Hbits : 0 < intSize) by lia.
  assert (Hpow : 2 ^ 31 <= 2 ^ (intSize - 1)).
  { destruct Hsize as [-> | ->]; simpl; lia. }
  assert (Hrem : - n < Z.rem h n < n).
  { pose proof (Z.rem_bound_abs h n ltac:(lia)). lia. }
  eexists. split; [reflexivity|].
  destruct (Z.ltb_spec (Z.rem h n) 0).
  - rewrite wrap_id by lia. lia.
  - lia.
Qed.

(** X10. SelectConsistentHash returns nil exactly for the empty list, and
    otherwise an index inside the list, for every key: on a platform with a
    32-bit int, where the conversion of the hash can be negative, as well
    as with a 64-bit int. *)
Theorem SelectConsistentHash_in_range (intSize : Z)
    (backends : list CompiledRouteBackend) (key : string) :
  intSize = 32 \/ intSize = 64 ->
  Z.of_nat (length backends) < 2 ^ 31 ->
  match SelectConsistentHash intSize backends key with
  | None => backends = []
  | Some i => 0 <= i < Z.of_nat (length backends)
  end.
Proof.
  intros Hsize Hlen.
  destruct backends as [|b rest] eqn:Hb; [reflexivity|]. rewrite <- Hb in *.
  destruct (SelectConsistentHash_index intSize backends key Hsize Hlen) as (i & Hsel & Hi);
    [rewrite Hb; discriminate|].
  rewrite Hsel. exact Hi.
Qed.

Lemma SelectConsistentHash_in_range_witness :
  match SelectConsistentHash 32 [Samples.backend "a" true; Samples.backend "b" true;
                                 Samples.backend "c" true] "tenant:42" with
  | None => False
  | Some i => 0 <= i < 3
  end.
Proof.
  pose proof (SelectConsistentHash_in_range 32
                [Samples.backend "a" true; Samples.backend "b" true;
                 Samples.backend "c" true] "tenant:42" (or_introl eq_refl)
                ltac:(simpl; lia)) as H.
  destruct (SelectConsistentHash 32 _ "tenant:42"); [exact H|discriminate H].
Defined.

Lemma filterReadyBackends_ready (backends : list CompiledRouteBackend) :
  Forall (fun b => Ready b = true) (Routes.filterReadyBackends backends).
Proof.
  apply List.Forall_forall. intros b Hb.
  unfold Routes.filterReadyBackends in Hb. apply filter_In in Hb. tauto.
Qed.

Lemma match_agent_loop_ready rules req m :
  Routes.match_agent_loop rules req = Some m ->
  Routes.ResultBackends m <> [] /\ Forall (fun b => Ready b = true) (Routes.ResultBackends m).
Proof.
  induction rules as [|cr rest IH]; cbn [Routes.match_agent_loop]; [discriminate|].
  destruct (String.eqb _ _); [|exact IH].
  pose proof (filterReadyBackends_ready (Backends (Routes.rule cr))) as Hready.
  destruct (Routes.filterReadyBackends (Backends (Routes.rule cr))) as [|b bs]; [exact IH|].
  intros [= <-]. cbn [Routes.ResultBackends]. split; [discriminate|exact Hready].
Qed.

Lemma match_rules_loop_ready lib rules req m :
  Routes.match_rules_loop lib rules req = Some m ->
  Routes.ResultBackends m <> [] /\ Forall (fun b => Ready b = true) (Routes.ResultBackends m).
Proof.
  induction rules as [|cr rest IH]; cbn [Routes.match_rules_loop]; [discriminate|].
  destruct (Routes.ruleMatches lib cr req); [|exact IH].
  pose proof (filterReadyBackends_ready (Backends (Routes.rule cr))) as Hready.
  destruct (Routes.filterReadyBackends (Backends (Routes.rule cr))) as [|b bs]; [exact IH|].
  intros [= <-]. cbn [Routes.ResultBackends]. split; [discriminate|exact Hready].
Qed.

Lemma Match_result_ready lib t req m :
  Routes.Match_ lib t req = Some m ->
  Routes.ResultBackends m <> [] /\ Forall (fun b => Ready b = true) (Routes.ResultBackends m).
Proof.
  unfold Routes.Match_. destruct (Routes.config t) as [cfg|]; [|discriminate].
  destruct (if negb (String.eqb (Routes.ReqAgent req) "")
            then Routes.match_agent_loop (Routes.compiled t) req else None) as [r|] eqn:Hagent.
  - intros [= <-]. destruct (negb _); [|discriminate].
    now apply match_agent_loop_ready in Hagent.
  - destruct (Routes.match_rules_loop lib (Routes.compiled t) req) as [r|] eqn:Hrules.
    + intros [= <-]. now apply match_rules_loop_ready in Hrules.
    + unfold Routes.match_default.
      destruct (Defaults cfg) as [d|]; [|discriminate].
      destruct (Backend d) as [b|]; [|discriminate].
      destruct (Ready b) eqn:Hb; [|discriminate].
      intros [= <-]. cbn [Routes.ResultBackends]. split; [discriminate|].
      constructor; [exact Hb|constructor].
Qed.

(** X11. Whatever Table.Match returns, the selection step of handleInvoke
    finds a backend in it, and that backend is ready: the exit of
    handleInvoke for a nil backend is never taken.  With a tenant or a
    correlation id in the request the choice does not depend on the random
    source. *)
Theorem select_backend_of_Match (intSize rnd : Z) (lib : Routes.Lib) (t : Routes.Table)
    (req : Routes.MatchRequest) (m : Routes.MatchResult) (tenantID correlationID : string) :
  intSize = 32 \/ intSize = 64 ->
  Routes.Match_ lib t req = Some m ->
  Z.of_nat (length (Routes.ResultBackends m)) < 2 ^ 31 ->
  (exists i b,
     select_backend intSize rnd m tenantID correlationID = Some i
     /\ 0 <= i /\ Routes.ResultBackends m !! Z.to_nat i = Some b /\ Ready b = true)
  /\ (tenantID <> "" \/ correlationID <> "" ->
      forall rnd', select_backend intSize rnd' m tenantID correlationID
                   = select_backend intSize rnd m tenantID correlationID).
Proof.
  intros Hsize Hmatch Hlen.
  destruct (Match_result_ready lib t req m Hmatch) as [Hne Hready]. split.
  - assert (Hidx : exists i, select_backend intSize rnd m tenantID correlationID = Some i
                             /\ 0 <= i < Z.of_nat (length (Routes.ResultBackends m))).
    { unfold select_backend, Select.
      destruct (negb (String.eqb tenantID "") || negb (String.eqb correlationID "")).
      - apply SelectConsistentHash_index; assumption.
      - apply SelectWeighted_index; assumption. }
    destruct Hidx as (i & Hsel & Hi).
    destruct (lookup_lt_is_Some_2 (Routes.ResultBackends m) (Z.to_nat i) ltac:(lia))
      as [b Hb].
    exists i, b. split; [exact Hsel|]. split; [lia|]. split; [exact Hb|].
    rewrite List.Forall_forall in Hready. apply Hready.
    apply list_elem_of_In. eapply list_elem_of_lookup_2, Hb.
  - intros Hsticky rnd'. unfold select_backend, Select.
    assert (Hc : negb (String.eqb tenantID "") || negb (String.eqb correlationID "") = true).
    { destruct Hsticky as [H|H]; apply String.eqb_neq in H; rewrite H; simpl;
        [reflexivity|apply orb_true_r]. }
    now rewrite Hc.
Qed.

Lemma select_backend_of_Match_witness :
  let m := {| Routes.RuleName := "by-agent";
              Routes.ResultBackends := [Samples.backend "alpha" true] |} in
  exists i b,
    select_backend 64 7 m "tenant" "" = Some i
    /\ 0 <= i /\ Routes.ResultBackends m !! Z.to_nat i = Some b /\ Ready b = true.
Proof.
  cbv zeta.
  refine (proj1 (select_backend_of_Match 64 7 Samples.routes_lib Samples.loaded_table
                   (Samples.request "alpha" "anything") _ "tenant" "" _ _ _)).
  - right; reflexivity.
  - vm_compute. reflexivity.
  - simpl. lia.
Defined.

End SelectorFacts.

(** ** Gateway route table: loading and the explicit-agent pass *)

Section RoutesMoreFacts.
Import Compiled Routes.

Lemma compile_rules_all_compile lib (rules : list CompiledRouteRule) : forall acc,
  Forall (fun r => IntentRegex (Match r) = ""
                   \/ regexp_Compile_err lib (IntentRegex (Match r)) = None) rules ->
  compile_rules lib rules acc = inr (acc ++ map compile_one rules).
Proof.
  induction rules as [|r rest IH]; intros acc Hall; cbn [compile_rules map].
  - now rewrite app_nil_r.
  - inversion Hall as [|? ? Hr Hrest]; subst.
    unfold compile_one at 1.
    destruct (String.eqb_spec (IntentRegex (Match r)) "") as [Hempty|Hne]; cbn [negb].
    + rewrite IH by exact Hrest. now rewrite <- app_assoc.
    + destruct Hr as [Hr|Hr]; [contradiction|]. rewrite Hr.
      rewrite IH by exact Hrest. now rewrite <- app_assoc.
Qed.

(** X12. A load whose bytes decode and whose non-empty patterns all compile
    succeeds and replaces the table whole: the new table holds the decoded
    configuration and one compiled rule per decoded rule, in the order of
    the blob, and nothing of the table that was there before. *)
Theorem LoadFromJSON_success_replaces (lib : Lib) (t : Table) (data : string)
    (cfg : RouteConfig) :
  json_Unmarshal lib data = inr cfg ->
  Forall (fun r => IntentRegex (Match r) = ""
                   \/ regexp_Compile_err lib (IntentRegex (Match r)) = None) (Rules cfg) ->
  LoadFromJSON lib t data
    = ({| config := Some cfg; compiled := map compile_one (Rules cfg) |}, None)
  /\ GetDefaults (fst (LoadFromJSON lib t data)) = Defaults cfg.
Proof.
  intros Hjson Hall. unfold LoadFromJSON. rewrite Hjson.
  rewrite (compile_rules_all_compile lib (Rules cfg) [] Hall). cbn [app].
  split; reflexivity.
Qed.

Lemma LoadFromJSON_success_replaces_witness :
  LoadFromJSON Samples.routes_lib Samples.loaded_table (Samples.table_json "cost")
  = ({| config := Some (Samples.table_config "cost");
        compiled := map compile_one (Rules (Samples.table_config "cost")) |}, None).
Proof.
  refine (proj1 (LoadFromJSON_success_replaces Samples.routes_lib Samples.loaded_table
                   (Samples.table_json "cost") (Samples.table_config "cost") eq_refl _)).
  constructor; [left; reflexivity|]. constructor; [right; reflexivity|constructor].
Defined.

Lemma find_first {A} (f : A -> bool) (pre post : list A) (x : A) :
  Forall (fun y => f y = false) pre -> f x = true ->
  find f (pre ++ x :: post) = Some x.
Proof.
  intros Hpre Hx. induction Hpre as [|y pre Hy _ IH]; simpl.
  - now rewrite Hx.
  - now rewrite Hy.
Qed.

(** X13. The explicit-agent pass of Match looks at match.agent only.  When
    the request names an agent, Match returns the FIRST rule for that agent
    that has a ready backend (every rule stored before it is for another
    agent or has no ready backend), with the ready backends of that rule,
    whether or not the tenant, intent and header criteria of that rule
    hold for the request and whatever rules follow. *)
Theorem Match_explicit_agent_ignores_criteria (lib : Lib) (t : Table) (req : MatchRequest)
    (pre post : list compiledRule) (cr : compiledRule) :
  config t <> None -> ReqAgent req <> "" ->
  compiled t = pre ++ cr :: post ->
  Forall (fun p => Agent (Match (rule p)) <> ReqAgent req \/ has_ready_backend p = false)
         pre ->
  Agent (Match (rule cr)) = ReqAgent req ->
  has_ready_backend cr = true ->
  Match_ lib t req
  = Some {| RuleName := Name (rule cr);
            ResultBackends := List.filter (fun b => Ready b) (Backends (rule cr)) |}.
Proof.
  intros Hcfg Hagent Hsplit Hpre Hcr Hready. unfold Match_.
  destruct (config t) as [cfg|]; [|congruence].
  destruct (String.eqb_spec (ReqAgent req) "") as [|_]; [contradiction|]. cbn [negb].
  rewrite match_agent_loop_find, Hsplit.
  rewrite (find_first _ pre post cr).
  - reflexivity.
  - eapply Forall_impl; [exact Hpre|]. intros p [Hne | Hnr]; cbn beta.
    + destruct (String.eqb_spec (Agent (Match (rule p))) (ReqAgent req)); [contradiction|].
      reflexivity.
    + rewrite Hnr. apply andb_false_r.
  - rewrite Hcr, String.eqb_refl, Hready. reflexivity.
Qed.

Lemma Match_explicit_agent_ignores_criteria_witness :
  let agent_rule name tenant ready :=
    {| rule := {| Name := name; Priority := 1;
                  Match := {| Agent := "alpha"; IntentRegex := "";
                              TenantID := tenant; Headers := ∅ |};
                  Backends := [Samples.backend name ready] |};
       intentRegex := None |} in
  let down := agent_rule "down" "" false in
  let first := agent_rule "tenant-a-only" "tenant-a" true in
  let second := agent_rule "any-tenant" "" true in
  let t := {| config := Some {| Rules := [rule down; rule first; rule second];
                                Defaults := None |};
              compiled := [down; first; second] |} in
  let req := {| ReqAgent := "alpha"; ReqIntent := ""; ReqTenantID := "tenant-b";
                ReqHeaders := ∅ |} in
  ruleMatches Samples.routes_lib first req = false
  /\ ruleMatches Samples.routes_lib second req = true
  /\ Match_ Samples.routes_lib t req
     = Some {| RuleName := "tenant-a-only";
               ResultBackends := [Samples.backend "tenant-a-only" true] |}.
Proof.
  cbv zeta. split; [reflexivity|]. split; [reflexivity|].
  match goal with
  | |- Match_ _ ?t ?req = _ =>
      match eval cbn [compiled] in (compiled t) with
      | [?down; ?first; ?second] =>
          apply (Match_explicit_agent_ignores_criteria Samples.routes_lib t req
                   [down] [second] first)
      end
  end.
  - discriminate.
  - discriminate.
  - reflexivity.
  - constructor; [right; reflexivity|constructor].
  - reflexivity.
  - reflexivity.
Defined.

End RoutesMoreFacts.

(** ** Route compiler: what the published table says of each backend *)

Section RouteBackendFacts.
Import Meta Compiler RouteWatch.

Lemma no_slash_tail c s : no_slash (String c s) -> no_slash s.
Proof.
  unfold no_slash. cbn [GoStrings.Index].
  destruct (String.prefix "/" (String c s)); [discriminate|].
  destruct (GoStrings.Index s "/"); [discriminate|reflexivity].
Qed.

Lemma no_slash_head c s : no_slash (String c s) -> c <> "/"%char.
Proof.
  unfold no_slash. intros H ->. cbn in H. destruct s; discriminate.
Qed.

Lemma append_nil_l (t : string) : "" +:+ t = t.
Proof. reflexivity. Qed.

Lemma append_cons_l c (s t : string) : String c s +:+ t = String c (s +:+ t).
Proof. reflexivity. Qed.

Lemma backend_key_inj ns1 : forall ns2 n1 n2,
  no_slash ns1 -> no_slash ns2 ->
  backend_key ns1 n1 = backend_key ns2 n2 -> ns1 = ns2 /\ n1 = n2.
Proof.
  unfold backend_key.
  induction ns1 as [|c1 s1 IH]; intros [|c2 s2] n1 n2 H1 H2;
    rewrite ?append_cons_l, ?append_nil_l.
  - intros [= ->]. auto.
  - intros [= <- _]. now apply no_slash_head in H2.
  - intros [= -> _]. now apply no_slash_head in H1.
  - intros [= -> Heq].
    destruct (IH s2 n1 n2 (no_slash_tail _ _ H1) (no_slash_tail _ _ H2) Heq) as [-> ->].
    auto.
Qed.

Lemma resolve_one_status env routeNs ref :
  let ns := if String.eqb (RefNamespace ref) "" then routeNs else RefNamespace ref in
  StatusAgentRef (fst (resolve_one env routeNs ref))
    = {| RefName := RefName ref; RefNamespace := ns |}
  /\ (BackendReady (fst (resolve_one env routeNs ref)),
      BackendEndpoint (fst (resolve_one env routeNs ref))) = fetched env ns (RefName ref)
  /\ snd (resolve_one env routeNs ref) = BackendReady (fst (resolve_one env routeNs ref)).
Proof.
  cbv zeta. unfold resolve_one, fetched.
  destruct (get_agent env _ (RefName ref)); simpl; auto.
Qed.

Lemma resolved_namespace_plain routeNs ref :
  no_slash routeNs -> no_slash (RefNamespace ref) ->
  no_slash (if String.eqb (RefNamespace ref) "" then routeNs else RefNamespace ref).
Proof. intros. now destruct (String.eqb _ _). Qed.

Lemma resolve_ref_resolved env routeNs refs st ref :
  resolved env routeNs refs st ->
  Forall (fun r => no_slash (RefNamespace r)) (refs ++ [ref]) ->
  resolved env routeNs (refs ++ [ref]) (resolve_ref env routeNs st ref).
Proof.
  intros [Hseen Hback] Hplain. unfold resolve_ref.
  rewrite List.Forall_forall in Hplain.
  destruct (decide (backend_key (RefNamespace ref) (RefName ref) ∈ seen st)) as [Hin|Hnot].
  - rewrite bool_decide_eq_true_2 by exact Hin.
    apply Hseen in Hin. destruct Hin as (r0 & Hr0 & Hkey).
    assert (Heq : ref = r0).
    { destruct (backend_key_inj _ _ _ _
                  (Hplain ref ltac:(apply in_or_app; right; left; reflexivity))
                  (Hplain r0 ltac:(apply in_or_app; left; exact Hr0)) Hkey) as [Hns Hn].
      destruct ref, r0; simpl in *; congruence. }
    subst r0. split.
    + intros k. rewrite Hseen. split; intros (r & Hr & Hk); exists r; split; auto.
      * apply in_or_app; auto.
      * apply in_app_or in Hr. destruct Hr as [Hr|[<-|[]]]; auto.
    + intros s. rewrite Hback. split; intros (r & Hr & Hs); exists r; split; auto.
      * apply in_or_app; auto.
      * apply in_app_or in Hr. destruct Hr as [Hr|[<-|[]]]; auto.
  - rewrite bool_decide_eq_false_2 by exact Hnot.
    destruct (resolve_one env routeNs ref) as [status ok] eqn:Hone.
    unfold resolved. cbn [seen backends]. split.
    + intros k. rewrite elem_of_union, elem_of_singleton, Hseen. split.
      * intros [->|(r & Hr & Hk)].
        -- exists ref. split; [apply in_or_app; right; left; reflexivity|reflexivity].
        -- exists r. split; [apply in_or_app; auto|exact Hk].
      * intros (r & Hr & Hk). apply in_app_or in Hr. destruct Hr as [Hr|[<-|[]]].
        -- right. eauto.
        -- left. exact Hk.
    + intros s. rewrite in_app_iff, Hback. split.
      * intros [(r & Hr & Hs)|[<-|[]]].
        -- exists r. split; [apply in_or_app; auto|exact Hs].
        -- exists ref. split; [apply in_or_app; right; left; reflexivity|].
           now rewrite Hone.
      * intros (r & Hr & Hs). apply in_app_or in Hr. destruct Hr as [Hr|[<-|[]]].
        -- left. eauto.
        -- right. left. rewrite Hs, Hone. reflexivity.
Qed.

Lemma fold_backends_resolved env routeNs (bs : list RouteBackend) : forall refs st,
  resolved env routeNs refs st ->
  Forall (fun r => no_slash (RefNamespace r)) (refs ++ map BackendAgentRef bs) ->
  resolved env routeNs (refs ++ map BackendAgentRef bs)
    (fold_left (fun st b => resolve_ref env routeNs st (BackendAgentRef b)) bs st).
Proof.
  induction bs as [|b rest IH]; intros refs st Hres Hplain; cbn [fold_left map] in *.
  - now rewrite app_nil_r.
  - replace (refs ++ BackendAgentRef b :: map BackendAgentRef rest)
      with ((refs ++ [BackendAgentRef b]) ++ map BackendAgentRef rest) in *
      by (rewrite <- app_assoc; reflexivity).
    apply IH; [|exact Hplain].
    apply resolve_ref_resolved; [exact Hres|].
    apply Forall_app in Hplain. tauto.
Qed.

Lemma fold_rules_resolved env routeNs (rules : list RouteRule) : forall refs st,
  resolved env routeNs refs st ->
  Forall (fun r => no_slash (RefNamespace r))
    (refs ++ flat_map (fun rule => map BackendAgentRef (Backends rule)) rules) ->
  resolved env routeNs
    (refs ++ flat_map (fun rule => map BackendAgentRef (Backends rule)) rules)
    (fold_left
       (fun st rule =>
          fold_left (fun st b => resolve_ref env routeNs st (BackendAgentRef b))
            (Backends rule) st)
       rules st).
Proof.
  induction rules as [|rule rest IH]; intros refs st Hres Hplain; cbn [fold_left flat_map].
  - now rewrite app_nil_r.
  - cbn [flat_map] in Hplain. rewrite app_assoc in *.
    apply IH; [|exact Hplain].
    apply fold_backends_resolved; [exact Hres|].
    apply Forall_app in Hplain. tauto.
Qed.

Lemma resolveBackends_resolved env route :
  namespaces_plain route ->
  exists st, resolved env (RouteNamespace route) (refs_of route) st
             /\ fst (resolveBackends env route) = backends st.
Proof.
  intros [_ Hplain]. unfold resolveBackends, refs_of in *.
  set (st0 := {| backends := []; allReady := true; seen := ∅ |}).
  assert (H0 : resolved env (RouteNamespace route) [] st0).
  { split.
    - intros k. split; [intros Hk; now apply not_elem_of_empty in Hk|].
      intros (r & [] & _).
    - intros s. split; [intros []|intros (r & [] & _)]. }
  pose proof (fold_rules_resolved env (RouteNamespace route) (Rules (Spec route)) [] st0 H0)
    as H1.
  cbn [app] in H1.
  destruct (Defaults (Spec route)) as [d|]; [destruct (Backend d) as [b|]|].
  - eexists. split; [|reflexivity].
    apply resolve_ref_resolved; [|exact Hplain].
    apply H1. apply Forall_app in Hplain. tauto.
  - eexists. split; [|reflexivity]. rewrite app_nil_r in *. now apply H1.
  - eexists. split; [|reflexivity]. rewrite app_nil_r in *. now apply H1.
Qed.

Lemma backendMap_of_lookup (bs : list BackendStatus) (k : string) (s : BackendStatus) :
  (exists s0, In s0 bs
              /\ backend_key (RefNamespace (StatusAgentRef s0)) (RefName (StatusAgentRef s0)) = k) ->
  (forall s', In s' bs ->
     backend_key (RefNamespace (StatusAgentRef s')) (RefName (StatusAgentRef s')) = k ->
     s' = s) ->
  backendMap_of bs !! k = Some s.
Proof.
  unfold backendMap_of. induction bs as [|x bs IH] using rev_ind.
  - intros (s0 & [] & _).
  - intros (s0 & Hs0 & Hk0) Huniq. rewrite fold_left_app. cbn [fold_left].
    destruct (decide (backend_key (RefNamespace (StatusAgentRef x))
                        (RefName (StatusAgentRef x)) = k)) as [Hx|Hx].
    + rewrite Hx, lookup_insert_eq. f_equal. apply Huniq; [|exact Hx].
      apply in_or_app. right. left. reflexivity.
    + rewrite lookup_insert_ne by exact Hx. apply IH.
      * exists s0. split; [|exact Hk0].
        apply in_app_or in Hs0. destruct Hs0 as [H|[<-|[]]]; [exact H|contradiction].
      * intros s' Hs' Hk'. apply Huniq; [apply in_or_app; left; exact Hs'|exact Hk'].
Qed.

Lemma compile_backend_fetched env route (backend : RouteBackend) :
  namespaces_plain route ->
  In (BackendAgentRef backend) (refs_of route) ->
  let c := compile_backend (RouteNamespace route)
             (backendMap_of (fst (resolveBackends env route))) backend in
  (Compiled.Ready c, Compiled.Endpoint c)
    = fetched env (Compiled.Namespace c) (Compiled.AgentName c).
Proof.
  intros Hplain Hin. cbv zeta.
  destruct (resolveBackends_resolved env route Hplain) as (st & [_ Hback] & ->).
  destruct Hplain as [Hroute Hrefs]. rewrite List.Forall_forall in Hrefs.
  set (ref := BackendAgentRef backend) in *.
  set (ns := if String.eqb (RefNamespace ref) "" then RouteNamespace route
             else RefNamespace ref).
  destruct (resolve_one_status env (RouteNamespace route) ref) as (Href & Hfetched & _).
  cbv zeta in Href, Hfetched. fold ns in Href, Hfetched.
  set (S := fst (resolve_one env (RouteNamespace route) ref)) in *.
  assert (Hlookup : backendMap_of (backends st) !! backend_key ns (RefName ref) = Some S).
  { apply backendMap_of_lookup.
    - exists S. split; [apply Hback; exists ref; auto|]. now rewrite Href.
    - intros s' Hs' Hk'. apply Hback in Hs'. destruct Hs' as (r' & Hr' & ->).
      destruct (resolve_one_status env (RouteNamespace route) r') as (Href' & _).
      cbv zeta in Href'. rewrite Href' in Hk'. cbn [RefNamespace RefName] in Hk'.
      apply backend_key_inj in Hk'.
      + destruct Hk' as [Hns Hn]. unfold S, resolve_one. fold ns.
        rewrite Hns, Hn. reflexivity.
      + apply resolved_namespace_plain; auto.
      + apply resolved_namespace_plain; auto. }
  unfold compile_backend. cbv zeta. fold ref. fold ns. rewrite Hlookup.
  cbn [default Compiled.Ready Compiled.Endpoint Compiled.Namespace Compiled.AgentName].
  exact Hfetched.
Qed.

(** X14. In a Route whose namespaces have no slash, every backend of the
    compiled table, in a rule or as the default, carries the ready flag and
    the endpoint that the reconciler fetched for the Agent that the backend
    names (false and no endpoint when the Agent could not be fetched),
    however often and under whichever spelling of the namespace the Route
    refers to that Agent. *)
Theorem compiled_backends_reflect_agents (env : Env) (route : Route) :
  namespaces_plain route ->
  let cfg := compileRouteConfig route (fst (resolveBackends env route)) in
  (forall crule c,
     In crule (Compiled.Rules cfg) -> In c (Compiled.Backends crule) ->
     (Compiled.Ready c, Compiled.Endpoint c)
       = fetched env (Compiled.Namespace c) (Compiled.AgentName c))
  /\ (forall d c,
        Compiled.Defaults cfg = Some d -> Compiled.Backend d = Some c ->
        (Compiled.Ready c, Compiled.Endpoint c)
          = fetched env (Compiled.Namespace c) (Compiled.AgentName c)).
Proof.
  intros Hplain. cbv zeta. split.
  - intros crule c Hrule Hc.
    apply (Permutation_in _ (compileRouteConfig_rules_perm route _)) in Hrule.
    apply in_map_iff in Hrule. destruct Hrule as (rule & <- & Hrule).
    cbn [compile_rule Compiled.Backends] in Hc.
    apply in_map_iff in Hc. destruct Hc as (backend & <- & Hbackend).
    apply compile_backend_fetched; [exact Hplain|].
    unfold refs_of. apply in_or_app. left.
    apply in_flat_map. exists rule. split; [exact Hrule|].
    apply in_map. exact Hbackend.
  - intros d c. unfold compileRouteConfig. cbn [Compiled.Defaults].
    destruct (Defaults (Spec route)) as [d0|] eqn:Hd; [|discriminate].
    cbn [option_map]. intros [= <-]. unfold compile_defaults. cbn [Compiled.Backend].
    destruct (Backend d0) as [b|] eqn:Hb; [|discriminate].
    cbn [option_map]. intros [= <-].
    apply compile_backend_fetched; [exact Hplain|].
    unfold refs_of. rewrite Hd, Hb. apply in_or_app. right. left. reflexivity.
Qed.

Lemma compiled_backends_reflect_agents_witness :
  let route := Samples.route_bad_regex in
  let cfg := compileRouteConfig route (fst (resolveBackends Samples.compiler_env route)) in
  Forall
    (fun crule =>
       Forall
         (fun c => (Compiled.Ready c, Compiled.Endpoint c)
                   = fetched Samples.compiler_env (Compiled.Namespace c)
                       (Compiled.AgentName c))
         (Compiled.Backends crule))
    (Compiled.Rules cfg).
Proof.
  cbv zeta. apply List.Forall_forall. intros crule Hrule.
  apply List.Forall_forall. intros c Hc. revert crule c Hrule Hc.
  refine (proj1 (compiled_backends_reflect_agents Samples.compiler_env
                   Samples.route_bad_regex _)).
  split; [reflexivity|]. repeat constructor.
Defined.

Lemma routeReferencesAgent_refs (route : Route) (name ns : string) :
  routeReferencesAgent route name ns = true <->
  exists ref, In ref (refs_of route)
              /\ references (RouteNamespace route) ref name ns = true.
Proof.
  unfold routeReferencesAgent, refs_of. split.
  - destruct (existsb _ (Rules (Spec route))) eqn:Hrules.
    + intros _. apply existsb_exists in Hrules. destruct Hrules as (rule & Hrule & Hb).
      apply existsb_exists in Hb. destruct Hb as (b & Hb & Href).
      exists (BackendAgentRef b). split; [|exact Href].
      apply in_or_app. left. apply in_flat_map. exists rule. split; [exact Hrule|].
      now apply in_map.
    + destruct (Defaults (Spec route)) as [d|]; [|discriminate].
      destruct (Backend d) as [b|]; [|discriminate].
      destruct (references _ (BackendAgentRef b) name ns) eqn:Href; [|discriminate].
      intros _. exists (BackendAgentRef b). split; [|exact Href].
      apply in_or_app. right. left. reflexivity.
  - intros (ref & Hin & Href). apply in_app_or in Hin. destruct Hin as [Hin|Hin].
    + apply in_flat_map in Hin. destruct Hin as (rule & Hrule & Hin).
      apply in_map_iff in Hin. destruct Hin as (b & <- & Hb).
      assert (Hex : existsb
                (fun rule => existsb
                   (fun backend => references (RouteNamespace route)
                                     (BackendAgentRef backend) name ns)
                   (Backends rule)) (Rules (Spec route)) = true).
      { apply existsb_exists. exists rule. split; [exact Hrule|].
        apply existsb_exists. exists b. auto. }
      now rewrite Hex.
    + destruct (existsb _ (Rules (Spec route))); [reflexivity|].
      destruct (Defaults (Spec route)) as [d|]; [|destruct Hin].
      destruct (Backend d) as [b|]; [|destruct Hin].
      destruct Hin as [<-|[]]. now rewrite Href.
Qed.

(** X15. The watch mapping agrees with the resolution of backends: in a
    Route whose namespaces have no slash, routeReferencesAgent holds of an
    Agent exactly when resolveBackends reports a status for that Agent, and
    findRoutesForAgent then returns the request of that Route.  A change of
    any Agent that appears in the status of a Route makes that Route be
    reconciled again. *)
Theorem findRoutesForAgent_covers_status (env : Env) (items : list Route) (route : Route)
    (name ns : string) :
  namespaces_plain route -> In route items ->
  ((exists s, In s (fst (resolveBackends env route))
              /\ StatusAgentRef s = {| RefName := name; RefNamespace := ns |})
   <-> routeReferencesAgent route name ns = true)
  /\ (routeReferencesAgent route name ns = true ->
      In (RouteName route, RouteNamespace route) (findRoutesForAgent (inr items) name ns)).
Proof.
  intros Hplain Hitems.
  destruct (resolveBackends_resolved env route Hplain) as (st & [_ Hback] & ->).
  split.
  - rewrite routeReferencesAgent_refs. split.
    + intros (s & Hs & Href). apply Hback in Hs. destruct Hs as (ref & Hin & ->).
      exists ref. split; [exact Hin|].
      destruct (resolve_one_status env (RouteNamespace route) ref) as (Hst & _).
      cbv zeta in Hst. rewrite Hst in Href. injection Href as Hn Hns.
      unfold references. rewrite Hn, Hns, !String.eqb_refl. reflexivity.
    + intros (ref & Hin & Href).
      exists (fst (resolve_one env (RouteNamespace route) ref)).
      split; [apply Hback; eauto|].
      destruct (resolve_one_status env (RouteNamespace route) ref) as (Hst & _).
      cbv zeta in Hst. rewrite Hst.
      unfold references in Href. apply andb_prop in Href. destruct Href as [Hn Hns].
      apply String.eqb_eq in Hn, Hns. now rewrite Hn, Hns.
  - intros Href. unfold findRoutesForAgent.
    apply (in_map (fun r => (RouteName r, RouteNamespace r))).
    apply filter_In. auto.
Qed.

Lemma findRoutesForAgent_covers_status_witness :
  In ("route", "ns")
    (findRoutesForAgent (inr [Samples.route13; Samples.route_bad_regex]) "alpha" "ns").
Proof.
  refine (proj2 (findRoutesForAgent_covers_status Samples.compiler_env
                   [Samples.route13; Samples.route_bad_regex] Samples.route_bad_regex
                   "alpha" "ns" _ _) _).
  - split; [reflexivity|]. repeat constructor.
  - right. left. reflexivity.
  - reflexivity.
Defined.

Lemma resolve_ref_allReady env routeNs st ref :
  allReady st = forallb BackendReady (backends st) ->
  allReady (resolve_ref env routeNs st ref)
    = forallb BackendReady (backends (resolve_ref env routeNs st ref)).
Proof.
  intros H. unfold resolve_ref. destruct (bool_decide _); [exact H|].
  destruct (resolve_one_status env routeNs ref) as (_ & _ & Hok).
  destruct (resolve_one env routeNs ref) as [status ok]. cbn [fst snd] in Hok.
  cbn [allReady backends]. rewrite forallb_app, H, Hok. cbn [forallb].
  now rewrite andb_true_r.
Qed.

Lemma resolveBackends_allReady env route :
  snd (resolveBackends env route) = forallb BackendReady (fst (resolveBackends env route)).
Proof.
  unfold resolveBackends.
  set (st0 := {| backends := []; allReady := true; seen := ∅ |}).
  assert (H0 : allReady st0 = forallb BackendReady (backends st0)) by reflexivity.
  assert (Hinner : forall bs st,
            allReady st = forallb BackendReady (backends st) ->
            let st' := fold_left
                         (fun st b => resolve_ref env (RouteNamespace route) st
                                        (BackendAgentRef b)) bs st in
            allReady st' = forallb BackendReady (backends st')).
  { induction bs as [|b bs IH]; intros st Hst; cbn [fold_left]; [exact Hst|].
    apply IH. now apply resolve_ref_allReady. }
  assert (Houter : forall rules st,
            allReady st = forallb BackendReady (backends st) ->
            let st' := fold_left
                         (fun st rule =>
                            fold_left
                              (fun st b => resolve_ref env (RouteNamespace route) st
                                             (BackendAgentRef b)) (Backends rule) st)
                         rules st in
            allReady st' = forallb BackendReady (backends st')).
  { induction rules as [|r rules IH]; intros st Hst; cbn [fold_left]; [exact Hst|].
    apply IH. now apply Hinner. }
  pose proof (Houter (Rules (Spec route)) st0 H0) as H1. cbv zeta in H1.
  destruct (Defaults (Spec route)) as [d|]; [destruct (Backend d) as [b|]|];
    cbn [fst snd]; auto.
  now apply resolve_ref_allReady.
Qed.

(** X16. When the status of a Route is stored, its Ready flag is true exactly
    when the routes ConfigMap was written and every backend status listed
    in the status is ready (a Route without backends is Ready); the Ready
    condition says the same as the flag, and the statuses listed are those
    that resolveBackends returned. *)
Theorem Reconcile_ready_iff_backends_ready (env : Env) (route : Route) :
  status_update env = UpdateOk ->
  let st := Status_ (stored (Reconcile env route)) in
  StatusBackends st = fst (resolveBackends env route)
  /\ (Ready st = true <->
      routes_config_map_err env = None
      /\ Forall (fun b => BackendReady b = true) (StatusBackends st))
  /\ exists c, FindStatusCondition (Conditions st) "Ready" = Some c
               /\ (Status c = ConditionTrue <-> Ready st = true).
Proof.
  intros Hupd. cbv zeta. unfold Reconcile.
  pose proof (resolveBackends_allReady env route) as Hall.
  destruct (resolveBackends env route) as [bs all]. cbn [fst snd] in Hall.
  destruct (routes_config_map_err env) as [e|]; rewrite Hupd;
    cbn [stored Status_ with_status StatusBackends Ready Conditions].
  - split; [reflexivity|]. split.
    + split; [discriminate|]. intros [H _]. discriminate.
    + eexists. split; [apply (FindStatusCondition_set _ (ready_condition route _ _ _))|].
      cbn [ready_condition Status]. split; discriminate.
  - split; [reflexivity|]. split.
    + rewrite Hall, forallb_forall, List.Forall_forall. split.
      * intros H. split; [reflexivity|exact H].
      * intros [_ H]. exact H.
    + destruct all.
      * eexists. split; [apply (FindStatusCondition_set _ (ready_condition route _ _ _))|].
        cbn [ready_condition Status]. tauto.
      * eexists. split; [apply (FindStatusCondition_set _ (ready_condition route _ _ _))|].
        cbn [ready_condition Status]. split; discriminate.
Qed.

Lemma Reconcile_ready_iff_backends_ready_witness :
  Ready (Status_ (stored (Reconcile Samples.compiler_env Samples.route13))) = true
  <-> routes_config_map_err Samples.compiler_env = None
      /\ Forall (fun b => BackendReady b = true)
           (StatusBackends (Status_ (stored (Reconcile Samples.compiler_env Samples.route13)))).
Proof.
  destruct (Reconcile_ready_iff_backends_ready Samples.compiler_env Samples.route13 eq_refl)
    as (_ & H & _).
  exact H.
Defined.

End RouteBackendFacts.

(** ** Agent and Tool reconcilers *)

Section AgentMoreFacts.
Import Meta Agent.

Lemma resolveToolPackages_loop_spec env agentNs (refs : list ToolPackageRef) : forall acc,
  match resolveToolPackages_loop env agentNs refs acc with
  | inr infos =>
      exists new,
        infos = acc ++ new
        /\ Forall2
             (fun ref info =>
                exists tool,
                  get_tool env (if String.eqb (RefNamespace ref) "" then agentNs
                                else RefNamespace ref) (RefName ref) = inr tool
                  /\ ToolReady tool = true
                  /\ info = {| InfoName := ToolObjName tool;
                               InfoNamespace := ToolObjNamespace tool;
                               InfoImage := ToolImage tool;
                               InfoEntryModule := ToolEntryModule tool;
                               InfoEnabledTools := EnabledTools ref;
                               InfoDisabledTools := DisabledTools ref |})
             refs new
  | inl _ =>
      exists ref, In ref refs
        /\ match get_tool env (if String.eqb (RefNamespace ref) "" then agentNs
                               else RefNamespace ref) (RefName ref) with
           | inl _ => True
           | inr tool => ToolReady tool = false
           end
  end.
Proof.
  induction refs as [|ref rest IH]; intros acc; cbn [resolveToolPackages_loop].
  - exists []. split; [now rewrite app_nil_r|constructor].
  - destruct (get_tool env _ (RefName ref)) as [e|tool] eqn:Hget.
    + exists ref. split; [left; reflexivity|]. now rewrite Hget.
    + destruct (ToolReady tool) eqn:Hready; cbn [negb].
      * specialize (IH (acc ++ [{| InfoName := ToolObjName tool;
                                   InfoNamespace := ToolObjNamespace tool;
                                   InfoImage := ToolImage tool;
                                   InfoEntryModule := ToolEntryModule tool;
                                   InfoEnabledTools := EnabledTools ref;
                                   InfoDisabledTools := DisabledTools ref |}])).
        destruct (resolveToolPackages_loop env agentNs rest _) as [e|infos].
        -- destruct IH as (r & Hr & Hbad). exists r. split; [right; exact Hr|exact Hbad].
        -- destruct IH as (new & -> & Hall). eexists (_ :: new).
           split; [rewrite <- app_assoc; reflexivity|].
           constructor; [|exact Hall]. exists tool. auto.
      * exists ref. split; [left; reflexivity|]. now rewrite Hget.
Qed.

(** X17. resolveToolPackages succeeds only when every referenced Tool was
    fetched and is ready, and then returns one entry per reference, in the
    order of the references, with the image and entry module of the Tool
    and the enabled and disabled tools of the reference; it fails as soon as
    one reference names a Tool that cannot be fetched or is not ready. *)
Theorem resolveToolPackages_all_or_nothing (env : Env) (a : Agent) :
  match resolveToolPackages env a with
  | inr infos =>
      Forall2
        (fun ref info =>
           exists tool,
             get_tool env (if String.eqb (RefNamespace ref) "" then Namespace a
                           else RefNamespace ref) (RefName ref) = inr tool
             /\ ToolReady tool = true
             /\ info = {| InfoName := ToolObjName tool;
                          InfoNamespace := ToolObjNamespace tool;
                          InfoImage := ToolImage tool;
                          InfoEntryModule := ToolEntryModule tool;
                          InfoEnabledTools := EnabledTools ref;
                          InfoDisabledTools := DisabledTools ref |})
        (ToolPackages (Spec a)) infos
  | inl _ =>
      exists ref, In ref (ToolPackages (Spec a))
        /\ match get_tool env (if String.eqb (RefNamespace ref) "" then Namespace a
                               else RefNamespace ref) (RefName ref) with
           | inl _ => True
           | inr tool => ToolReady tool = false
           end
  end.
Proof.
  unfold resolveToolPackages.
  pose proof (resolveToolPackages_loop_spec env (Namespace a) (ToolPackages (Spec a)) [])
    as H.
  destruct (resolveToolPackages_loop env (Namespace a) (ToolPackages (Spec a)) []);
    [exact H|].
  destruct H as (new & -> & Hall). exact Hall.
Qed.

(** X18. When Agent.Reconcile returns without error, the stored status is
    consistent: a Ready agent has at least one ready replica and at least
    as many as the spec asks for, and lists the tools of its spec if it
    declares any; an agent that is not Ready lists no tools; the Ready
    condition says the same as the Ready flag; and the observed generation
    is the agent's. *)
Theorem Reconcile_success_status_consistent (env : Env) (a : Agent) :
  err (Reconcile env a) = None ->
  let st := AgentStatus_ (stored (Reconcile env a)) in
  (Ready st = true ->
     0 < AvailableReplicas st
     /\ default 1 (Replicas (Spec a)) <= AvailableReplicas st
     /\ (Tools (Spec a) <> [] -> AvailableTools st = Tools (Spec a)))
  /\ (Ready st = false -> AvailableTools st = [])
  /\ StatusObservedGeneration st = Generation a
  /\ exists c, FindStatusCondition (Conditions st) "Ready" = Some c
               /\ (Status c = ConditionTrue <-> Ready st = true).
Proof.
  unfold Reconcile.
  destruct (resolveToolPackages env a) as [e|pk].
  { destruct (status_update_err env); discriminate. }
  destruct (service_account_err env); [discriminate|].
  destruct (config_map env) as [e|hash]; [discriminate|].
  destruct (deployment_err env); [discriminate|].
  destruct (service_err env); [discriminate|].
  unfold checkDeploymentReady.
  destruct (get_deployment env) as [d|].
  - set (replicas := match Replicas (Spec a) with Some r => r | None => 1 end).
    assert (Hrep : default 1 (Replicas (Spec a)) = replicas).
    { unfold replicas. now destruct (Replicas (Spec a)). }
    destruct (status_update_err env); [discriminate|]. intros _. cbv zeta.
    cbn [stored AgentStatus_ with_status Ready AvailableReplicas AvailableTools
         StatusObservedGeneration Conditions].
    rewrite Hrep.
    destruct (Z.geb_spec (ReadyReplicas d) replicas), (Z.gtb_spec (ReadyReplicas d) 0);
      cbn [andb negb]; (split; [|split; [|split; [reflexivity|]]]);
      try discriminate; try (intros _; reflexivity).
    + intros _. split; [lia|]. split; [lia|]. intros Hne.
      destruct (Tools (Spec a)); [congruence|reflexivity].
    + eexists. split; [apply (FindStatusCondition_set _ (ready_condition a _ _ _))|].
      cbn [ready_condition Status]. tauto.
    + eexists. split; [apply (FindStatusCondition_set _ (ready_condition a _ _ _))|].
      cbn [ready_condition Status]. split; discriminate.
    + eexists. split; [apply (FindStatusCondition_set _ (ready_condition a _ _ _))|].
      cbn [ready_condition Status]. split; discriminate.
    + eexists. split; [apply (FindStatusCondition_set _ (ready_condition a _ _ _))|].
      cbn [ready_condition Status]. split; discriminate.
  - destruct (status_update_err env); [discriminate|]. intros _. cbv zeta.
    cbn [stored AgentStatus_ with_status Ready AvailableReplicas AvailableTools
         StatusObservedGeneration Conditions andb negb].
    split; [discriminate|]. split; [reflexivity|]. split; [reflexivity|].
    eexists. split; [apply (FindStatusCondition_set _ (ready_condition a _ _ _))|].
    cbn [ready_condition Status]. split; discriminate.
Qed.

Lemma Reconcile_success_status_consistent_witness :
  AvailableTools (AgentStatus_ (stored (Reconcile (sample_env 0) sample_agent))) = [].
Proof.
  destruct (Reconcile_success_status_consistent (sample_env 0) sample_agent eq_refl)
    as (_ & H & _).
  apply H. reflexivity.
Defined.

End AgentMoreFacts.

Section ToolFacts.
Import Meta ToolController.

(** X19. When the status of a Tool is stored, the Tool is Ready exactly when
    its spec names an image, and the Ready condition says the same; a Ready
    Tool lists the tools of its spec and has observed its generation; a
    Tool that failed validation keeps its listed tools and its observed
    generation, and the reconciliation returns no error.  When the status
    update fails nothing is stored and the update's error is returned. *)
Theorem Tool_Reconcile_ready_iff_image (tool : Tool) :
  let o := Reconcile None tool in
  let st := Status_ (stored o) in
  err o = None
  /\ (Ready st = true <-> Image (Spec tool) <> "")
  /\ (exists c, FindStatusCondition (Conditions st) "Ready" = Some c
                /\ (Status c = ConditionTrue <-> Ready st = true))
  /\ (Ready st = true ->
        AvailableTools st = Tools (Spec tool) /\ ObservedGeneration_ st = Generation tool)
  /\ (Ready st = false ->
        AvailableTools st = AvailableTools (Status_ tool)
        /\ ObservedGeneration_ st = ObservedGeneration_ (Status_ tool))
  /\ (forall e, Reconcile (Some e) tool = {| stored := tool; err := Some e |}).
Proof.
  cbv zeta. unfold Reconcile, validateSpec.
  destruct (String.eqb_spec (Image (Spec tool)) "") as [Himg|Himg];
    cbn [stored err Status_ with_status Ready Conditions AvailableTools ObservedGeneration_].
  - split; [reflexivity|]. split; [split; [discriminate|congruence]|].
    split.
    { eexists. split.
      - apply (FindStatusCondition_set _
                 {| Type_ := "Ready"; Status := ConditionFalse;
                    ObservedGeneration := Generation tool;
                    Reason := "ValidationFailed"; Message := "spec.image is required" |}).
      - cbn [Status]. split; discriminate. }
    split; [discriminate|]. split; [auto|]. reflexivity.
  - split; [reflexivity|]. split; [tauto|].
    split.
    { eexists. split.
      - apply (FindStatusCondition_set _
                 {| Type_ := "Ready"; Status := ConditionTrue;
                    ObservedGeneration := Generation tool;
                    Reason := "Validated"; Message := "Tool is valid and ready" |}).
      - cbn [Status]. tauto. }
    split; [auto|]. split; [discriminate|]. reflexivity.
Qed.

End ToolFacts.

(** ** Label values *)

Section RenderFacts.
Import Render.
Local Open Scope nat_scope.

Lemma isAlphanumeric_label_byte c : isAlphanumeric c = true -> is_label_byte c = true.
Proof.
  unfold isAlphanumeric, is_label_byte. cbv zeta. intros ->. reflexivity.
Qed.

Lemma trim_front_suffix (l : list ascii) : exists pre, l = pre ++ trim_front l.
Proof.
  induction l as [|c rest [pre IH]]; cbn [trim_front]; [exists []; reflexivity|].
  destruct (isAlphanumeric c); cbn [negb].
  - exists []. reflexivity.
  - exists (c :: pre). cbn [app]. now rewrite <- IH.
Qed.

Lemma trim_front_head (l : list ascii) c rest :
  trim_front l = c :: rest -> isAlphanumeric c = true.
Proof.
  induction l as [|d l IH]; cbn [trim_front]; [discriminate|].
  destruct (isAlphanumeric d) eqn:Hd; cbn [negb]; [|exact IH].
  intros [= <- _]. exact Hd.
Qed.

Lemma trim_front_id c rest : isAlphanumeric c = true -> trim_front (c :: rest) = c :: rest.
Proof. intros H. cbn [trim_front]. now rewrite H. Qed.

Lemma trim_back_prefix (l : list ascii) : exists post, l = trim_back l ++ post.
Proof.
  unfold trim_back. destruct (trim_front_suffix (rev l)) as [pre H].
  exists (rev pre). rewrite <- rev_app_distr, <- H. now rewrite rev_involutive.
Qed.

Lemma trim_back_last (l : list ascii) front c :
  trim_back l = front ++ [c] -> isAlphanumeric c = true.
Proof.
  unfold trim_back. intros H. apply (f_equal (@rev ascii)) in H.
  rewrite rev_involutive, rev_app_distr in H. cbn [rev app] in H.
  eapply trim_front_head, H.
Qed.

Lemma sanitize_bytes_valid (l : list ascii) :
  let r := map (fun c => if is_label_byte c then c else underscore) l in
  let r := if 63 <? length r then firstn 63 r else r in
  let r := trim_back (trim_front r) in
  length r <= 63
  /\ Forall (fun c => is_label_byte c = true) r
  /\ (r <> [] ->
      (exists c rest, r = c :: rest /\ isAlphanumeric c = true)
      /\ (exists c front, r = front ++ [c] /\ isAlphanumeric c = true)).
Proof.
  cbv zeta.
  set (r0 := map (fun c => if is_label_byte c then c else underscore) l).
  assert (H0 : Forall (fun c => is_label_byte c = true) r0).
  { unfold r0. apply List.Forall_forall. intros c Hc. apply in_map_iff in Hc.
    destruct Hc as (d & <- & _). destruct (is_label_byte d) eqn:Hd; [exact Hd|reflexivity]. }
  set (r1 := if 63 <? length r0 then firstn 63 r0 else r0).
  assert (H1 : length r1 <= 63 /\ Forall (fun c => is_label_byte c = true) r1).
  { unfold r1. destruct (Nat.ltb_spec 63 (length r0)).
    - split; [rewrite length_firstn; lia|]. now apply Forall_take.
    - split; [lia|exact H0]. }
  destruct H1 as [Hlen1 Hall1].
  destruct (trim_front_suffix r1) as [pre Hpre].
  set (r2 := trim_front r1) in *.
  destruct (trim_back_prefix r2) as [post Hpost].
  set (r3 := trim_back r2) in *.
  assert (Hr1 : r1 = pre ++ r3 ++ post) by (rewrite Hpre at 1; now rewrite Hpost at 1).
  split; [|split].
  - rewrite Hr1, !length_app in Hlen1. lia.
  - rewrite Hr1 in Hall1. apply Forall_app in Hall1. destruct Hall1 as [_ Hall1].
    apply Forall_app in Hall1. tauto.
  - intros Hne. split.
    + destruct r3 as [|c rest] eqn:Hr3; [congruence|]. exists c, rest. split; [reflexivity|].
      destruct r2 as [|c2 rest2] eqn:Hr2.
      * destruct post; discriminate.
      * injection Hpost as -> _. eapply trim_front_head. exact Hr2.
    + destruct (exists_last Hne) as (front & c & Hlast).
      exists c, front. split; [exact Hlast|]. eapply trim_back_last. exact Hlast.
Qed.

Lemma sanitize_bytes_fixed (l : list ascii) :
  length l <= 63 ->
  Forall (fun c => is_label_byte c = true) l ->
  (exists c rest, l = c :: rest /\ isAlphanumeric c = true) ->
  (exists c front, l = front ++ [c] /\ isAlphanumeric c = true) ->
  let r := map (fun c => if is_label_byte c then c else underscore) l in
  let r := if 63 <? length r then firstn 63 r else r in
  trim_back (trim_front r) = l.
Proof.
  intros Hlen Hall (c & rest & Hc & Hca) (d & front & Hd & Hda). cbv zeta.
  assert (Hmap : map (fun c => if is_label_byte c then c else underscore) l = l).
  { clear -Hall. induction Hall as [|x xs Hx _ IH]; cbn [map]; [reflexivity|].
    now rewrite Hx, IH. }
  rewrite Hmap. destruct (Nat.ltb_spec 63 (length l)); [lia|].
  assert (Hfront : trim_front l = l) by (rewrite Hc; now apply trim_front_id).
  rewrite Hfront. unfold trim_back. rewrite Hd at 1. rewrite rev_app_distr.
  cbn [rev app]. rewrite trim_front_id by exact Hda.
  change (d :: rev front) with (rev [d] ++ rev front).
  rewrite <- rev_app_distr, rev_involutive. now rewrite <- Hd.
Qed.

Lemma unknown_valid : valid_label_value "unknown".
Proof.
  unfold valid_label_value. cbv zeta. cbn.
  split; [lia|]. split; [lia|]. split; [repeat constructor|].
  split; [eexists; eexists; split; reflexivity|].
  exists "n"%char, (list_ascii_of_string "unknow"). split; reflexivity.
Qed.

(** X20. sanitizeLabelValue returns a valid label value for every input: at
    most 63 bytes, only letters, digits, '-', '_' and '.', never empty, and
    a letter or a digit first and last; applying it to its own result
    changes nothing. *)
Theorem sanitizeLabelValue_valid (s : string) :
  valid_label_value (sanitizeLabelValue s)
  /\ sanitizeLabelValue (sanitizeLabelValue s) = sanitizeLabelValue s.
Proof.
  unfold sanitizeLabelValue at 1 3 4. cbv zeta.
  destruct (sanitize_bytes_valid (list_ascii_of_string s)) as (Hlen & Hall & Hends).
  cbv zeta in Hlen, Hall, Hends.
  match goal with
  | |- context [if length ?r =? 0 then _ else _] => set (res := r) in *
  end.
  destruct (Nat.eqb_spec (length res) 0) as [Hz|Hnz].
  - split; [exact unknown_valid|reflexivity].
  - assert (Hne : res <> []) by (intros Heq; apply Hnz; now rewrite Heq).
    destruct (Hends Hne) as [Hfirst Hlast].
    assert (Hpos : 0 < length res) by lia.
    split.
    + unfold valid_label_value. cbv zeta. rewrite list_ascii_of_string_of_list_ascii.
      split; [exact Hpos|]. split; [exact Hlen|]. split; [exact Hall|]. split; assumption.
    + unfold sanitizeLabelValue. cbv zeta. rewrite list_ascii_of_string_of_list_ascii.
      pose proof (sanitize_bytes_fixed res Hlen Hall Hfirst Hlast) as Hfix.
      cbv zeta in Hfix. rewrite Hfix.
      destruct (Nat.eqb_spec (length res) 0); [lia|reflexivity].
Qed.

(** X21. sanitizeLabelValue leaves a valid label value as it is. *)
Theorem sanitizeLabelValue_fixes_valid (s : string) :
  valid_label_value s -> sanitizeLabelValue s = s.
Proof.
  intros (Hpos & Hlen & Hall & Hfirst & Hlast).
  unfold sanitizeLabelValue. cbv zeta.
  pose proof (sanitize_bytes_fixed (list_ascii_of_string s) Hlen Hall Hfirst Hlast) as Hfix.
  cbv zeta in Hfix. rewrite Hfix.
  destruct (Nat.eqb_spec (length (list_ascii_of_string s)) 0); [lia|].
  apply string_of_list_ascii_of_string.
Qed.

Lemma sanitizeLabelValue_fixes_valid_witness :
  sanitizeLabelValue "claude-3.5_sonnet" = "claude-3.5_sonnet".
Proof.
  apply (sanitizeLabelValue_fixes_valid "claude-3.5_sonnet").
  unfold valid_label_value. cbv zeta. cbn.
  split; [lia|]. split; [lia|]. split; [repeat constructor|].
  split; [eexists; eexists; split; reflexivity|].
  exists "t"%char, (list_ascii_of_string "claude-3.5_sonne"). split; reflexivity.
Defined.

End RenderFacts.

(** ** MCP endpoint helpers *)

Section McpFacts.
Import GoStrings Mcp.
Local Open Scope nat_scope.

Lemma length_append (s t : string) :
  String.length (s +:+ t) = String.length s + String.length t.
Proof.
  induction s as [|c s IH]; [reflexivity|].
  rewrite append_cons_l. cbn [String.length]. now rewrite IH.
Qed.

Lemma substring_0_0 (s : string) : String.substring 0 0 s = "".
Proof. destruct s; reflexivity. Qed.

Lemma substring_0_S n c (s : string) :
  String.substring 0 (S n) (String c s) = String c (String.substring 0 n s).
Proof. reflexivity. Qed.

Lemma length_substring_0 n : forall s : string,
  n <= String.length s -> String.length (String.substring 0 n s) = n.
Proof.
  induction n as [|n IH]; intros s Hn; [now rewrite substring_0_0|].
  destruct s as [|c s]; cbn [String.length] in Hn; [lia|].
  rewrite substring_0_S. cbn [String.length]. rewrite IH; lia.
Qed.

Lemma string_prefix_length (p s : string) :
  String.prefix p s = true -> String.length p <= String.length s.
Proof.
  revert s. induction p as [|c p IH]; intros s; cbn [String.length]; [lia|].
  destruct s as [|d s]; cbn [String.prefix String.length]; [discriminate|].
  destruct (ascii_dec c d); [|discriminate]. intros H. apply IH in H. lia.
Qed.

Lemma Index_bound (s sub : string) : forall i,
  Index s sub = Some i -> i + String.length sub <= String.length s.
Proof.
  induction s as [|c s IH]; intros i; cbn [Index].
  - destruct (String.prefix sub "") eqn:Hp; [|discriminate].
    intros [= <-]. apply string_prefix_length in Hp. lia.
  - destruct (String.prefix sub (String c s)) eqn:Hp.
    + intros [= <-]. apply string_prefix_length in Hp. lia.
    + destruct (Index s sub) as [j|]; [|discriminate]. intros [= <-].
      specialize (IH j eq_refl). cbn [String.length]. lia.
Qed.

(** X22. extractDescription returns a description that is never empty and
    never longer than 200 bytes. *)
Theorem extractDescription_bounds (prompt : string) :
  0 < String.length (extractDescription prompt) <= 200.
Proof.
  unfold extractDescription. cbv zeta.
  set (p := TrimSpace prompt).
  destruct (Nat.eqb_spec (String.length p) 0) as [Hz|Hnz]; [cbn; lia|].
  assert (Hrest : 0 < String.length
                        (if 200 <? String.length p
                         then String.substring 0 197 p +:+ "..." else p) <= 200).
  { destruct (Nat.ltb_spec 200 (String.length p)).
    - rewrite length_append, length_substring_0 by lia. cbn [String.length]. lia.
    - lia. }
  destruct (Index p ".") as [idx|] eqn:Hidx; [|exact Hrest].
  destruct (Nat.ltb_spec 0 idx), (Nat.ltb_spec idx 200); cbn [andb]; try exact Hrest.
  apply Index_bound in Hidx. cbn [String.length] in Hidx.
  rewrite length_substring_0; lia.
Qed.

Lemma prefix_single c d (s : string) :
  String.prefix (String c "") (String d s) = if ascii_dec c d then true else false.
Proof. cbn [String.prefix]. destruct (ascii_dec c d); [|reflexivity]. now destruct s. Qed.

Lemma Index_first_separator (sep : ascii) (a : string) : forall rest,
  Index a (String sep "") = None ->
  Index (a +:+ String sep rest) (String sep "") = Some (String.length a).
Proof.
  induction a as [|c a IH]; intros rest.
  - intros _. rewrite append_nil_l. cbn [Index]. rewrite prefix_single.
    destruct (ascii_dec sep sep); [reflexivity|congruence].
  - rewrite append_cons_l. cbn [Index]. rewrite !prefix_single.
    destruct (ascii_dec sep c); [discriminate|].
    destruct (Index a (String sep "")) eqn:Ha; [discriminate|]. intros _.
    rewrite (IH rest eq_refl). reflexivity.
Qed.

Lemma substring_append_length (a : string) : forall rest,
  String.substring 0 (String.length a) (a +:+ rest) = a.
Proof.
  induction a as [|c a IH]; intros rest.
  - cbn [String.length]. apply substring_0_0.
  - rewrite append_cons_l. cbn [String.length]. rewrite substring_0_S. now rewrite IH.
Qed.

Lemma drop_bytes_append_length (a : string) : forall rest,
  drop_bytes (String.length a) (a +:+ rest) = rest.
Proof.
  induction a as [|c a IH]; intros rest.
  - rewrite append_nil_l. reflexivity.
  - rewrite append_cons_l. cbn [String.length drop_bytes]. apply IH.
Qed.

Lemma split_tool_name_tool_name (agent tool : string) :
  agent <> "" -> Index agent "_" = None ->
  split_tool_name (tool_name agent tool) = (agent, tool).
Proof.
  intros Hne Hidx. unfold split_tool_name, tool_name.
  change ("_" +:+ tool) with (String "_" tool).
  rewrite (Index_first_separator "_" agent tool Hidx).
  destruct (Nat.ltb_spec 0 (String.length agent)) as [_|Hlen].
  - rewrite substring_append_length. f_equal.
    replace (String.length agent + 1) with (String.length (agent +:+ "_")).
    + change (String "_" tool) with ("_" +:+ tool).
      replace (agent +:+ "_" +:+ tool) with ((agent +:+ "_") +:+ tool).
      * apply drop_bytes_append_length.
      * clear. induction agent as [|c a IH]; [reflexivity|].
        rewrite !append_cons_l. now rewrite IH.
    + rewrite length_append. reflexivity.
  - destruct agent; [congruence|cbn [String.length] in Hlen; lia].
Qed.

(** X23. The name under which buildToolsList advertises a tool leads back
    to its agent: for an agent whose name is not empty and has no
    underscore, the name agent_tool is split by the call handlers into that
    agent and that tool, and every tool that buildToolsList lists for such
    agents is resolved to one of them. *)
Theorem buildToolsList_names_resolve (ready : list Agent) :
  Forall (fun a => Name a <> "" /\ Index (Name a) "_" = None) ready ->
  (forall a tool, In a ready ->
     split_tool_name (tool_name (Name a) tool) = (Name a, tool))
  /\ (forall t, In t (buildToolsList ready) ->
        exists a, In a ready /\ fst (split_tool_name (McpName t)) = Name a).
Proof.
  intros Hnames. rewrite List.Forall_forall in Hnames. split.
  - intros a tool Ha. destruct (Hnames a Ha). now apply split_tool_name_tool_name.
  - intros t Ht. unfold buildToolsList in Ht. apply in_flat_map in Ht.
    destruct Ht as (a & Ha & Ht). exists a. split; [exact Ha|].
    destruct (Hnames a Ha) as [Hne Hidx]. unfold agent_tools in Ht.
    destruct (0 <? length _).
    + apply in_map_iff in Ht. destruct Ht as (x & <- & _). cbn [McpName].
      now rewrite split_tool_name_tool_name.
    + destruct Ht as [<-|[]]. cbn [McpName]. unfold split_tool_name. now rewrite Hidx.
Qed.

Lemma buildToolsList_names_resolve_witness :
  let a := {| Name := "billing"; Namespace := "ns"; Prompt := "Answers billing questions.";
              SpecTools := []; Ready := true; Endpoint := "billing.ns.svc.cluster.local:8080";
              AvailableTools := [] |} in
  split_tool_name (tool_name (Name a) "refund_order") = ("billing", "refund_order").
Proof.
  cbv zeta.
  refine (proj1 (buildToolsList_names_resolve [_] _) _ "refund_order" (or_introl eq_refl)).
  constructor; [|constructor]. split; [discriminate|reflexivity].
Defined.

End McpFacts.

(** ** The endpoint of an Agent as the gateway dials it *)

Section EndpointFacts.
Import GoStrings Forward.
Local Open Scope nat_scope.

Lemma append_assoc_l (a b c : string) : (a +:+ b) +:+ c = a +:+ b +:+ c.
Proof.
  induction a as [|x a IH]; [reflexivity|]. rewrite !append_cons_l. now rewrite IH.
Qed.

Lemma prefix_append_self (sub q : string) : String.prefix sub (sub +:+ q) = true.
Proof.
  induction sub as [|c sub IH]; [now destruct q|].
  rewrite append_cons_l. cbn [String.prefix].
  destruct (ascii_dec c c); [exact IH|congruence].
Qed.

Lemma Index_append_found (sub q : string) (p : string) :
  Index (p +:+ sub +:+ q) sub <> None.
Proof.
  induction p as [|c p IH].
  - rewrite append_nil_l.
    destruct (sub +:+ q) eqn:Hs; cbn [Index]; rewrite <- Hs, prefix_append_self;
      discriminate.
  - rewrite append_cons_l. cbn [Index].
    destruct (String.prefix sub (String c (p +:+ sub +:+ q))); [discriminate|].
    destruct (Index (p +:+ sub +:+ q) sub); [discriminate|contradiction].
Qed.

Lemma Index_char_append (sep : ascii) (a b : string) :
  Index a (String sep "") = None -> Index b (String sep "") = None ->
  Index (a +:+ b) (String sep "") = None.
Proof.
  intros Ha Hb. induction a as [|c a IH]; [exact Hb|].
  rewrite append_cons_l. cbn [Index] in *. rewrite prefix_single in *.
  destruct (ascii_dec sep c); [discriminate|].
  destruct (Index a (String sep "")); [discriminate|]. now rewrite IH.
Qed.

Lemma list_ascii_of_string_append (a b : string) :
  list_ascii_of_string (a +:+ b) = list_ascii_of_string a ++ list_ascii_of_string b.
Proof.
  induction a as [|c a IH]; [reflexivity|].
  rewrite append_cons_l. cbn [list_ascii_of_string app]. now rewrite IH.
Qed.

(** X24. The endpoint that the operator writes into the status of an Agent
    whose name and namespace have no colon, name.namespace.svc.cluster.local:8080,
    is dialled by both forwarders of the gateway with the host made absolute:
    http://name.namespace.svc.cluster.local.:8080/invoke. *)
Theorem invoke_url_of_AgentEndpoint (a : Agent.Agent) :
  Index (Agent.Name a) ":" = None -> Index (Agent.Namespace a) ":" = None ->
  invoke_url (Agent.AgentEndpoint a)
  = "http://" +:+ Agent.Name a +:+ "." +:+ Agent.Namespace a
    +:+ ".svc.cluster.local.:8080/invoke".
Proof.
  intros Hname Hns. unfold invoke_url, Agent.AgentEndpoint.
  set (host := Agent.Name a +:+ "." +:+ Agent.Namespace a +:+ ".svc.cluster.local").
  assert (Hendpoint : Agent.Name a +:+ "." +:+ Agent.Namespace a
                      +:+ ".svc.cluster.local:" +:+ "8080" = host +:+ String ":" "8080").
  { unfold host. rewrite !append_assoc_l. reflexivity. }
  rewrite Hendpoint.
  assert (Hhost : Index host ":" = None).
  { unfold host. apply Index_char_append; [exact Hname|].
    apply (Index_char_append ":" "."); [reflexivity|].
    apply Index_char_append; [exact Hns|reflexivity]. }
  assert (Hsplit : split_colon (host +:+ String ":" "8080") = (host, Some "8080")).
  { unfold split_colon. rewrite (Index_first_separator ":" host "8080" Hhost).
    rewrite substring_append_length. f_equal. f_equal.
    replace (String.length host + 1) with (String.length (host +:+ ":"))
      by (rewrite length_append; reflexivity).
    change (String ":" "8080") with (":" +:+ "8080").
    rewrite <- append_assoc_l. apply drop_bytes_append_length. }
  assert (Hcontains : Contains (host +:+ String ":" "8080") ".svc.cluster.local" = true).
  { unfold Contains, host.
    replace ((Agent.Name a +:+ "." +:+ Agent.Namespace a +:+ ".svc.cluster.local")
             +:+ String ":" "8080")
      with ((Agent.Name a +:+ "." +:+ Agent.Namespace a) +:+ ".svc.cluster.local"
            +:+ String ":" "8080")
      by (rewrite !append_assoc_l; reflexivity).
    pose proof (Index_append_found ".svc.cluster.local" (String ":" "8080")
                  (Agent.Name a +:+ "." +:+ Agent.Namespace a)) as Hfound.
    destruct (Index _ ".svc.cluster.local"); [reflexivity|contradiction]. }
  assert (Hsuffix : HasSuffix host "." = false).
  { unfold HasSuffix, rev_string, host.
    replace (Agent.Name a +:+ "." +:+ Agent.Namespace a +:+ ".svc.cluster.local")
      with ((Agent.Name a +:+ "." +:+ Agent.Namespace a) +:+ ".svc.cluster.local")
      by (rewrite !append_assoc_l; reflexivity).
    rewrite list_ascii_of_string_append, rev_app_distr. reflexivity. }
  unfold fqdn_endpoint. rewrite Hcontains, Hsplit. cbn [fst]. rewrite Hsuffix.
  cbn [negb andb]. unfold host. rewrite !append_assoc_l. reflexivity.
Qed.

Lemma invoke_url_of_AgentEndpoint_witness :
  invoke_url (Agent.AgentEndpoint Agent.sample_agent)
  = "http://alpha.ns.svc.cluster.local.:8080/invoke".
Proof.
  apply (invoke_url_of_AgentEndpoint Agent.sample_agent); reflexivity.
Defined.

End EndpointFacts.

(** ** Task reconciler: limits, finalizer and the steps of the status *)

Section TaskMoreFacts.
Import Meta GoStrings Task TaskSteps.

(** X25. getEffectiveLimits always sets the four limits that have a default;
    a limit that the spec sets is kept, a limit that it leaves out gets the
    default (100 iterations, 30 minutes per iteration, 24 hours in total, 3
    consecutive failures); the limit on Job recreations is passed through;
    and the effective limits of a Task whose spec already holds effective
    limits are these limits. *)
Theorem getEffectiveLimits_defaults (t : Task) :
  let u := default {| MaxIterations := None; IterationTimeout := None; TotalTimeout := None;
                      MaxConsecutiveFailures := None; MaxJobRecreations := None |}
             (Limits (Spec t)) in
  let l := getEffectiveLimits t in
  MaxIterations l = Some (default 100 (MaxIterations u))
  /\ IterationTimeout l = Some (default (30 * 60 * 1000000000) (IterationTimeout u))
  /\ TotalTimeout l = Some (default (24 * 60 * 60 * 1000000000) (TotalTimeout u))
  /\ MaxConsecutiveFailures l = Some (default 3 (MaxConsecutiveFailures u))
  /\ MaxJobRecreations l = MaxJobRecreations u
  /\ (forall t', Limits (Spec t') = Some l -> getEffectiveLimits t' = l).
Proof.
  cbv zeta. unfold getEffectiveLimits.
  destruct (Limits (Spec t)) as [u|]; cbn [default MaxIterations IterationTimeout
    TotalTimeout MaxConsecutiveFailures MaxJobRecreations];
    repeat (split; [reflexivity|]); intros t' ->; reflexivity.
Qed.

Lemma update_status_steps env old s res :
  step_ok env (Status_ old) s -> keeps_or_steps env old (update_status env old s res).
Proof.
  intros Hok. unfold keeps_or_steps, update_status.
  destruct (status_update_err env); cbn [stored err Status_ with_status]; auto.
Qed.

Lemma keeps_status env old o : Status_ (stored o) = Status_ old -> keeps_or_steps env old o.
Proof. intros H. now left. Qed.

Lemma length_last_n {A} (n : nat) (l : list A) : (length (last_n n l) <= n)%nat.
Proof. unfold last_n. rewrite length_skipn. lia. Qed.

Ltac step_ok_tac :=
  unfold step_ok;
  cbn [RecentIterations Phase CompletedAt set_phase set_message set_completed_at
       setCondition with_annotations Status_];
  split;
  [ intros Hlen; try exact Hlen
  | intros Hold Hnew; try reflexivity; try discriminate Hnew;
    try (rewrite Hold in Hnew; discriminate Hnew) ].

Lemma handleJobSuccess_steps lib env task job :
  keeps_or_steps env task (handleJobSuccess lib env task job).
Proof.
  unfold handleJobSuccess. cbv zeta. apply update_status_steps. step_ok_tac.
  match goal with
  | |- context [(10 <? length ?r)%nat] => destruct (Nat.ltb_spec 10 (length r))
  end; [apply length_last_n|lia].
Qed.

Lemma handleJobFailure_steps lib env task job :
  keeps_or_steps env task (handleJobFailure lib env task job).
Proof.
  unfold handleJobFailure. cbv zeta. apply update_status_steps. step_ok_tac.
Qed.

Lemma handleRunningPhase_steps lib env task :
  keeps_or_steps env task (handleRunningPhase lib env task).
Proof.
  unfold handleRunningPhase. cbv zeta.
  destruct (match StartedAt (Status_ task) with Some _ => _ | None => _ end).
  { apply update_status_steps. step_ok_tac. }
  destruct (get_job env _) as [|e|job].
  - destruct (_ >? _).
    + apply update_status_steps. step_ok_tac.
    + destruct (update_err env); [apply keeps_status; reflexivity|].
      match goal with
      | |- keeps_or_steps _ _ (update_status _ ?t1 _ _) =>
          pose proof (update_status_steps env t1 (set_phase (Status_ t1) TaskPhasePending)
                        (requeue_after failureRequeueDelay)) as H
      end.
      apply H. step_ok_tac.
  - apply keeps_status; reflexivity.
  - destruct (Succeeded job >? 0); [apply handleJobSuccess_steps|].
    destruct (Failed job >? 0); [apply handleJobFailure_steps|].
    destruct (existsb deadline_exceeded (JobConditions job)).
    + apply update_status_steps. step_ok_tac.
    + apply keeps_status; reflexivity.
Qed.

Lemma handlePendingPhase_steps lib env task :
  keeps_or_steps env task (handlePendingPhase lib env task).
Proof.
  unfold handlePendingPhase, pending_blocked.
  destruct (orchestrator_agent_err env); [apply update_status_steps; step_ok_tac|].
  destruct (worker_agent_err env); [apply update_status_steps; step_ok_tac|].
  destruct (workspace_pvc_err env); [apply keeps_status; reflexivity|].
  destruct (task_source env); [apply update_status_steps; step_ok_tac|].
  cbv zeta.
  destruct (render_job_err env); [apply update_status_steps; step_ok_tac|].
  destruct (controller_ref_err env); [apply keeps_status; reflexivity|].
  destruct (create_job_err env); [apply keeps_status; reflexivity|].
  apply update_status_steps. step_ok_tac.
Qed.

Lemma Reconcile_steps lib env task :
  keeps_or_steps env task (Reconcile lib env task).
Proof.
  unfold Reconcile. cbv zeta.
  destruct (DeletionTimestamp task).
  { unfold handleDeletion. destruct (negb _); [apply keeps_status; reflexivity|].
    destruct (update_err env); apply keeps_status; reflexivity. }
  destruct (negb (ContainsFinalizer task taskFinalizer)).
  { destruct (update_err env); apply keeps_status; [reflexivity|].
    cbn [stored]. unfold AddFinalizer. now destruct (ContainsFinalizer _ _). }
  destruct (phase_eqb (Phase (Status_ task)) PhaseUnset).
  { apply update_status_steps. step_ok_tac. }
  destruct (Paused (Spec task)).
  { destruct (negb _); [|apply keeps_status; reflexivity].
    apply update_status_steps. step_ok_tac. }
  destruct (phase_eqb _ TaskPhaseCompleted || phase_eqb _ TaskPhaseFailed).
  { apply keeps_status; reflexivity. }
  destruct (Phase (Status_ task)) eqn:Hphase;
    try (apply keeps_status; reflexivity);
    [apply handlePendingPhase_steps|apply handleRunningPhase_steps|].
  cbn [phase_eqb negb andb].
  apply update_status_steps. step_ok_tac.
Qed.

(** X26. A reconciliation that returns an error leaves the stored status of
    the Task as it was. *)
Theorem Reconcile_error_keeps_status (lib : Lib) (env : Env) (task : Task) :
  err (Reconcile lib env task) <> None ->
  Status_ (stored (Reconcile lib env task)) = Status_ task.
Proof.
  intros Herr. destruct (Reconcile_steps lib env task) as [Hkeep|[Hnone _]];
    [exact Hkeep|contradiction].
Qed.

Lemma Reconcile_error_keeps_status_witness :
  let env := {| now := 3000; update_err := None; status_update_err := Some "conflict";
                orchestrator_agent_err := None; worker_agent_err := None;
                workspace_pvc_err := None; task_source := inr "{}";
                render_job_err := None; controller_ref_err := None;
                create_job_err := None;
                get_job := fun _ => JobFound Samples.succeeded_job;
                clientset := true; list_pods := inr [];
                stream_logs := fun _ _ => inr "" |} in
  Status_ (stored (Reconcile Samples.task_lib env Samples.running_task))
  = Status_ Samples.running_task.
Proof.
  cbv zeta. apply Reconcile_error_keeps_status. vm_compute. discriminate.
Defined.

(** X27. Reconcile never lets the list of recent iterations grow beyond ten
    entries. *)
Theorem Reconcile_recent_iterations_bounded (lib : Lib) (env : Env) (task : Task) :
  (length (RecentIterations (Status_ task)) <= 10)%nat ->
  (length (RecentIterations (Status_ (stored (Reconcile lib env task)))) <= 10)%nat.
Proof.
  intros Hlen. destruct (Reconcile_steps lib env task) as [Hkeep|[_ [Hstep _]]].
  - now rewrite Hkeep.
  - now apply Hstep.
Qed.

Lemma Reconcile_recent_iterations_bounded_witness :
  (length (RecentIterations
             (Status_ (stored (Reconcile Samples.task_lib
                                 (Samples.task_env Samples.log_two_markers)
                                 Samples.running_task)))) <= 10)%nat.
Proof.
  apply Reconcile_recent_iterations_bounded. simpl. lia.
Defined.

(** X28. Whenever a reconciliation moves a Task into Completed or Failed,
    the stored status carries the time of that reconciliation as its
    completion time. *)
Theorem Reconcile_terminal_sets_CompletedAt (lib : Lib) (env : Env) (task : Task) :
  terminal (Phase (Status_ task)) = false ->
  terminal (Phase (Status_ (stored (Reconcile lib env task)))) = true ->
  CompletedAt (Status_ (stored (Reconcile lib env task))) = Some (now env).
Proof.
  intros Hold Hnew. destruct (Reconcile_steps lib env task) as [Hkeep|[_ [_ Hstep]]].
  - rewrite Hkeep in Hnew. congruence.
  - now apply Hstep.
Qed.

Lemma Reconcile_terminal_sets_CompletedAt_witness :
  CompletedAt (Status_ (stored (Reconcile Samples.task_lib
                                  (Samples.task_env Samples.log_two_markers)
                                  Samples.running_task))) = Some 3000.
Proof.
  apply (Reconcile_terminal_sets_CompletedAt Samples.task_lib
           (Samples.task_env Samples.log_two_markers) Samples.running_task).
  - reflexivity.
  - vm_compute. reflexivity.
Defined.

Lemma ContainsFinalizer_In t f : ContainsFinalizer t f = true <-> In f (Finalizers t).
Proof.
  unfold ContainsFinalizer. rewrite existsb_exists. split.
  - intros (g & Hg & Heq). apply String.eqb_eq in Heq. now subst.
  - intros H. exists f. split; [exact H|apply String.eqb_refl].
Qed.

(** X29. The finalizer protocol.  A Task that is not being deleted and has
    no cleanup finalizer only gets the finalizer appended and is requeued;
    a Task that is being deleted loses the cleanup finalizer and keeps every
    other finalizer in place; neither step touches the status. *)
Theorem Reconcile_finalizer_protocol (lib : Lib) (env : Env) (task : Task) :
  update_err env = None ->
  let o := Reconcile lib env task in
  (DeletionTimestamp task = None -> ContainsFinalizer task taskFinalizer = false ->
     Finalizers (stored o) = Finalizers task ++ [taskFinalizer]
     /\ result o = requeue_now)
  /\ (DeletionTimestamp task <> None ->
        Finalizers (stored o)
          = List.filter (fun g => negb (String.eqb g taskFinalizer)) (Finalizers task)
        /\ ContainsFinalizer (stored o) taskFinalizer = false
        /\ (forall f, f <> taskFinalizer ->
               (In f (Finalizers (stored o)) <-> In f (Finalizers task)))
        /\ result o = no_requeue)
  /\ (DeletionTimestamp task <> None \/ ContainsFinalizer task taskFinalizer = false ->
        Status_ (stored o) = Status_ task /\ err o = None).
Proof.
  intros Hupd. cbv zeta. unfold Reconcile.
  destruct (DeletionTimestamp task) as [ts|] eqn:Hdel.
  - split; [discriminate|]. unfold handleDeletion. rewrite Hupd.
    assert (Hfilter : forall f, f <> taskFinalizer ->
              (In f (List.filter (fun g => negb (String.eqb g taskFinalizer))
                       (Finalizers task)) <-> In f (Finalizers task))).
    { intros f Hf. rewrite filter_In. apply String.eqb_neq in Hf. rewrite Hf. tauto. }
    destruct (ContainsFinalizer task taskFinalizer) eqn:Hfin; cbn [negb stored result err].
    + split; [|intros _; split; reflexivity]. intros _.
      split; [reflexivity|]. split; [|split; [exact Hfilter|reflexivity]].
      destruct (ContainsFinalizer (RemoveFinalizer task taskFinalizer) taskFinalizer)
        eqn:Hc; [|reflexivity].
      apply ContainsFinalizer_In in Hc. cbn [RemoveFinalizer with_finalizers Finalizers] in Hc.
      apply filter_In in Hc. destruct Hc as [_ Hc]. now rewrite String.eqb_refl in Hc.
    + split; [|intros _; split; reflexivity]. intros _.
      assert (Hsame : List.filter (fun g => negb (String.eqb g taskFinalizer))
                        (Finalizers task) = Finalizers task).
      { apply forallb_filter_id. apply forallb_forall. intros g Hg.
        destruct (String.eqb_spec g taskFinalizer) as [->|]; [|reflexivity].
        apply ContainsFinalizer_In in Hg. congruence. }
      rewrite Hsame. split; [reflexivity|]. split; [exact Hfin|].
      split; [tauto|reflexivity].
  - split; [|split; [congruence|]].
    + intros _ Hfin. rewrite Hfin, Hupd. cbn [negb stored result].
      unfold AddFinalizer. rewrite Hfin. split; reflexivity.
    + intros [H|Hfin]; [congruence|]. rewrite Hfin, Hupd. cbn [negb stored err].
      unfold AddFinalizer. rewrite Hfin. split; reflexivity.
Qed.

Lemma Reconcile_finalizer_protocol_witness :
  let task := with_finalizers (Samples.completed_task false) ["other"] in
  let o := Reconcile Samples.task_lib (Samples.task_env Samples.log_no_marker) task in
  Finalizers (stored o) = ["other"; taskFinalizer] /\ result o = requeue_now.
Proof.
  cbv zeta.
  refine (proj1 (Reconcile_finalizer_protocol Samples.task_lib
                   (Samples.task_env Samples.log_no_marker)
                   (with_finalizers (Samples.completed_task false) ["other"]) eq_refl)
            eq_refl eq_refl).
Defined.

(** X30. The total timeout is checked before the Job is looked at: a Running
    Task whose total timeout has elapsed is stored as Failed with the
    reason TotalTimeoutExceeded, whatever the state of its Job, a
    succeeded Job included. *)
Theorem Reconcile_total_timeout_first (lib : Lib) (env : Env) (task : Task) (t0 : Z) :
  DeletionTimestamp task = None ->
  ContainsFinalizer task taskFinalizer = true ->
  Phase (Status_ task) = TaskPhaseRunning ->
  Paused (Spec task) = false ->
  StartedAt (Status_ task) = Some t0 ->
  default defaultTotalTimeout (Limits (Spec task) ≫= TotalTimeout) < now env - t0 ->
  status_update_err env = None ->
  let o := Reconcile lib env task in
  let s := Status_ (stored o) in
  Phase s = TaskPhaseFailed
  /\ CompletedAt s = Some (now env)
  /\ (exists c, FindStatusCondition (Conditions s) "Ready" = Some c
                /\ Status c = ConditionFalse /\ Reason c = "TotalTimeoutExceeded"
                /\ Message c = StatusMessage s)
  /\ result o = no_requeue /\ err o = None.
Proof.
  intros Hdel Hfin Hphase Hpaused Hstart Htime Hupd. cbv zeta. unfold Reconcile.
  rewrite Hdel, Hfin, Hpaused, Hphase. cbn [negb phase_eqb orb].
  unfold handleRunningPhase. cbv zeta. rewrite Hstart.
  assert (Hgt : (now env - t0 >? default 0 (TotalTimeout (getEffectiveLimits task))) = true).
  { unfold getEffectiveLimits.
    destruct (Limits (Spec task)) as [l|]; cbn [TotalTimeout default mbind option_bind] in *;
      rewrite Z.gtb_ltb; apply Z.ltb_lt; exact Htime. }
  rewrite Hgt. unfold update_status. rewrite Hupd.
  cbn [stored result err Status_ with_status].
  split; [reflexivity|]. split; [reflexivity|].
  split; [|split; reflexivity].
  eexists. split.
  - unfold setCondition. cbn [Conditions].
    match goal with
    | |- FindStatusCondition (SetStatusCondition _ ?c) _ = _ =>
        apply (FindStatusCondition_set _ c)
    end.
  - cbn [Status Reason Message]. auto.
Qed.

Lemma Reconcile_total_timeout_first_witness :
  let task :=
    {| Name := "t"; Namespace := "default"; Generation := 1;
       DeletionTimestamp := None; Finalizers := [taskFinalizer]; Annotations := ∅;
       Spec := {| SourceType := TaskSourceTypeInline;
                  Limits := Some {| MaxIterations := None; IterationTimeout := None;
                                    TotalTimeout := Some 1500;
                                    MaxConsecutiveFailures := None;
                                    MaxJobRecreations := None |};
                  GitURL := None; Paused := false |};
       Status_ := set_phase Samples.completed_status TaskPhaseRunning |} in
  Phase (Status_ (stored (Reconcile Samples.task_lib
                            (Samples.task_env Samples.log_two_markers) task)))
  = TaskPhaseFailed.
Proof.
  cbv zeta.
  match goal with
  | |- Phase (Status_ (stored (Reconcile _ _ ?t))) = _ =>
      refine (proj1 (Reconcile_total_timeout_first Samples.task_lib
                       (Samples.task_env Samples.log_two_markers) t 1000
                       eq_refl eq_refl eq_refl eq_refl eq_refl _ eq_refl))
  end.
  simpl. lia.
Defined.

End TaskMoreFacts.
